(** * gentle: the language-model transducer builders

    A shallow embedding of [gentle/language_model.py]: the bigram builder
    [make_bigram_lm_fst], the linear-chain builder [make_transcript_fst] and
    the driver of the external graph compiler
    [make_bigram_language_model], with the properties the specification
    states about them.

    Conventions.
    - A Python [str] is a [string] (its UTF-8 bytes; byte order and code
      point order agree, so [sorted] is a sort by [String.leb]).
    - A [dict] is a [gmap], a [set] a [gset]; [d[k]] on an absent key is the
      [KeyError] of the code and is modelled by [None].
    - Node ids of the bigram builder are [nat] (they start at 1 and grow);
      those of the transcript builder are [Z], since
      [sum(len(seq) - 1) + 1] may be zero or negative.
    - [math.log] and the rendering of a float are library code that is not
      modelled: a bigram weight is kept symbolic and read as a real number
      by [weight_value]; the float formatters are Section variables. *)

From Stdlib Require Import Reals Lra Floats DecimalString DecimalNat DecimalFacts.
From stdpp Require Import gmap strings list sorting.

#[local] Set Warnings "-clear-no-such-hyp".
Local Close Scope R_scope.
Local Open Scope string_scope.
Local Open Scope nat_scope.

(** ** Input shapes and keyword arguments *)

(** [OOV_TERM = '<unk>'] *)
Definition OOV_TERM : string := "<unk>".

(** The [word_sequences] argument: a flat list of words, or a list of
    lists of words.  The Python value [[]] is both [Flat []] and
    [Nested []]. *)
Inductive word_sequences : Type :=
  | Flat (ws : list string)
  | Nested (seqs : list (list string)).

(** [len(word_sequences)] *)
Definition ws_len (a : word_sequences) : nat :=
  match a with
  | Flat ws => length ws
  | Nested seqs => length seqs
  end.

(** [type(word_sequences[0]) != list], which Python evaluates only when
    the list is not empty: the first element of a flat list is a [str]. *)
Definition first_not_list (a : word_sequences) : bool :=
  match a with
  | Flat _ => true
  | Nested _ => false
  end.

(** [[word_sequences]].  A list of lists gets here only when it is empty,
    and then the wrapped value is [[[]]]. *)
Definition wrap (a : word_sequences) : list (list string) :=
  match a with
  | Flat ws => [ws]
  | Nested _ => [[]]
  end.

(** [word_sequences] left as it is, which only happens to a list of lists. *)
Definition unwrapped (a : word_sequences) : list (list string) :=
  match a with
  | Flat ws => [ws]
  | Nested seqs => seqs
  end.

(** Lines 32-33 and 111-112:
    [if len(word_sequences) == 0 or type(word_sequences[0]) != list:
         word_sequences = [word_sequences]] *)
Definition normalize (a : word_sequences) : list (list string) :=
  if (ws_len a =? 0)%nat || first_not_list a then wrap a else unwrapped a.

(** [**kwargs]: each key may be absent. *)
Record kwargs : Type := Kwargs {
  kw_conservative : option bool;
  kw_disfluency : option bool;
  kw_disfluencies : option (list string)
}.

(** [kwargs['conservative'] if 'conservative' in kwargs else False] *)
Definition conservative (kw : kwargs) : bool := default false (kw_conservative kw).
Definition disfluency (kw : kwargs) : bool := default false (kw_disfluency kw).
Definition disfluencies (kw : kwargs) : list string := default [] (kw_disfluencies kw).

Definition no_kwargs : kwargs := Kwargs None None None.

(** ** Sorting and integer rendering *)

(** ["\n"] *)
Definition newline : string := String (Ascii.ascii_of_nat 10) "".

Definition str_le (a b : string) : Prop := String.leb a b = true.

#[global] Instance str_le_dec : RelDecision str_le.
Proof. intros a b. unfold str_le. apply _. Defined.

(** [sorted(xs)] on strings *)
Definition sorted (xs : list string) : list string := merge_sort str_le xs.

(** ['%d' % n] on a natural number *)
Definition fmt_nat (n : nat) : string := NilEmpty.string_of_uint (Nat.to_uint n).

(** [f"{z}"] on an integer *)
Definition fmt_Z (z : Z) : string := NilZero.string_of_int (Z.to_int z).

(** A [for x in xs] loop over a state, where the body may raise. *)
Fixpoint for_each {A St : Type} (body : A → St → option St) (xs : list A) (st : St)
    : option St :=
  match xs with
  | [] => Some st
  | x :: xs' =>
      match body x st with
      | Some st' => for_each body xs' st'
      | None => None
      end
  end.

(** ** The bigram builder *)

Module Bigram.

(** [bigrams.setdefault(k, set()).add(v)] *)
Definition setdefault_add (k v : string) (b : gmap string (gset string))
    : gmap string (gset string) :=
  <[k := default ∅ (b !! k) ∪ {[v]}]> b.

(** [bigrams[k].add(v)]; [None] is the [KeyError] *)
Definition getitem_add (k v : string) (b : gmap string (gset string))
    : option (gmap string (gset string)) :=
  match b !! k with
  | Some s => Some (<[k := s ∪ {[v]}]> b)
  | None => None
  end.

(** [bigrams[k].update(vs)] *)
Definition getitem_update (k : string) (vs : list string) (b : gmap string (gset string))
    : option (gmap string (gset string)) :=
  match b !! k with
  | Some s => Some (<[k := s ∪ list_to_set vs]> b)
  | None => None
  end.

(** Lines 51-53, the body of [for dis in disfluencies] after the first word *)
Definition start_dis (prev_word : string) (dis : string) (b : gmap string (gset string))
    : option (gmap string (gset string)) :=
  getitem_add dis OOV_TERM (setdefault_add dis prev_word b).

(** Lines 56-67, the body of [for word in word_sequence[1:]]; the state is
    [(bigrams, prev_word)]. *)
Definition step_word (kw : kwargs) (word : string)
    (st : gmap string (gset string) * string)
    : option (gmap string (gset string) * string) :=
  let prev_word := st.2 in
  let b1 := setdefault_add prev_word word st.1 in
  match (if conservative kw then getitem_add prev_word OOV_TERM b1 else Some b1) with
  | None => None
  | Some b2 =>
      match (if disfluency kw
             then match getitem_update prev_word (disfluencies kw) b2 with
                  | Some b3 =>
                      for_each (λ dis, getitem_add dis word) (disfluencies kw) b3
                  | None => None
                  end
             else Some b2) with
      | None => None
      | Some b4 => Some (b4, word)
      end
  end.

(** Lines 42-70, the body of [for word_sequence in word_sequences] *)
Definition step_sequence (kw : kwargs) (word_sequence : list string)
    (b : gmap string (gset string)) : option (gmap string (gset string)) :=
  match word_sequence with
  | [] => Some b
  | first :: rest =>
      match getitem_add OOV_TERM first b with
      | None => None
      | Some b1 =>
          match (if disfluency kw
                 then match getitem_update OOV_TERM (disfluencies kw) b1 with
                      | Some b2 => for_each (start_dis first) (disfluencies kw) b2
                      | None => None
                      end
                 else Some b1) with
          | None => None
          | Some b3 =>
              match for_each (step_word kw) rest (b3, first) with
              | None => None
              | Some st => Some (setdefault_add st.2 OOV_TERM st.1)
              end
          end
      end
  end.

(** Lines 39-70 *)
Definition build_bigrams (kw : kwargs) (seqs : list (list string))
    : option (gmap string (gset string)) :=
  for_each (step_sequence kw) seqs {[ OOV_TERM := {[ OOV_TERM ]} ]}.

(** The weight of line 84, [-math.log(1.0 / len(successors))], kept as the
    expression it is, and the integer [0] of line 86. *)
Inductive weight : Type :=
  | NegLogRecip (n : nat)
  | ZeroInt.

#[global] Instance weight_eq_dec : EqDecision weight.
Proof. solve_decision. Defined.

(** One emitted line [(from_id, to_id, to_word, to_word, weight)] *)
Record line : Type := Line {
  from_id : nat;
  to_id : nat;
  ilabel : string;
  olabel : string;
  arc_weight : weight
}.

#[global] Instance line_eq_dec : EqDecision line.
Proof. solve_decision. Defined.

(** Lines 73-76:
    [node_id = node_ids.get(word, len(node_ids) + 1); node_ids[word] = node_id] *)
Definition get_node_id (word : string) (node_ids : gmap string nat)
    : nat * gmap string nat :=
  let node_id := default (size node_ids + 1) (node_ids !! word) in
  (node_id, <[word := node_id]> node_ids).

(** Lines 88-91, [for to_word in sorted(successors)] *)
Fixpoint emit_successors (from : nat) (w : weight) (to_words : list string)
    (node_ids : gmap string nat) : list line * gmap string nat :=
  match to_words with
  | [] => ([], node_ids)
  | to_word :: rest =>
      let r := get_node_id to_word node_ids in
      let r' := emit_successors from w rest r.2 in
      (Line from r.1 to_word to_word w :: r'.1, r'.2)
  end.

(** Lines 83-86 *)
Definition weight_of (successors : gset string) : weight :=
  if bool_decide (0 < size successors) then NegLogRecip (size successors) else ZeroInt.

(** Lines 79-91, [for from_word in sorted(bigrams.keys())]; [bigrams[from_word]]
    cannot raise for a key of the dict. *)
Fixpoint emit_nodes (b : gmap string (gset string)) (from_words : list string)
    (node_ids : gmap string nat) : list line * gmap string nat :=
  match from_words with
  | [] => ([], node_ids)
  | from_word :: rest =>
      let r := get_node_id from_word node_ids in
      let successors := default ∅ (b !! from_word) in
      let r1 := emit_successors r.1 (weight_of successors)
                  (sorted (elements successors)) r.2 in
      let r2 := emit_nodes b rest r1.2 in
      ((r1.1 ++ r2.1)%list, r2.2)
  end.

(** The transducer before it is rendered: the arc lines and the node of the
    final line ["%d    0\n" % len(node_ids)]. *)
Record fst_text : Type := FstText {
  arcs : list line;
  final_node : nat
}.

Definition emit (b : gmap string (gset string)) : fst_text :=
  let r := emit_nodes b (sorted (elements (dom b))) ∅ in
  FstText r.1 (size r.2).

(** Lines 32-93 up to rendering *)
Definition bigram_fst (a : word_sequences) (kw : kwargs) : option fst_text :=
  match build_bigrams kw (normalize a) with
  | Some b => Some (emit b)
  | None => None
  end.

(** The real number a weight stands for. *)
Definition weight_value (w : weight) : R :=
  match w with
  | NegLogRecip n => (- ln (1 / INR n))%R
  | ZeroInt => 0%R
  end.

Section Render.

(** ['%f' % weight] *)
Variable fmt_f : weight → string.

(** Lines 90-91 *)
Definition render_line (l : line) : string :=
  fmt_nat (from_id l) ++ "    " ++ fmt_nat (to_id l) ++ "    " ++ ilabel l
    ++ "    " ++ olabel l ++ "    " ++ fmt_f (arc_weight l) ++ newline.

Definition render (t : fst_text) : string :=
  foldr (λ l acc, render_line l ++ acc) (fmt_nat (final_node t) ++ "    0" ++ newline)
    (arcs t).

(** [make_bigram_lm_fst(word_sequences, **kwargs)]; the result is the
    encoded text, [None] an uncaught [KeyError]. *)
Definition make_bigram_lm_fst (a : word_sequences) (kw : kwargs) : option string :=
  render <$> bigram_fst a kw.

End Render.

End Bigram.

(** ** The transcript builder *)

Module Transcript.

(** An output tuple [(from, to, in_label, out_label, weight)] *)
Definition edge : Type := Z * Z * string * string * float.

(** The local variables of [make_transcript_fst] that the loop updates.
    The dict [bigrams] of line 118 is never read. *)
Record state : Type := State {
  cur_node_id : Z;
  next_node_id : Z;
  next_available_node_id : Z;
  output : list edge;
  start_node_flag : bool;
  end_node_flag : bool
}.

(** Line 122: [sum([len(word_sequence) - 1 for ...]) + 1] *)
Definition end_node_id_of (seqs : list (list string)) : Z :=
  (foldr Z.add 0
     (map (λ word_sequence : list string, Z.of_nat (length word_sequence) - 1) seqs)
   + 1)%Z.

(** Lines 120-126 *)
Definition init : state := State 0 0 1 [] true true.

(** [output.append(e)] for each [e] of [es], in order *)
Definition append (es : list edge) (st : state) : state :=
  State (cur_node_id st) (next_node_id st) (next_available_node_id st)
        (output st ++ es)%list (start_node_flag st) (end_node_flag st).

(** The filler loops of lines 133-138, 163-168 and 171-176 at node [n] *)
Definition self_loops (kw : kwargs) (n : Z) : list edge :=
  ((if disfluency kw
    then map (λ dis, (n, n, dis, dis, 0%float)) (disfluencies kw)
    else []) ++
   (if conservative kw then [(n, n, OOV_TERM, OOV_TERM, 0%float)] else []))%list.

(** Lines 149-150 *)
Definition word_arcs (src tgt : Z) (word : string) : list edge :=
  [(src, tgt, word, word, 2%float); (src, tgt, OOV_TERM, OOV_TERM, 0%float)].

(** Lines 156-157 *)
Definition step_to_end (end_node_id : Z) (st : state) : state :=
  State (next_node_id st) end_node_id (next_available_node_id st)
        (output st) (start_node_flag st) (end_node_flag st).

(** Lines 159-161 and 145-146 (the latter leaves [cur_node_id] alone) *)
Definition step_to_fresh (st : state) : state :=
  State (next_node_id st) (next_available_node_id st) (next_available_node_id st + 1)
        (output st) (start_node_flag st) (end_node_flag st).

(** Lines 148-168, [for i, word in enumerate(word_sequence)], entered at
    index [i] with the words [ws] still to come; [len] is
    [len(word_sequence)]. *)
Fixpoint walk (kw : kwargs) (end_node_id len : Z) (i : Z) (ws : list string)
    (st : state) : state :=
  match ws with
  | [] => st
  | word :: rest =>
      let st1 := append (word_arcs (cur_node_id st) (next_node_id st) word) st in
      if bool_decide (i = len - 1)%Z then st1
      else
        let st2 := if bool_decide (i = len - 2)%Z
                   then step_to_end end_node_id st1
                   else step_to_fresh st1 in
        walk kw end_node_id len (i + 1) rest
             (append (self_loops kw (cur_node_id st2)) st2)
  end.

(** Lines 131-140 *)
Definition enter_start (kw : kwargs) (st : state) : state :=
  if start_node_flag st
  then State 0 (next_node_id st) (next_available_node_id st)
             (output st ++ self_loops kw 0)%list false (end_node_flag st)
  else State 0 (next_node_id st) (next_available_node_id st)
             (output st) (start_node_flag st) (end_node_flag st).

(** Lines 142-146 *)
Definition first_target (end_node_id : Z) (word_sequence : list string) (st : state)
    : state :=
  if bool_decide (length word_sequence = 1)
  then State (cur_node_id st) end_node_id (next_available_node_id st)
             (output st) (start_node_flag st) (end_node_flag st)
  else State (cur_node_id st) (next_available_node_id st) (next_available_node_id st + 1)
             (output st) (start_node_flag st) (end_node_flag st).

(** Lines 170-178 *)
Definition leave_end (kw : kwargs) (end_node_id : Z) (st : state) : state :=
  if end_node_flag st
  then State (cur_node_id st) (next_node_id st) (next_available_node_id st)
             (output st ++ self_loops kw end_node_id)%list (start_node_flag st) false
  else st.

(** Lines 128-178, the body of [for word_sequence in word_sequences] *)
Definition step_sequence (kw : kwargs) (end_node_id : Z) (st : state)
    (word_sequence : list string) : state :=
  match word_sequence with
  | [] => st
  | _ :: _ =>
      let st1 := first_target end_node_id word_sequence (enter_start kw st) in
      let st2 := walk kw end_node_id (Z.of_nat (length word_sequence)) 0 word_sequence st1 in
      leave_end kw end_node_id st2
  end.

(** The state when the loop of line 127 is over *)
Definition run (kw : kwargs) (seqs : list (list string)) : state :=
  foldl (step_sequence kw (end_node_id_of seqs)) init seqs.

(** The order of Python tuples: the first component that differs decides. *)
Definition edge_lt (a b : edge) : bool :=
  let '(f1, t1, i1, o1, w1) := a in
  let '(f2, t2, i2, o2, w2) := b in
  if negb (f1 =? f2)%Z then (f1 <? f2)%Z
  else if negb (t1 =? t2)%Z then (t1 <? t2)%Z
  else if negb (String.eqb i1 i2) then String.ltb i1 i2
  else if negb (String.eqb o1 o2) then String.ltb o1 o2
  else PrimFloat.ltb w1 w2.

Definition edge_le (a b : edge) : Prop := edge_lt b a = false.

#[global] Instance edge_le_dec : RelDecision edge_le.
Proof. intros a b. unfold edge_le. apply _. Defined.

(** [output.sort()] *)
Definition sort_edges (es : list edge) : list edge := merge_sort edge_le es.

(** What a call does: return the encoded text, or fail the assertion of
    line 180 with its message. *)
Inductive result : Type :=
  | Returned (bytes : string)
  | AssertionError (msg : string).

Section Render.

(** [f"{w}"] on a float *)
Variable fmt_float : float → string.

(** Line 184: [f"{x[0]} {x[1]} {x[2]} {x[3]} {x[4]}"] *)
Definition render_edge (x : edge) : string :=
  let '(f, t, i, o, w) := x in
  fmt_Z f ++ " " ++ fmt_Z t ++ " " ++ i ++ " " ++ o ++ " " ++ fmt_float w.

(** Lines 184-185 *)
Definition render (es : list edge) (end_node_id : Z) : string :=
  String.concat newline (map render_edge es)
    ++ newline ++ fmt_Z end_node_id ++ " 0" ++ newline.

(** [make_transcript_fst(word_sequences, **kwargs)] *)
Definition make_transcript_fst (a : word_sequences) (kw : kwargs) : result :=
  let seqs := normalize a in
  let end_node_id := end_node_id_of seqs in
  let st := run kw seqs in
  if bool_decide (end_node_id = next_available_node_id st)
  then Returned (render (sort_edges (output st)) end_node_id)
  else AssertionError (fmt_Z end_node_id ++ " vs " ++ fmt_Z (next_available_node_id st)).

End Render.

End Transcript.

(** ** The driver of the external graph compiler *)

Module Driver.

(** The exceptions that can travel through [make_bigram_language_model]. *)
Inductive exn : Type :=
  | CalledProcessError (returncode : Z)
  | FileNotFoundError (path : string)
  | PermissionError (path : string)
  | KeyError.

#[global] Instance exn_eq_dec : EqDecision exn.
Proof. solve_decision. Defined.

(** The part of the machine the function touches: the files by path, and
    the paths the process is not allowed to remove. *)
Record world : Type := World {
  files : gmap string string;
  undeletable : gset string
}.

(** A computation that reads and writes the world and returns or raises. *)
Definition M (A : Type) : Type := world → (A + exn) * world.

Definition ret {A : Type} (a : A) : M A := λ w, (inl a, w).
Definition raise {A : Type} (e : exn) : M A := λ w, (inr e, w).
Definition bind {A B : Type} (m : M A) (k : A → M B) : M B :=
  λ w, match m w with
       | (inl a, w') => k a w'
       | (inr e, w') => (inr e, w')
       end.

(** [try: body / except Exception as e: handler(e)] *)
Definition try_except {A : Type} (body : M A) (handler : exn → M A) : M A :=
  λ w, match body w with
       | (inl a, w') => (inl a, w')
       | (inr e, w') => handler e w'
       end.

(** [try: body / finally: cleanup]: the cleanup always runs; when it
    raises, its exception is the one that leaves the statement. *)
Definition try_finally {A : Type} (body : M A) (cleanup : M unit) : M A :=
  λ w, match body w with
       | (r, w') =>
           match cleanup w' with
           | (inl _, w'') => (r, w'')
           | (inr e, w'') => (inr e, w'')
           end
       end.

(** [os.unlink(path)] *)
Definition os_unlink (path : string) : M unit :=
  λ w, match files w !! path with
       | None => (inr (FileNotFoundError path), w)
       | Some _ =>
           if bool_decide (path ∈ undeletable w)
           then (inr (PermissionError path), w)
           else (inl tt, World (delete path (files w)) (undeletable w))
       end.

(** [f = tempfile.NamedTemporaryFile(delete=False); f.write(data); f.close()]
    for the name the library picks *)
Definition write_temp (name data : string) : M unit :=
  λ w, (inl tt, World (<[name := data]> (files w)) (undeletable w)).

Section Run.

(** ['%f' % weight] of the bigram builder *)
Variable fmt_f : Bigram.weight → string.

(** [subprocess.check_output([MKGRAPH_PATH, proto_langdir, txt, hclg], ...)]:
    the external program, which may change the files and may fail. *)
Variable mkgraph : string → string → string → M unit.

(** The names [tempfile] hands out. *)
Variable txt_fst_name hclg_filename : string.

(** Lines 209-227.  Opening [os.devnull] is left out: it touches none of
    the files the function manages. *)
Definition compile_graph (proto_langdir : string) : M unit :=
  try_finally
    (try_except
       (mkgraph proto_langdir txt_fst_name hclg_filename)
       (λ e, bind (try_except (os_unlink hclg_filename) (λ _, ret tt))
                  (λ _, raise e)))
    (os_unlink txt_fst_name).

(** [make_bigram_language_model(kaldi_seq, proto_langdir, **kwargs)] *)
Definition make_bigram_language_model (kaldi_seq : word_sequences)
    (proto_langdir : string) (kw : kwargs) : M string :=
  match Bigram.make_bigram_lm_fst fmt_f kaldi_seq kw with
  | None => raise KeyError
  | Some txt_fst =>
      bind (write_temp txt_fst_name txt_fst) (λ _,
      bind (compile_graph proto_langdir) (λ _,
      ret hclg_filename))
  end.

End Run.

End Driver.

(** ** The specification's side *)

Module Spec.

(** The successor relation of the bigram design, steps 1 to 4 without the
    conservative and disfluency options: the seed, a first word after the
    OOV token, a word after the word before it, the OOV token after a last
    word. *)
Inductive successor (seqs : list (list string)) : string → string → Prop :=
  | successor_seed :
      successor seqs OOV_TERM OOV_TERM
  | successor_first seq word :
      seq ∈ seqs → head seq = Some word → successor seqs OOV_TERM word
  | successor_pair seq i prev word :
      seq ∈ seqs → seq !! i = Some prev → seq !! S i = Some word →
      successor seqs prev word
  | successor_last seq word :
      seq ∈ seqs → last seq = Some word → successor seqs word OOV_TERM.

(** [1 + sum(max(len(seq) - 1, 0) for seq in sequences)] *)
Definition end_node_id (seqs : list (list string)) : Z :=
  (1 + foldr Z.add 0
         (map (λ seq : list string, Z.max (Z.of_nat (length seq) - 1) 0) seqs))%Z.

End Spec.

(** ** Reading a bigram transducer back *)

Import Bigram.

(** The word of node [n]: the label of the first arc that enters it. *)
Definition label_of (ls : list line) (n : nat) : option string :=
  (λ r : nat * line, ilabel r.2) <$> list_find (λ l, to_id l = n) ls.

(** The adjacency relation of a transducer, one pair of words per arc. *)
Definition parse_adjacency (t : fst_text) : list (string * string) :=
  omap (λ l, (λ src, (src, ilabel l)) <$> label_of (arcs t) (from_id l)) (arcs t).

(** The arcs that leave node [n] *)
Definition out_arcs (t : fst_text) (n : nat) : list line :=
  filter (λ l, from_id l = n) (arcs t).

(** The sum of [exp(-weight)] over some arcs *)
Definition mass (ls : list line) : R :=
  foldr (λ l acc, (exp (- weight_value (arc_weight l)) + acc)%R) 0%R ls.

(** ** Invariants of the bigram builder *)

(** The node numbering at any moment: ids are 1 to [len(node_ids)], one
    per word. *)
Record ids_ok (node_ids : gmap string nat) : Prop := IdsOk {
  ids_range : ∀ w n, node_ids !! w = Some n → 1 ≤ n ≤ size node_ids;
  ids_inj : ∀ w1 w2 n, node_ids !! w1 = Some n → node_ids !! w2 = Some n → w1 = w2;
  ids_onto : ∀ n, 1 ≤ n ≤ size node_ids → ∃ w, node_ids !! w = Some n
}.

(** The id of a word in a numbering *)
Definition node (node_ids : gmap string nat) (w : string) : nat :=
  default 0 (node_ids !! w).

(** The successors of a key *)
Definition successors_of (b : gmap string (gset string)) (k : string) : gset string :=
  default ∅ (b !! k).

(** The lines of one source word under a numbering *)
Definition block (b : gmap string (gset string)) (node_ids : gmap string nat)
    (k : string) : list line :=
  map (λ t, Line (node node_ids k) (node node_ids t) t t (weight_of (successors_of b k)))
      (sorted (elements (successors_of b k))).

(** [w2] is a successor of [w1] in the dict *)
Definition succ_in (b : gmap string (gset string)) (w1 w2 : string) : Prop :=
  ∃ s, b !! w1 = Some s ∧ w2 ∈ s.

(** What the three dict updates of the loop do: more successors for [k]. *)
Definition add_succs (k : string) (X : gset string) (b : gmap string (gset string))
    : gmap string (gset string) :=
  <[k := successors_of b k ∪ X]> b.

(** The dict while it is built.  The words of [pending] are the ones the
    loop still has to give a successor to (the current [prev_word]). *)
Record bigrams_ok (pending : gset string) (b : gmap string (gset string)) : Prop :=
  BigramsOk {
    ok_oov : OOV_TERM ∈ dom b;
    ok_nonempty : ∀ k s, b !! k = Some s → s ≠ ∅;
    ok_closed : ∀ k s, b !! k = Some s → s ⊆ dom b ∪ pending;
    ok_reached : ∀ k, k ∈ dom b ∪ pending → ∃ k0, succ_in b k0 k
  }.

(** The successors one sequence contributes without the options: its first
    word after the OOV token, each word after the word before it, the OOV
    token after its last word. *)
Definition seq_successor (seq : list string) (w1 w2 : string) : Prop :=
  (w1 = OOV_TERM ∧ head seq = Some w2)
  ∨ (∃ i, seq !! i = Some w1 ∧ seq !! S i = Some w2)
  ∨ (last seq = Some w1 ∧ w2 = OOV_TERM).

(** The pairs of words of the arcs of a dict, sources and targets sorted *)
Definition adjacency_of (b : gmap string (gset string)) : list (string * string) :=
  sorted (elements (dom b)) ≫=
    λ k, map (pair k) (sorted (elements (successors_of b k))).

(** ** Shapes of the transcript builder's output *)

(** A filler loop: an arc from a node to itself, of weight 0.0, for the
    OOV token or a disfluency. *)
Definition is_filler (kw : kwargs) (e : Transcript.edge) : Prop :=
  ∃ n label, e = (n, n, label, label, 0%float)
             ∧ label ∈ OOV_TERM :: disfluencies kw.

(** The hops [(source, target)] lead from [src] to [tgt], each starting
    where the one before ended. *)
Fixpoint is_path (src : Z) (hops : list (Z * Z)) (tgt : Z) : Prop :=
  match hops with
  | [] => src = tgt
  | hop :: rest => hop.1 = src ∧ is_path hop.2 rest tgt
  end.

(** The two arcs of lines 149-150 for each word of a sequence, along the
    hops given. *)
Definition chain_arcs (hops : list (Z * Z)) (seq : list string) : list Transcript.edge :=
  concat (zip_with (λ hop word, Transcript.word_arcs hop.1 hop.2 word) hops seq).


(** ** The bigram dict under the options *)

(** What the pair [(prev_word, word)] adds to the dict in one turn of the
    loop of lines 55-67. *)
Definition pair_successor (kw : kwargs) (prev word w1 w2 : string) : Prop :=
  (w1 = prev ∧ w2 = word)
  ∨ (conservative kw = true ∧ w1 = prev ∧ w2 = OOV_TERM)
  ∨ (disfluency kw = true ∧ w1 = prev ∧ w2 ∈ disfluencies kw)
  ∨ (disfluency kw = true ∧ w1 ∈ disfluencies kw ∧ w2 = word).

(** The successors one sequence contributes under the options: those of
    [seq_successor]; with the conservative flag, the OOV token after every
    word that has a next word; with the disfluency flag and a sequence that
    is not empty, each disfluency after the OOV token and after every word
    that has a next word, and the OOV token and every word of the sequence
    after each disfluency. *)
Definition seq_successor_opts (kw : kwargs) (seq : list string) (w1 w2 : string)
    : Prop :=
  seq_successor seq w1 w2
  ∨ (conservative kw = true ∧ w2 = OOV_TERM
     ∧ ∃ i, seq !! i = Some w1 ∧ is_Some (seq !! S i))
  ∨ (disfluency kw = true ∧ seq ≠ []
     ∧ ((w1 = OOV_TERM ∧ w2 ∈ disfluencies kw)
        ∨ (w1 ∈ disfluencies kw ∧ (w2 = OOV_TERM ∨ w2 ∈ seq))
        ∨ (w2 ∈ disfluencies kw ∧ ∃ i, seq !! i = Some w1 ∧ is_Some (seq !! S i)))).

(** ** The chains of the transcript builder *)

(** The hops of a chain that stands at node [cur], has the hop to [next]
    ahead of it and [rest] more words to place after that one: the hop
    into the last word goes to the end node [e], the others to the node
    after [next]. *)
Fixpoint chain_from (e cur next : Z) (rest : nat) : list (Z * Z) :=
  match rest with
  | 0 => [(cur, next)]
  | S r => (cur, next)
           :: chain_from e next (match r with 0 => e | S _ => (next + 1)%Z end) r
  end.

(** The chain of a sequence of [n] words when the counter of fresh nodes
    stands at [a]: one word goes from node 0 to the end node, more words
    go through the fresh nodes [a], [a + 1], ... *)
Definition chain_of (e a : Z) (n : nat) : list (Z * Z) :=
  match n with
  | 0 => []
  | 1 => chain_from e 0 e 0
  | S (S m) => chain_from e 0 a (S m)
  end.

(** The word arcs of all the sequences, the counter starting at [a] *)
Fixpoint chains (e a : Z) (seqs : list (list string)) : list Transcript.edge :=
  match seqs with
  | [] => []
  | seq :: rest =>
      (chain_arcs (chain_of e a (length seq)) seq
       ++ chains e (a + Z.max (Z.of_nat (length seq) - 1) 0) rest)%list
  end.

(** Some sequence of the list has a word. *)
Definition any_word (seqs : list (list string)) : bool :=
  bool_decide (Exists (λ seq, seq ≠ []) seqs).

(** The filler loops of the nodes [a], [a + 1], ..., [n] of them *)
Definition loops_at (kw : kwargs) (a n : Z) : list Transcript.edge :=
  concat (map (Transcript.self_loops kw) (seqZ a n)).

(** The two ends of an arc of the transcript builder *)
Definition edge_src (x : Transcript.edge) : Z := x.1.1.1.1.
Definition edge_tgt (x : Transcript.edge) : Z := x.1.1.1.2.

(** ** The driver script [align_cuts.py] *)

Module AlignCuts.

(** Line 63, [(icut % total_jobs) + 1 != job_id].  Python's [%] takes the
    sign of the divisor, as [Z.modulo] does; a divisor 0 raises
    [ZeroDivisionError], which is [None]. *)
Definition other_job (job_id total_jobs : Z) (icut : nat) : option bool :=
  if bool_decide (total_jobs = 0)%Z then None
  else Some (negb (bool_decide ((Z.of_nat icut `mod` total_jobs) + 1 = job_id)%Z)).

(** Lines 62-64: the indices, in the order of the loop, of the cuts that
    get past the [continue] of line 64. *)
Fixpoint cuts_of_job (job_id total_jobs : Z) (icuts : list nat) : option (list nat) :=
  match icuts with
  | [] => Some []
  | icut :: rest =>
      match other_job job_id total_jobs icut with
      | None => None
      | Some skip =>
          match cuts_of_job job_id total_jobs rest with
          | None => None
          | Some mine => Some (if skip then mine else icut :: mine)
          end
      end
  end.

End AlignCuts.

(** ** The order of the lines of the bigram builder *)

(** The order of two pairs of words: by the first word, then by the
    second. *)
Definition pair_le (p q : string * string) : Prop :=
  (p.1 ≠ q.1 ∧ str_le p.1 q.1) ∨ (p.1 = q.1 ∧ str_le p.2 q.2).


(** ** The hops of the transcript builder's chains *)

(** The hops of the chain of each sequence, the counter of fresh nodes
    starting at [a] and moving on by [len(seq) - 1] after each sequence. *)
Fixpoint chain_hops (e a : Z) (seqs : list (list string)) : list (list (Z * Z)) :=
  match seqs with
  | [] => []
  | seq :: rest =>
      chain_of e a (length seq)
      :: chain_hops e (a + Z.max (Z.of_nat (length seq) - 1) 0) rest
  end.

(** ** Reading the text of the bigram builder back

    The source has no reader of its own: the text goes to the graph
    compiler.  This is the reader of the format lines 89-93 write, the one
    the specification means by parsing the output back: one arc per line,
    its fields (source id, target id, input label, output label, weight)
    separated by blanks; a last line with the final state and its weight. *)

Definition space_char : Ascii.ascii := Ascii.ascii_of_nat 32.
Definition newline_char : Ascii.ascii := Ascii.ascii_of_nat 10.

(** [c in s] *)
Fixpoint has_char (c : Ascii.ascii) (s : string) : bool :=
  match s with
  | EmptyString => false
  | String x rest => Ascii.eqb x c || has_char c rest
  end.

(** A string that stands as one field of a line: it is not empty and has
    neither a blank nor a newline in it. *)
Definition is_token (s : string) : bool :=
  negb (String.eqb s "") && negb (has_char space_char s)
  && negb (has_char newline_char s).

(** [s.split(sep)] for a separator of one character *)
Fixpoint split_on (sep : Ascii.ascii) (s : string) : list string :=
  match s with
  | EmptyString => [EmptyString]
  | String x rest =>
      if Ascii.eqb x sep then EmptyString :: split_on sep rest
      else match split_on sep rest with
           | [] => [String x EmptyString]
           | field :: fields => String x field :: fields
           end
  end.

(** The fields of a line: the runs of characters between its blanks *)
Definition text_fields (line : string) : list string :=
  filter (λ field, field ≠ EmptyString) (split_on space_char line).

(** The lines of a text that are not empty *)
Definition text_lines (text : string) : list string :=
  filter (λ line, line ≠ EmptyString) (split_on newline_char text).

(** A node id in decimal digits *)
Definition parse_nat (s : string) : option nat :=
  Nat.of_uint <$> NilEmpty.uint_of_string s.

(** What a line says: an arc (of which the ids and the input label are
    kept), or the final state. *)
Inductive text_line : Type :=
  | ArcLine (src tgt : nat) (label : string)
  | FinalLine (final : nat).

(** A line of five fields is an arc, a line of two fields the final
    state; any other line is not of the format. *)
Definition parse_line (line : string) : option text_line :=
  match text_fields line with
  | [src; tgt; label; _; _] =>
      match parse_nat src, parse_nat tgt with
      | Some s, Some t => Some (ArcLine s t label)
      | _, _ => None
      end
  | [final; _] => FinalLine <$> parse_nat final
  | _ => None
  end.

Fixpoint parse_lines (lines : list string) : option (list text_line) :=
  match lines with
  | [] => Some []
  | line :: rest =>
      match parse_line line, parse_lines rest with
      | Some l, Some ls => Some (l :: ls)
      | _, _ => None
      end
  end.

(** The arcs among the lines *)
Definition text_arcs (ls : list text_line) : list (nat * nat * string) :=
  omap (λ l, match l with
             | ArcLine s t label => Some (s, t, label)
             | FinalLine _ => None
             end) ls.

(** The adjacency relation of a list of arcs, one pair of words per arc:
    the word of a node is the label of the first arc that enters it. *)
Definition adjacency_of_arcs (arcs : list (nat * nat * string))
    : list (string * string) :=
  omap (λ arc, (λ r : nat * (nat * nat * string), (r.2.2, arc.2))
               <$> list_find (λ a : nat * nat * string, a.1.2 = arc.1.1) arcs)
       arcs.

(** The adjacency relation read back from the text of a transducer;
    [None] for a text that is not of the format. *)
Definition text_adjacency (text : string) : option (list (string * string)) :=
  (λ ls, adjacency_of_arcs (text_arcs ls)) <$> parse_lines (text_lines text).

(** A line of the text of the bigram builder without its newline
    (line 90) *)
Definition line_text (fmt_f : weight → string) (l : line) : string :=
  fmt_nat (from_id l) ++ "    " ++ fmt_nat (to_id l) ++ "    " ++ ilabel l
    ++ "    " ++ olabel l ++ "    " ++ fmt_f (arc_weight l).

(** What the reader keeps of an arc *)
Definition arc_of_line (l : line) : nat * nat * string :=
  (from_id l, to_id l, ilabel l).

(** The labels and the weight of a line stand as fields. *)
Definition line_ok (fmt_f : weight → string) (l : line) : Prop :=
  is_token (ilabel l) = true ∧ is_token (olabel l) = true
  ∧ is_token (fmt_f (arc_weight l)) = true.
(** * Properties *)

(** ** Loops and sorting *)

Lemma elem_of_sorted (x : string) (xs : list string) : x ∈ sorted xs ↔ x ∈ xs.
Proof. unfold sorted. by rewrite merge_sort_Permutation. Qed.

Lemma NoDup_sorted (xs : list string) : NoDup xs → NoDup (sorted xs).
Proof. unfold sorted. by rewrite merge_sort_Permutation. Qed.

Lemma length_sorted (xs : list string) : length (sorted xs) = length xs.
Proof. unfold sorted. by rewrite merge_sort_Permutation. Qed.

(** A loop whose body keeps an invariant and never raises runs to the end
    and keeps the invariant. *)
Lemma for_each_invariant {A St : Type} (Inv : St → Prop) (body : A → St → option St)
    (xs : list A) (st : St) :
  Inv st →
  (∀ x st0, x ∈ xs → Inv st0 → ∃ st1, body x st0 = Some st1 ∧ Inv st1) →
  ∃ st', for_each body xs st = Some st' ∧ Inv st'.
Proof.
  revert st. induction xs as [|x xs IH]; intros st Hst Hbody; simpl.
  - eauto.
  - destruct (Hbody x st) as (st1 & -> & Hst1); [left | done |].
    apply IH; [done |]. intros y st0 Hy. apply Hbody. by right.
Qed.

(** ** Node numbering *)

Lemma ids_ok_empty : ids_ok ∅.
Proof.
  split.
  - intros w n H. by rewrite lookup_empty in H.
  - intros w1 w2 n H. by rewrite lookup_empty in H.
  - intros n. rewrite map_size_empty. lia.
Qed.

Lemma get_node_id_spec (word : string) (node_ids ids' : gmap string nat) (n : nat) :
  get_node_id word node_ids = (n, ids') →
  ids_ok node_ids →
  ids_ok ids' ∧ node_ids ⊆ ids' ∧ ids' !! word = Some n
  ∧ dom ids' = dom node_ids ∪ {[word]}.
Proof.
  unfold get_node_id. intros [= <- <-] Hok.
  destruct (node_ids !! word) as [n|] eqn:Hw; simpl.
  - rewrite insert_id by done. split_and!; [done | done | done |].
    apply elem_of_dom_2 in Hw. set_solver.
  - destruct Hok as [Hr Hi Ho].
    assert (Hsz : size (<[word := size node_ids + 1]> node_ids) = S (size node_ids))
      by by apply map_size_insert_None.
    split_and!.
    + split.
      * intros w n. rewrite lookup_insert, Hsz. case_decide; intros Hn.
        -- simplify_eq. lia.
        -- apply Hr in Hn. lia.
      * intros w1 w2 n. rewrite !lookup_insert.
        repeat case_decide; intros H1 H2; simplify_eq.
        -- done.
        -- apply Hr in H2. lia.
        -- apply Hr in H1. lia.
        -- eauto.
      * intros n Hn. rewrite Hsz in Hn.
        destruct (decide (n = size node_ids + 1)) as [->|Hne].
        -- exists word. by rewrite lookup_insert_eq.
        -- destruct (Ho n) as [w Hw']; [lia |]. exists w.
           rewrite lookup_insert_ne; [done |]. intros ->. congruence.
    + by apply insert_subseteq.
    + by rewrite lookup_insert_eq.
    + rewrite dom_insert_L. set_solver.
Qed.

Lemma node_lookup (node_ids : gmap string nat) (w : string) (n : nat) :
  node_ids !! w = Some n → node node_ids w = n.
Proof. unfold node. by intros ->. Qed.

Lemma node_mono (ids ids' : gmap string nat) (w : string) :
  ids ⊆ ids' → w ∈ dom ids → node ids' w = node ids w.
Proof.
  intros Hsub [n Hn]%elem_of_dom. rewrite (node_lookup ids w n Hn).
  apply node_lookup. by eapply lookup_weaken.
Qed.

Lemma emit_successors_spec (from : nat) (w : weight) (to_words : list string)
    (node_ids ids' : gmap string nat) (ls : list line) :
  emit_successors from w to_words node_ids = (ls, ids') →
  ids_ok node_ids →
  ids_ok ids' ∧ node_ids ⊆ ids'
  ∧ dom ids' = dom node_ids ∪ list_to_set to_words
  ∧ ls = map (λ t, Line from (node ids' t) t t w) to_words.
Proof.
  revert node_ids ids' ls.
  induction to_words as [|t ts IH]; intros ids ids' ls; cbn [emit_successors].
  - intros [= <- <-] Hok. split_and!; [done | done | set_solver | done].
  - destruct (get_node_id t ids) as [n ids1] eqn:Hg. cbn [fst snd].
    destruct (emit_successors from w ts ids1) as [ls2 ids2] eqn:He. cbn [fst snd].
    intros [= <- <-] Hok.
    destruct (get_node_id_spec _ _ _ _ Hg Hok) as (Hok1 & Hsub1 & Hl1 & Hd1).
    destruct (IH _ _ _ He Hok1) as (Hok2 & Hsub2 & Hd2 & Hls).
    split_and!.
    + done.
    + by etrans.
    + rewrite Hd2, Hd1. set_solver.
    + cbn [map]. rewrite (node_lookup ids2 t n) by (by eapply lookup_weaken).
      by rewrite Hls.
Qed.

Lemma emit_nodes_spec (b : gmap string (gset string)) (from_words : list string)
    (node_ids ids' : gmap string nat) (ls : list line) :
  emit_nodes b from_words node_ids = (ls, ids') →
  ids_ok node_ids →
  ids_ok ids' ∧ node_ids ⊆ ids'
  ∧ (∀ x, x ∈ dom ids' ↔
          x ∈ dom node_ids ∨ x ∈ from_words
          ∨ ∃ k, k ∈ from_words ∧ x ∈ successors_of b k)
  ∧ ls = from_words ≫= block b ids'.
Proof.
  revert node_ids ids' ls.
  induction from_words as [|k ks IH]; intros ids ids' ls; cbn [emit_nodes].
  - intros [= <- <-] Hok. split_and!; [done | done | | done].
    intros x. split; [by left |]. intros [?|[?%elem_of_nil|(? & ?%elem_of_nil & _)]]; done.
  - destruct (get_node_id k ids) as [n ids1] eqn:Hg. cbn [fst snd].
    fold (successors_of b k).
    destruct (emit_successors n (weight_of (successors_of b k))
                (sorted (elements (successors_of b k))) ids1) as [ls1 ids2] eqn:He.
    cbn [fst snd].
    destruct (emit_nodes b ks ids2) as [ls3 ids3] eqn:Hn. cbn [fst snd].
    intros [= <- <-] Hok.
    destruct (get_node_id_spec _ _ _ _ Hg Hok) as (Hok1 & Hsub1 & Hl1 & Hd1).
    destruct (emit_successors_spec _ _ _ _ _ _ He Hok1) as (Hok2 & Hsub2 & Hd2 & Hls1).
    destruct (IH _ _ _ Hn Hok2) as (Hok3 & Hsub3 & Hd3 & Hls3).
    assert (Hdom2 : ∀ x, x ∈ dom ids2 ↔
              x ∈ dom ids ∨ x = k ∨ x ∈ successors_of b k).
    { intros x. rewrite Hd2, Hd1, !elem_of_union, elem_of_singleton,
        elem_of_list_to_set, elem_of_sorted, elem_of_elements. tauto. }
    split_and!.
    + done.
    + etrans; [done |]. by etrans.
    + intros x. rewrite Hd3, Hdom2. split.
      * intros [[?|[->|?]]|[?|(k' & ? & ?)]].
        -- by left.
        -- right; left; left.
        -- right; right. exists k. split; [left | done].
        -- right; left. by right.
        -- right; right. exists k'. split; [by right | done].
      * intros [?|[[->|?]%elem_of_cons|(k' & [->|?]%elem_of_cons & ?)]]; eauto 6.
    + rewrite bind_cons. f_equal; [| done].
      rewrite Hls1. unfold block.
      rewrite (node_lookup ids3 k n)
        by (eapply lookup_weaken; [| done]; by eapply lookup_weaken).
      apply map_ext_in. intros t Hin.
      rewrite (node_mono ids2 ids3 t); [done | done |].
      apply Hdom2. right; right.
      by apply list_elem_of_In, elem_of_sorted, elem_of_elements in Hin.
Qed.

(** What [emit] writes: the blocks of the keys in sorted order under one
    numbering of all the words of the dict. *)
Lemma emit_spec (b : gmap string (gset string)) :
  ∃ ids, ids_ok ids
    ∧ (∀ x, x ∈ dom ids ↔ x ∈ dom b ∨ ∃ k, x ∈ successors_of b k)
    ∧ emit b = FstText (sorted (elements (dom b)) ≫= block b ids) (size ids).
Proof.
  unfold emit.
  destruct (emit_nodes b (sorted (elements (dom b))) ∅) as [ls ids] eqn:He.
  destruct (emit_nodes_spec _ _ _ _ _ He ids_ok_empty) as (Hok & _ & Hd & Hls).
  exists ids. split_and!; [done | | by rewrite Hls].
  intros x. rewrite Hd, dom_empty_L. setoid_rewrite elem_of_sorted.
  setoid_rewrite elem_of_elements. split.
  - intros [[]%not_elem_of_empty|[?|(k & _ & ?)]]; eauto.
  - intros [?|[k Hk]]; [by right; left |].
    right; right. exists k. split; [| done].
    unfold successors_of in Hk. destruct (b !! k) eqn:Hbk; [| set_solver].
    by eapply elem_of_dom_2.
Qed.

(** ** The dict of successors *)

Lemma setdefault_add_add_succs (k v : string) (b : gmap string (gset string)) :
  setdefault_add k v b = add_succs k {[v]} b.
Proof. done. Qed.

Lemma getitem_add_add_succs (k v : string) (b : gmap string (gset string)) :
  k ∈ dom b → getitem_add k v b = Some (add_succs k {[v]} b).
Proof.
  intros [s Hs]%elem_of_dom. unfold getitem_add, add_succs, successors_of.
  by rewrite Hs.
Qed.

Lemma getitem_update_add_succs (k : string) (vs : list string)
    (b : gmap string (gset string)) :
  k ∈ dom b → getitem_update k vs b = Some (add_succs k (list_to_set vs) b).
Proof.
  intros [s Hs]%elem_of_dom. unfold getitem_update, add_succs, successors_of.
  by rewrite Hs.
Qed.

Lemma dom_add_succs (k : string) (X : gset string) (b : gmap string (gset string)) :
  dom (add_succs k X b) = dom b ∪ {[k]}.
Proof. unfold add_succs. rewrite dom_insert_L. set_solver. Qed.

Lemma succ_in_successors_of (b : gmap string (gset string)) (w1 w2 : string) :
  succ_in b w1 w2 ↔ w2 ∈ successors_of b w1.
Proof.
  unfold succ_in, successors_of. destruct (b !! w1) as [s|]; simpl.
  - split; [by intros (? & [= ->] & ?) | eauto].
  - split; [by intros (? & [=] & ?) | set_solver].
Qed.

Lemma successors_of_add_succs (k k' : string) (X : gset string)
    (b : gmap string (gset string)) :
  successors_of (add_succs k X b) k'
  = if decide (k = k') then successors_of b k ∪ X else successors_of b k'.
Proof.
  unfold add_succs. unfold successors_of at 1. rewrite lookup_insert.
  by case_decide; subst.
Qed.

Lemma succ_in_add_succs (k : string) (X : gset string) (b : gmap string (gset string))
    (w1 w2 : string) :
  succ_in (add_succs k X b) w1 w2 ↔ succ_in b w1 w2 ∨ (w1 = k ∧ w2 ∈ X).
Proof.
  rewrite !succ_in_successors_of, successors_of_add_succs.
  case_decide; subst; set_solver.
Qed.

Lemma bigrams_ok_add_succs (pending pending' : gset string) (k : string)
    (X : gset string) (b : gmap string (gset string)) :
  bigrams_ok pending b →
  k ∈ dom b ∨ X ≠ ∅ →
  k ∈ dom b ∪ pending →
  X ⊆ dom b ∪ {[k]} ∪ pending' →
  pending ⊆ dom b ∪ {[k]} ∪ pending' →
  pending' ⊆ dom b ∪ pending ∪ X →
  bigrams_ok pending' (add_succs k X b).
Proof.
  intros [Hoov Hne Hcl Hre] Hk1 Hk2 HX Hp Hp'. split.
  - rewrite dom_add_succs. set_solver.
  - intros k' s. unfold add_succs. rewrite lookup_insert. case_decide.
    + intros [= <-]. unfold successors_of.
      destruct Hk1 as [[s Hs]%elem_of_dom|HX0].
      * rewrite Hs; simpl. apply Hne in Hs. set_solver.
      * set_solver.
    + apply Hne.
  - intros k' s. rewrite dom_add_succs. unfold add_succs.
    rewrite lookup_insert. case_decide.
    + intros [= <-]. unfold successors_of.
      destruct (b !! k) as [s|] eqn:Hs; simpl; [apply Hcl in Hs |]; set_solver.
    + intros Hs%Hcl. set_solver.
  - intros x. rewrite dom_add_succs. setoid_rewrite succ_in_add_succs.
    intros Hx.
    destruct (decide (x ∈ dom b ∪ pending)) as [Hin|Hout].
    + destruct (Hre x Hin) as [k0 ?]. eauto.
    + destruct (decide (x = k)) as [->|]; [done |].
      exists k. right. split; [done |]. set_solver.
Qed.

Lemma bigrams_ok_pending (pending pending' : gset string)
    (b : gmap string (gset string)) :
  bigrams_ok pending b →
  pending ⊆ dom b ∪ pending' →
  pending' ⊆ dom b ∪ pending →
  bigrams_ok pending' b.
Proof.
  intros [Hoov Hne Hcl Hre] Hp Hp'. split; [done | done | |].
  - intros k s Hs%Hcl. set_solver.
  - intros x Hx. apply Hre. set_solver.
Qed.

(** The loop of lines 51-53 over the disfluencies *)
Lemma start_dis_loop (first : string) (pending : gset string) (ds : list string) :
  first ∈ pending → list_to_set ds ⊆ pending →
  ∀ b, bigrams_ok pending b →
  ∃ b', for_each (start_dis first) ds b = Some b'
        ∧ bigrams_ok pending b' ∧ dom b ⊆ dom b' ∧ list_to_set ds ⊆ dom b'.
Proof.
  intros Hfirst. induction ds as [|d ds IH]; intros Hds b Hok; cbn [for_each].
  - exists b. split_and!; [done | done | done | set_solver].
  - unfold start_dis at 1. rewrite setdefault_add_add_succs.
    assert (Hok1 : bigrams_ok pending (add_succs d {[first]} b)).
    { apply (bigrams_ok_add_succs pending); [done | set_solver ..]. }
    rewrite getitem_add_add_succs by (rewrite dom_add_succs; set_solver).
    assert (Hok2 : bigrams_ok pending
                     (add_succs d {[OOV_TERM]} (add_succs d {[first]} b))).
    { pose proof (ok_oov _ _ Hok1).
      pose proof (dom_add_succs d {[first]} b).
      apply (bigrams_ok_add_succs pending); [done | set_solver ..]. }
    destruct (IH ltac:(set_solver) _ Hok2) as (b' & -> & Hok' & Hdom & Hds').
    exists b'. split_and!; [done | done | |].
    + rewrite !dom_add_succs in Hdom. set_solver.
    + rewrite !dom_add_succs in Hdom. set_solver.
Qed.

(** The loop of lines 64-65 over the disfluencies *)
Lemma word_dis_loop (word : string) (ds : list string) :
  ∀ b, bigrams_ok {[word]} b → list_to_set ds ⊆ dom b →
  ∃ b', for_each (λ dis, getitem_add dis word) ds b = Some b'
        ∧ bigrams_ok {[word]} b' ∧ dom b' = dom b.
Proof.
  induction ds as [|d ds IH]; intros b Hok Hds; cbn [for_each].
  - by exists b.
  - rewrite getitem_add_add_succs by set_solver.
    assert (Hd : dom (add_succs d {[word]} b) = dom b)
      by (rewrite dom_add_succs; set_solver).
    destruct (IH (add_succs d {[word]} b)) as (b' & -> & Hok' & Hdom).
    + apply (bigrams_ok_add_succs {[word]}); [done | set_solver ..].
    + rewrite Hd. set_solver.
    + exists b'. split_and!; [done | done | congruence].
Qed.

(** One turn of the loop over [word_sequence[1:]]: no [KeyError], and the
    invariant moves from [prev_word] to [word]. *)
Lemma step_word_ok (kw : kwargs) (word prev : string) (b : gmap string (gset string)) :
  bigrams_ok {[prev]} b →
  (disfluency kw = true → list_to_set (disfluencies kw) ⊆ dom b) →
  ∃ b', step_word kw word (b, prev) = Some (b', word)
        ∧ bigrams_ok {[word]} b'
        ∧ dom b' = dom b ∪ {[prev]}.
Proof.
  intros Hok Hdis. unfold step_word; cbn [fst snd].
  rewrite setdefault_add_add_succs.
  assert (Hok1 : bigrams_ok {[word]} (add_succs prev {[word]} b)).
  { apply (bigrams_ok_add_succs {[prev]}); [done | set_solver ..]. }
  assert (Hd1 := dom_add_succs prev {[word]} b).
  assert (∃ b2, (if conservative kw
                 then getitem_add prev OOV_TERM (add_succs prev {[word]} b)
                 else Some (add_succs prev {[word]} b)) = Some b2
                ∧ bigrams_ok {[word]} b2 ∧ dom b2 = dom b ∪ {[prev]})
    as (b2 & -> & Hok2 & Hd2).
  { destruct (conservative kw); [| eauto].
    rewrite getitem_add_add_succs by set_solver.
    eexists; split_and!; [done | |].
    - pose proof (ok_oov _ _ Hok).
      apply (bigrams_ok_add_succs {[word]}); [done | set_solver ..].
    - rewrite dom_add_succs. set_solver. }
  destruct (disfluency kw) eqn:Hflag; [| eauto].
  rewrite getitem_update_add_succs by set_solver.
  specialize (Hdis eq_refl).
  destruct (word_dis_loop word (disfluencies kw)
              (add_succs prev (list_to_set (disfluencies kw)) b2))
    as (b4 & -> & Hok4 & Hd4).
  - apply (bigrams_ok_add_succs {[word]}); [done | set_solver ..].
  - rewrite dom_add_succs. set_solver.
  - exists b4. split_and!; [done | done |].
    rewrite Hd4, dom_add_succs. set_solver.
Qed.

Lemma walk_words_ok (kw : kwargs) (rest : list string) :
  ∀ prev b, bigrams_ok {[prev]} b →
  (disfluency kw = true → list_to_set (disfluencies kw) ⊆ dom b) →
  ∃ b', for_each (step_word kw) rest (b, prev) = Some (b', default prev (last rest))
        ∧ bigrams_ok {[default prev (last rest)]} b'.
Proof.
  induction rest as [|word rest IH]; intros prev b Hok Hdis; cbn [for_each].
  - by exists b.
  - destruct (step_word_ok kw word prev b Hok Hdis) as (b1 & -> & Hok1 & Hd1).
    destruct (IH word b1 Hok1) as (b' & Hb' & Hok').
    { intros Hflag. rewrite Hd1. specialize (Hdis Hflag). set_solver. }
    exists b'. rewrite Hb'.
    replace (default prev (last (word :: rest))) with (default word (last rest)).
    + done.
    + rewrite last_cons. by destruct (last rest).
Qed.

(** One turn of the loop over the sequences never raises and keeps the
    dict closed. *)
Lemma step_sequence_ok (kw : kwargs) (word_sequence : list string)
    (b : gmap string (gset string)) :
  bigrams_ok ∅ b →
  ∃ b', step_sequence kw word_sequence b = Some b' ∧ bigrams_ok ∅ b'.
Proof.
  intros Hok. destruct word_sequence as [|first rest]; cbn [step_sequence].
  - by exists b.
  - pose proof (ok_oov _ _ Hok) as Hoov.
    rewrite getitem_add_add_succs by done.
    assert (Hok1 : bigrams_ok {[first]} (add_succs OOV_TERM {[first]} b)).
    { apply (bigrams_ok_add_succs ∅); [done | set_solver ..]. }
    assert (∃ b3, (if disfluency kw
                   then match getitem_update OOV_TERM (disfluencies kw)
                                (add_succs OOV_TERM {[first]} b) with
                        | Some b2 => for_each (start_dis first) (disfluencies kw) b2
                        | None => None
                        end
                   else Some (add_succs OOV_TERM {[first]} b)) = Some b3
                  ∧ bigrams_ok {[first]} b3
                  ∧ (disfluency kw = true → list_to_set (disfluencies kw) ⊆ dom b3))
      as (b3 & -> & Hok3 & Hdis3).
    { destruct (disfluency kw); [| eexists; split_and!; done].
      rewrite getitem_update_add_succs by (rewrite dom_add_succs; set_solver).
      set (D := list_to_set (disfluencies kw) : gset string).
      destruct (start_dis_loop first ({[first]} ∪ D) (disfluencies kw)
                  ltac:(set_solver) ltac:(set_solver)
                  (add_succs OOV_TERM D (add_succs OOV_TERM {[first]} b)))
        as (b3 & -> & Hok3 & Hdom3 & HD3).
      - apply (bigrams_ok_add_succs {[first]}); [done | | set_solver ..].
        left. rewrite dom_add_succs. set_solver.
      - exists b3. split_and!; [done | | done].
        apply (bigrams_ok_pending ({[first]} ∪ D)); [done | set_solver ..]. }
    destruct (walk_words_ok kw rest first b3 Hok3 Hdis3) as (b' & -> & Hok').
    cbn [fst snd]. eexists; split; [done |].
    rewrite setdefault_add_add_succs.
    pose proof (ok_oov _ _ Hok').
    apply (bigrams_ok_add_succs {[default first (last rest)]}); [done | set_solver ..].
Qed.

Lemma bigrams_ok_init : bigrams_ok ∅ {[ OOV_TERM := {[ OOV_TERM ]} ]}.
Proof.
  split.
  - rewrite dom_singleton_L. set_solver.
  - intros k s [<- <-]%lookup_singleton_Some. set_solver.
  - intros k s [<- <-]%lookup_singleton_Some. rewrite dom_singleton_L. set_solver.
  - intros k. rewrite dom_singleton_L. intros Hk. exists OOV_TERM, {[OOV_TERM]}.
    rewrite lookup_singleton_eq. set_solver.
Qed.

(** The builder never raises a [KeyError], whatever the flags, and in the
    dict it builds every key has a successor, every successor is a key and
    every key is the successor of some key. *)
Lemma build_bigrams_ok (kw : kwargs) (seqs : list (list string)) :
  ∃ b, build_bigrams kw seqs = Some b ∧ bigrams_ok ∅ b.
Proof.
  unfold build_bigrams.
  apply (for_each_invariant (bigrams_ok ∅)); [apply bigrams_ok_init |].
  intros seq b _ Hok. by apply step_sequence_ok.
Qed.

(** ** The arcs that leave a node *)

Lemma filter_block (b : gmap string (gset string)) (ids : gmap string nat)
    (k : string) (n : nat) :
  filter (λ l, from_id l = n) (block b ids k)
  = if decide (node ids k = n) then block b ids k else [].
Proof.
  unfold block. induction (sorted (elements (successors_of b k))) as [|t ts IH].
  - by case_decide.
  - cbn [map]. rewrite filter_cons. cbn [from_id]. rewrite IH.
    by repeat case_decide.
Qed.

Lemma filter_blocks (b : gmap string (gset string)) (ids : gmap string nat)
    (keys : list string) (k : string) :
  NoDup keys → k ∈ keys →
  (∀ k', k' ∈ keys → node ids k' = node ids k → k' = k) →
  filter (λ l, from_id l = node ids k) (keys ≫= block b ids) = block b ids k.
Proof.
  induction keys as [|k' keys IH]; intros Hnd Hk Hinj.
  - by apply elem_of_nil in Hk.
  - apply NoDup_cons in Hnd as [Hk' Hnd].
    rewrite bind_cons, filter_app, filter_block.
    destruct (decide (k' = k)) as [->|Hne].
    + rewrite decide_True by done.
      assert (filter (λ l, from_id l = node ids k) (keys ≫= block b ids) = [])
        as ->; [| by rewrite app_nil_r].
      clear IH Hk. induction keys as [|k2 keys IH2]; [done |].
      rewrite bind_cons, filter_app, filter_block.
      rewrite decide_False.
      * apply IH2; [set_solver | by apply NoDup_cons in Hnd as [??] |].
        intros k3 Hk3. apply Hinj. set_solver.
      * intros Heq. apply Hk'. rewrite <- (Hinj k2); [set_solver | set_solver | done].
    + rewrite decide_False by (intros Heq; apply Hne, Hinj; [by left | done]).
      apply IH; [done | set_solver |].
      intros k3 Hk3. apply Hinj. by right.
Qed.

Lemma length_block (b : gmap string (gset string)) (ids : gmap string nat) (k : string) :
  length (block b ids k) = size (successors_of b k).
Proof. unfold block. by rewrite length_map, length_sorted. Qed.

Lemma block_weight (b : gmap string (gset string)) (ids : gmap string nat) (k : string) :
  Forall (λ l, arc_weight l = weight_of (successors_of b k)) (block b ids k).
Proof.
  unfold block. induction (sorted (elements (successors_of b k))); by constructor.
Qed.

(** [n] arcs of weight [-ln(1/N)] carry the mass [n/N]. *)
Lemma mass_uniform (N : nat) (ls : list line) :
  0 < N →
  Forall (λ l, arc_weight l = NegLogRecip N) ls →
  mass ls = (INR (length ls) * (1 / INR N))%R.
Proof.
  intros HN. induction 1 as [|l ls Hl _ IH].
  - simpl. lra.
  - cbn [mass foldr]. fold (mass ls). rewrite IH, Hl. cbn [weight_value].
    rewrite Ropp_involutive, exp_ln.
    + change (length (l :: ls)) with (S (length ls)). rewrite S_INR. lra.
    + apply Rdiv_lt_0_compat; [lra |]. apply lt_0_INR. lia.
Qed.

Lemma mass_uniform_full (N : nat) (ls : list line) :
  0 < N → length ls = N →
  Forall (λ l, arc_weight l = NegLogRecip N) ls →
  mass ls = 1%R.
Proof.
  intros HN Hlen Hall. rewrite (mass_uniform N) by done. rewrite Hlen.
  field. apply not_0_INR. lia.
Qed.

(** ** The bigram transducer as a whole *)

Lemma node_inj (ids : gmap string nat) (w1 w2 : string) :
  ids_ok ids → w1 ∈ dom ids → w2 ∈ dom ids → node ids w1 = node ids w2 → w1 = w2.
Proof.
  intros Hok [n1 H1]%elem_of_dom [n2 H2]%elem_of_dom.
  rewrite (node_lookup _ _ _ H1), (node_lookup _ _ _ H2). intros <-.
  by eapply ids_inj.
Qed.

(** The shape of every result of the builder: it returns, and what it
    returns are the blocks of the keys of a closed dict, in sorted order,
    under a numbering of exactly these keys. *)
Lemma bigram_fst_spec (a : word_sequences) (kw : kwargs) :
  ∃ b ids,
    build_bigrams kw (normalize a) = Some b
    ∧ bigrams_ok ∅ b ∧ ids_ok ids ∧ dom ids = dom b
    ∧ bigram_fst a kw
      = Some (FstText (sorted (elements (dom b)) ≫= block b ids) (size ids)).
Proof.
  destruct (build_bigrams_ok kw (normalize a)) as (b & Hb & Hok).
  destruct (emit_spec b) as (ids & Hids & Hdom & Hemit).
  exists b, ids. split_and!; [done | done | done | |].
  - apply set_eq. intros x. rewrite Hdom. split; [| by left].
    intros [?|[k Hk]]; [done |].
    unfold successors_of in Hk. destruct (b !! k) as [s|] eqn:Hs; [| set_solver].
    apply (ok_closed _ _ Hok) in Hs. set_solver.
  - unfold bigram_fst. by rewrite Hb, Hemit.
Qed.

Lemma elem_of_arcs (b : gmap string (gset string)) (ids : gmap string nat) (l : line) :
  l ∈ sorted (elements (dom b)) ≫= block b ids ↔
  ∃ k t, succ_in b k t
         ∧ l = Line (node ids k) (node ids t) t t (weight_of (successors_of b k)).
Proof.
  rewrite list_elem_of_bind. unfold block. split.
  - intros (k & Hl & Hk). apply list_elem_of_In, in_map_iff in Hl as (t & <- & Ht).
    apply list_elem_of_In, elem_of_sorted, elem_of_elements in Ht.
    exists k, t. split; [| done]. by apply succ_in_successors_of.
  - intros (k & t & Hkt & ->). exists k. split.
    + apply list_elem_of_In, in_map_iff. exists t. split; [done |].
      apply list_elem_of_In, elem_of_sorted, elem_of_elements.
      by apply succ_in_successors_of.
    + apply elem_of_sorted, elem_of_elements.
      destruct Hkt as (s & Hs & _). by eapply elem_of_dom_2.
Qed.

(** The arcs that leave the node of a key are the block of the key. *)
Lemma out_arcs_block (b : gmap string (gset string)) (ids : gmap string nat)
    (k : string) (n : nat) :
  ids_ok ids → dom ids = dom b → k ∈ dom b →
  out_arcs (FstText (sorted (elements (dom b)) ≫= block b ids) n) (node ids k)
  = block b ids k.
Proof.
  intros Hids Hdom Hk. unfold out_arcs; cbn [arcs].
  apply filter_blocks.
  - apply NoDup_sorted, NoDup_elements.
  - by apply elem_of_sorted, elem_of_elements.
  - intros k' Hk'%elem_of_sorted%elem_of_elements. apply node_inj; [done | |];
      by rewrite Hdom.
Qed.

(** C6. For every input and every combination of the flags the bigram
    builder returns, and in what it returns every node, from 1 to the node
    of the final line, has at least one outgoing arc; each of its [N]
    outgoing arcs carries the weight [-ln(1/N)], so that the sum of
    [exp(-weight)] over them is 1.  The weight of a word without successors
    would be 0.  Weights are read as real numbers: the rounding of
    [math.log] is outside the model. *)
Theorem bigram_outgoing_mass_is_one (a : word_sequences) (kw : kwargs) :
  weight_value (weight_of ∅) = 0%R
  ∧ ∃ t, bigram_fst a kw = Some t
      ∧ ∀ n, 1 ≤ n ≤ final_node t →
          0 < length (out_arcs t n)
          ∧ Forall (λ l, arc_weight l = NegLogRecip (length (out_arcs t n)))
                   (out_arcs t n)
          ∧ mass (out_arcs t n) = 1%R.
Proof.
  split; [done |].
  destruct (bigram_fst_spec a kw) as (b & ids & _ & Hok & Hids & Hdom & ->).
  eexists; split; [done |]. cbn [final_node]. intros n Hn.
  destruct (ids_onto _ Hids n Hn) as [k Hk].
  assert (Hkb : k ∈ dom b) by (rewrite <- Hdom; by eapply elem_of_dom_2).
  rewrite <- (node_lookup _ _ _ Hk), out_arcs_block by done.
  assert (Hsize : 0 < size (successors_of b k)).
  { apply elem_of_dom in Hkb as [s Hs]. unfold successors_of. rewrite Hs; simpl.
    apply (ok_nonempty _ _ Hok) in Hs.
    destruct (decide (size s = 0)) as [Hz%size_empty_inv|]; [| lia].
    by apply leibniz_equiv in Hz. }
  assert (Hw : Forall (λ l, arc_weight l = NegLogRecip (length (block b ids k)))
                      (block b ids k)).
  { rewrite length_block. eapply Forall_impl; [apply block_weight |].
    intros l ->. unfold weight_of. by rewrite bool_decide_eq_true_2. }
  split_and!; [by rewrite length_block | done |].
  eapply mass_uniform_full; [| done | done]. by rewrite length_block.
Qed.

(** ** The dict without the options *)

Section NoOptions.

Variable kw : kwargs.
Hypothesis Hcons : conservative kw = false.
Hypothesis Hdis : disfluency kw = false.

Lemma step_word_plain (word prev : string) (b : gmap string (gset string)) :
  step_word kw word (b, prev) = Some (add_succs prev {[word]} b, word).
Proof. unfold step_word. by rewrite Hcons, Hdis. Qed.

Lemma walk_words_plain (rest : list string) :
  ∀ prev b, ∃ b',
    for_each (step_word kw) rest (b, prev) = Some (b', default prev (last rest))
    ∧ dom b ⊆ dom b'
    ∧ ∀ w1 w2, succ_in b' w1 w2 ↔
        succ_in b w1 w2
        ∨ ∃ i, (prev :: rest) !! i = Some w1 ∧ (prev :: rest) !! S i = Some w2.
Proof.
  induction rest as [|word rest IH]; intros prev b; cbn [for_each].
  - exists b. split_and!; [done | done |]. intros w1 w2. split; [by left |].
    intros [?|(i & H1 & H2)]; [done |]. by destruct i.
  - rewrite step_word_plain.
    destruct (IH word (add_succs prev {[word]} b)) as (b' & -> & Hdom & Hrel).
    exists b'. split_and!.
    + rewrite last_cons. by destruct (last rest).
    + rewrite dom_add_succs in Hdom. set_solver.
    + intros w1 w2. rewrite Hrel, succ_in_add_succs, elem_of_singleton. split.
      * intros [[?|[-> ->]]|(i & H1 & H2)]; [by left | |].
        -- right. by exists 0.
        -- right. by exists (S i).
      * intros [?|(i & H1 & H2)]; [by left; left |].
        destruct i as [|i]; simplify_eq/=; [by left; right |].
        right. by exists i.
Qed.

Lemma step_sequence_plain (seq : list string) (b : gmap string (gset string)) :
  OOV_TERM ∈ dom b →
  ∃ b', step_sequence kw seq b = Some b' ∧ dom b ⊆ dom b'
    ∧ ∀ w1 w2, succ_in b' w1 w2 ↔ succ_in b w1 w2 ∨ seq_successor seq w1 w2.
Proof.
  intros Hoov. destruct seq as [|first rest]; cbn [step_sequence].
  - exists b. split_and!; [done | done |]. intros w1 w2. split; [by left |].
    intros [?|[[_ [=]]|[(i & [=] & _)|[[=] _]]]]. done.
  - rewrite getitem_add_add_succs, Hdis by done.
    destruct (walk_words_plain rest first (add_succs OOV_TERM {[first]} b))
      as (b' & -> & Hdom & Hrel).
    cbn [fst snd]. eexists. split_and!; [done | |].
    + rewrite setdefault_add_add_succs, dom_add_succs.
      rewrite dom_add_succs in Hdom. set_solver.
    + intros w1 w2. rewrite setdefault_add_add_succs, succ_in_add_succs, Hrel,
        succ_in_add_succs, !elem_of_singleton.
      unfold seq_successor. cbn [head].
      assert (Hlast : last (first :: rest) = Some (default first (last rest))).
      { rewrite last_cons. by destruct (last rest). }
      rewrite Hlast. split.
      * intros [[[?|[-> ->]]|?]|[-> ->]]; eauto 6.
      * intros [?|[[-> [= ->]]|[?|[[= ->] ->]]]]; eauto 6.
Qed.

Lemma build_plain (seqs : list (list string)) :
  ∀ b, OOV_TERM ∈ dom b →
  ∃ b', for_each (step_sequence kw) seqs b = Some b'
    ∧ ∀ w1 w2, succ_in b' w1 w2 ↔
        succ_in b w1 w2 ∨ ∃ seq, seq ∈ seqs ∧ seq_successor seq w1 w2.
Proof.
  induction seqs as [|seq seqs IH]; intros b Hoov; cbn [for_each].
  - exists b. split; [done |]. intros w1 w2. split; [by left |].
    intros [?|(? & ?%elem_of_nil & _)]; done.
  - destruct (step_sequence_plain seq b Hoov) as (b1 & -> & Hdom & Hrel1).
    destruct (IH b1 ltac:(set_solver)) as (b' & -> & Hrel).
    exists b'. split; [done |]. intros w1 w2. rewrite Hrel, Hrel1. split.
    + intros [[?|?]|(seq' & ? & ?)]; [by left | |].
      * right. exists seq. split; [left | done].
      * right. exists seq'. split; [by right | done].
    + intros [?|(seq' & [->|?]%elem_of_cons & ?)]; eauto.
Qed.

(** Without the options the dict is the successor relation of the
    specification. *)
Lemma build_bigrams_plain (seqs : list (list string)) :
  ∃ b, build_bigrams kw (normalize (Nested seqs)) = Some b
    ∧ ∀ w1 w2, succ_in b w1 w2 ↔ Spec.successor seqs w1 w2.
Proof.
  unfold build_bigrams.
  destruct (build_plain (normalize (Nested seqs)) {[ OOV_TERM := {[ OOV_TERM ]} ]})
    as (b & -> & Hrel).
  { rewrite dom_singleton_L. set_solver. }
  exists b. split; [done |]. intros w1 w2. rewrite Hrel.
  assert (Hseed : succ_in {[ OOV_TERM := {[ OOV_TERM ]} ]} w1 w2
                  ↔ w1 = OOV_TERM ∧ w2 = OOV_TERM).
  { unfold succ_in. split.
    - intros (s & [<- <-]%lookup_singleton_Some & ?). set_solver.
    - intros [-> ->]. exists {[OOV_TERM]}. rewrite lookup_singleton_eq. set_solver. }
  assert (Hnorm : (∃ seq, seq ∈ normalize (Nested seqs) ∧ seq_successor seq w1 w2)
                  ↔ ∃ seq, seq ∈ seqs ∧ seq_successor seq w1 w2).
  { destruct seqs as [|s0 seqs]; [| done].
    change (normalize (Nested [])) with [[] : list string]. split.
    - intros (seq & ->%list_elem_of_singleton & [[_ [=]]|[(i & [=] & _)|[[=] _]]]).
    - intros (? & ?%elem_of_nil & _). done. }
  rewrite Hseed, Hnorm. unfold seq_successor. split.
  - intros [[-> ->]|(seq & Hin & [[-> ?]|[(i & ? & ?)|[? ->]]])].
    + constructor.
    + by eapply Spec.successor_first.
    + by eapply Spec.successor_pair.
    + by eapply Spec.successor_last.
  - intros [| seq w Hin Hw | seq i p w Hin Hp Hw | seq w Hin Hw]; [by left |..];
      right; exists seq; eauto 8.
Qed.

End NoOptions.

(** ** Reading the transducer back *)

Lemma omap_bind_map {K A B C : Type} (f : B → option C) (h : K → A → B)
    (g : K → A → C) (src : K → list A) (keys : list K) :
  (∀ k a, k ∈ keys → a ∈ src k → f (h k a) = Some (g k a)) →
  omap f (keys ≫= λ k, map (h k) (src k)) = keys ≫= λ k, map (g k) (src k).
Proof.
  induction keys as [|k keys IH]; intros Hf; [done |].
  rewrite !bind_cons, omap_app, IH by (intros; apply Hf; [by right | done]).
  f_equal. assert (Hk : ∀ a, a ∈ src k → f (h k a) = Some (g k a))
    by (intros; apply Hf; [by left | done]).
  induction (src k) as [|a l IHl]; [done |].
  cbn [map omap list_omap]. rewrite Hk by left. f_equal.
  apply IHl. intros. apply Hk. by right.
Qed.

Lemma length_bind_map {K A B C : Type} (h : K → A → B) (g : K → A → C)
    (src : K → list A) (keys : list K) :
  length (keys ≫= λ k, map (g k) (src k)) = length (keys ≫= λ k, map (h k) (src k)).
Proof.
  induction keys as [|k keys IH]; [done |].
  by rewrite !bind_cons, !length_app, !length_map, IH.
Qed.

Lemma elem_of_adjacency_of (b : gmap string (gset string)) (w1 w2 : string) :
  (w1, w2) ∈ adjacency_of b ↔ succ_in b w1 w2.
Proof.
  unfold adjacency_of. rewrite list_elem_of_bind. split.
  - intros (k & Hin & _). apply list_elem_of_In, in_map_iff in Hin as (t & [= <- <-] & Ht).
    apply list_elem_of_In, elem_of_sorted, elem_of_elements in Ht.
    by apply succ_in_successors_of.
  - intros Hs. exists w1. split.
    + apply list_elem_of_In, in_map_iff. exists w2. split; [done |].
      apply list_elem_of_In, elem_of_sorted, elem_of_elements.
      by apply succ_in_successors_of.
    + apply elem_of_sorted, elem_of_elements.
      destruct Hs as (s & Hs & _). by eapply elem_of_dom_2.
Qed.

Lemma NoDup_adjacency_of (b : gmap string (gset string)) : NoDup (adjacency_of b).
Proof.
  unfold adjacency_of.
  assert (Hnd : NoDup (sorted (elements (dom b)))) by apply NoDup_sorted, NoDup_elements.
  induction Hnd as [|k keys Hk Hnd IH]; [constructor |].
  rewrite bind_cons. apply NoDup_app. split_and!; [| | done].
  - apply NoDup_ListNoDup, Finite.Injective_map_NoDup.
    + by intros t1 t2 [=].
    + apply NoDup_ListNoDup, NoDup_sorted, NoDup_elements.
  - intros [k1 t1] Hin1 Hin2.
    apply list_elem_of_In, in_map_iff in Hin1 as (t & [= <- <-] & _).
    apply list_elem_of_bind in Hin2 as (k2 & Hin2 & Hk2).
    apply list_elem_of_In, in_map_iff in Hin2 as (t' & [= <- <-] & _). done.
Qed.

(** In a transducer written by [emit] the first arc into the node of a
    key carries the key. *)
Lemma label_of_node (b : gmap string (gset string)) (ids : gmap string nat)
    (k : string) :
  bigrams_ok ∅ b → ids_ok ids → dom ids = dom b → k ∈ dom b →
  label_of (sorted (elements (dom b)) ≫= block b ids) (node ids k) = Some k.
Proof.
  intros Hok Hids Hdom Hk. unfold label_of.
  destruct (ok_reached _ _ Hok k ltac:(set_solver)) as [k0 Hk0].
  destruct (list_find (λ l, to_id l = node ids k)
              (sorted (elements (dom b)) ≫= block b ids)) as [[i l]|] eqn:Hfind.
  - apply list_find_Some in Hfind as (Hl%list_elem_of_lookup_2 & Hto & _).
    apply elem_of_arcs in Hl as (k1 & t & Hkt & ->). cbn in *. f_equal.
    apply (node_inj ids); [done | | by rewrite Hdom | done].
    rewrite Hdom. destruct Hkt as (s & Hs & Ht).
    apply (ok_closed _ _ Hok) in Hs. set_solver.
  - exfalso. eapply list_find_None in Hfind. rewrite Forall_forall in Hfind.
    eapply (Hfind (Line (node ids k0) (node ids k) k k (weight_of (successors_of b k0)))).
    + apply elem_of_arcs. eauto.
    + done.
Qed.

(** The relation read back from what [emit] wrote is the dict. *)
Lemma parse_adjacency_emit (b : gmap string (gset string)) (ids : gmap string nat)
    (n : nat) :
  bigrams_ok ∅ b → ids_ok ids → dom ids = dom b →
  parse_adjacency (FstText (sorted (elements (dom b)) ≫= block b ids) n)
  = adjacency_of b.
Proof.
  intros Hok Hids Hdom. unfold parse_adjacency, adjacency_of; cbn [arcs].
  set (ls := sorted (elements (dom b)) ≫= block b ids). unfold block in ls.
  subst ls.
  apply (omap_bind_map _
           (λ k t, Line (node ids k) (node ids t) t t (weight_of (successors_of b k)))
           pair (λ k, sorted (elements (successors_of b k)))).
  intros k t Hk%elem_of_sorted%elem_of_elements _. cbn [from_id ilabel].
  fold (block b ids). by rewrite label_of_node.
Qed.

(** Before the text is rendered: without the conservative and disfluency
    options, the arcs of the transducer, taken as pairs of words, are
    exactly the successor relation of the design.  No arc is lost and no
    pair comes twice. *)
Lemma bigram_arcs_are_successor_relation (seqs : list (list string))
    (kw : kwargs) :
  conservative kw = false → disfluency kw = false →
  ∃ t, bigram_fst (Nested seqs) kw = Some t
    ∧ length (parse_adjacency t) = length (arcs t)
    ∧ NoDup (parse_adjacency t)
    ∧ ∀ w1 w2, (w1, w2) ∈ parse_adjacency t ↔ Spec.successor seqs w1 w2.
Proof.
  intros Hcons Hdis.
  destruct (bigram_fst_spec (Nested seqs) kw)
    as (b & ids & Hb & Hok & Hids & Hdom & ->).
  destruct (build_bigrams_plain kw Hcons Hdis seqs) as (b' & Hb' & Hrel).
  assert (b' = b) as -> by congruence.
  eexists. split; [done |].
  rewrite parse_adjacency_emit by done. cbn [arcs]. split_and!.
  - unfold adjacency_of, block. apply length_bind_map.
  - apply NoDup_adjacency_of.
  - intros w1 w2. by rewrite elem_of_adjacency_of.
Qed.

(** ** The example of the specification *)

Lemma weight_value_1 : weight_value (NegLogRecip 1) = 0%R.
Proof.
  cbn [weight_value]. change (INR 1) with 1%R.
  replace (1 / 1)%R with 1%R by lra. rewrite ln_1. lra.
Qed.

Lemma weight_value_2 : weight_value (NegLogRecip 2) = ln 2.
Proof.
  cbn [weight_value]. change (INR 2) with (1 + 1)%R.
  replace (1 / (1 + 1))%R with (/ 2)%R by lra.
  rewrite ln_Rinv by lra. lra.
Qed.

Lemma ln_2_nonzero : ln 2 ≠ 0%R.
Proof. pose proof ln_lt_2. lra. Qed.

(** C1, as the code has it.  For [[["hello", "world"]]] without the
    conservative and disfluency options the bigram builder numbers the
    three words "<unk>", "hello" and "world" 1, 2 and 3 and writes four
    arcs: OOV to OOV and OOV to hello, each of weight [-ln(1/2) = ln 2],
    then hello to world and world to OOV, each of weight [-ln(1/1) = 0];
    the final node is 3. *)
Theorem hello_world_bigram (kw : kwargs) :
  conservative kw = false → disfluency kw = false →
  ∃ t, bigram_fst (Nested [["hello"; "world"]]) kw = Some t
    ∧ arcs t = [ Line 1 1 OOV_TERM OOV_TERM (NegLogRecip 2);
                 Line 1 2 "hello" "hello" (NegLogRecip 2);
                 Line 2 3 "world" "world" (NegLogRecip 1);
                 Line 3 1 OOV_TERM OOV_TERM (NegLogRecip 1) ]
    ∧ final_node t = 3
    ∧ parse_adjacency t = [ (OOV_TERM, OOV_TERM); (OOV_TERM, "hello");
                            ("hello", "world"); ("world", OOV_TERM) ]
    ∧ weight_value (NegLogRecip 2) = ln 2 ∧ ln 2 ≠ 0%R
    ∧ weight_value (NegLogRecip 1) = 0%R.
Proof.
  intros Hcons Hdis.
  assert (Hrun : bigram_fst (Nested [["hello"; "world"]]) kw
                 = bigram_fst (Nested [["hello"; "world"]]) no_kwargs).
  { unfold bigram_fst, build_bigrams, normalize, for_each, step_sequence, step_word.
    rewrite Hcons, Hdis. reflexivity. }
  rewrite Hrun. eexists. split; [vm_compute; reflexivity |].
  split_and!; try reflexivity.
  - apply weight_value_2.
  - apply ln_2_nonzero.
  - apply weight_value_1.
Qed.

Lemma hello_world_bigram_witness :
  ∃ t, bigram_fst (Nested [["hello"; "world"]]) (Kwargs (Some false) (Some false) None)
       = Some t
    ∧ arcs t = [ Line 1 1 OOV_TERM OOV_TERM (NegLogRecip 2);
                 Line 1 2 "hello" "hello" (NegLogRecip 2);
                 Line 2 3 "world" "world" (NegLogRecip 1);
                 Line 3 1 OOV_TERM OOV_TERM (NegLogRecip 1) ]
    ∧ final_node t = 3
    ∧ parse_adjacency t = [ (OOV_TERM, OOV_TERM); (OOV_TERM, "hello");
                            ("hello", "world"); ("world", OOV_TERM) ]
    ∧ weight_value (NegLogRecip 2) = ln 2 ∧ ln 2 ≠ 0%R
    ∧ weight_value (NegLogRecip 1) = 0%R.
Proof.
  apply (hello_world_bigram (Kwargs (Some false) (Some false) None)); reflexivity.
Defined.

(** C1, as it is stated, fails on both counts: the arcs of the example are
    not the three arcs OOV to hello, hello to world and world to OOV, and
    they do not all weigh 0. *)
Lemma hello_world_three_arcs_of_weight_zero_fails :
  ∃ t, bigram_fst (Nested [["hello"; "world"]])
                  (Kwargs (Some false) (Some false) None) = Some t
     ∧ ¬ parse_adjacency t
         ≡ₚ [ (OOV_TERM, "hello"); ("hello", "world"); ("world", OOV_TERM) ]
     ∧ ¬ Forall (λ l, weight_value (arc_weight l) = 0%R) (arcs t).
Proof.
  eexists. split; [vm_compute; reflexivity |]. split.
  - intros Hperm%Permutation_length. vm_compute in Hperm. discriminate.
  - cbn [arcs]. intros Hall. apply Forall_cons in Hall as [H0 _].
    cbn [arc_weight] in H0. rewrite weight_value_2 in H0. by apply ln_2_nonzero.
Qed.

(** ** The transcript builder: node allocation *)

Lemma walk_next_available (kw : kwargs) (e len : Z) (ws : list string) :
  ∀ i st, ws ≠ [] → (Z.of_nat (length ws) + i = len)%Z →
  Transcript.next_available_node_id (Transcript.walk kw e len i ws st)
  = (Transcript.next_available_node_id st + Z.max (Z.of_nat (length ws) - 2) 0)%Z.
Proof.
  induction ws as [|word rest IH]; intros i st Hne Hlen; [done |].
  cbn [Transcript.walk]. case_bool_decide as Hlast.
  - cbn. cbn [length] in Hlen. lia.
  - destruct rest as [|w2 rest]; [cbn [length] in Hlen; lia |].
    rewrite IH; [| done | cbn [length] in *; lia].
    case_bool_decide as Hpen; cbn; cbn [length] in *; lia.
Qed.

Lemma step_sequence_next_available (kw : kwargs) (e : Z) (st : Transcript.state)
    (seq : list string) :
  Transcript.next_available_node_id (Transcript.step_sequence kw e st seq)
  = (Transcript.next_available_node_id st + Z.max (Z.of_nat (length seq) - 1) 0)%Z.
Proof.
  destruct seq as [|w ws]; [cbn; lia |].
  unfold Transcript.step_sequence.
  assert (Hleave : ∀ st', Transcript.next_available_node_id
                            (Transcript.leave_end kw e st')
                          = Transcript.next_available_node_id st').
  { intros st'. unfold Transcript.leave_end. by destruct (Transcript.end_node_flag st'). }
  rewrite Hleave, walk_next_available; [| done | lia].
  unfold Transcript.first_target, Transcript.enter_start.
  case_bool_decide as Hone; destruct (Transcript.start_node_flag st);
    cbn; cbn [length] in *; lia.
Qed.

(** The counter after the loop: one more than the number of freshly
    allocated nodes, [len(seq) - 1] for each sequence that is not empty. *)
Lemma run_next_available (kw : kwargs) (seqs : list (list string)) :
  Transcript.next_available_node_id (Transcript.run kw seqs) = Spec.end_node_id seqs.
Proof.
  unfold Transcript.run, Spec.end_node_id.
  generalize (Transcript.end_node_id_of seqs) as e.
  change 1%Z with (Transcript.next_available_node_id Transcript.init) at 1.
  generalize Transcript.init as st. intros st e. revert st.
  induction seqs as [|seq seqs IH]; intros st; cbn [foldl map foldr]; [lia |].
  rewrite IH, step_sequence_next_available. lia.
Qed.

(** The precomputed end node against the clamped sum: equal when no
    sequence is empty, smaller by one for each empty sequence. *)
Lemma end_node_id_of_count (seqs : list (list string)) :
  Transcript.end_node_id_of seqs
  = (Spec.end_node_id seqs - Z.of_nat (length (filter (λ seq, seq = []) seqs)))%Z.
Proof.
  unfold Transcript.end_node_id_of, Spec.end_node_id.
  induction seqs as [|seq seqs IH]; cbn [map foldr]; [cbn; lia |].
  rewrite filter_cons. destruct seq as [|w ws].
  - rewrite decide_True by done. cbn [length] in *. lia.
  - rewrite decide_False by done. cbn [length] in *. lia.
Qed.

Lemma normalize_nested_cons (seq : list string) (seqs : list (list string)) :
  normalize (Nested (seq :: seqs)) = seq :: seqs.
Proof. done. Qed.

Lemma normalize_nested_nil : normalize (Nested []) = [[]].
Proof. done. Qed.

Lemma normalize_flat (ws : list string) : normalize (Flat ws) = [ws].
Proof. unfold normalize. cbn [first_not_list wrap]. by rewrite orb_true_r. Qed.

(** The assertion of line 180 holds exactly when no sequence of the
    normalized input is empty. *)
Lemma assertion_iff (kw : kwargs) (seqs : list (list string)) :
  Transcript.end_node_id_of seqs
  = Transcript.next_available_node_id (Transcript.run kw seqs)
  ↔ Forall (λ seq, seq ≠ []) seqs.
Proof.
  rewrite run_next_available, end_node_id_of_count.
  assert (Hcount : length (filter (λ seq : list string, seq = []) seqs) = 0
                   ↔ Forall (λ seq, seq ≠ []) seqs).
  { induction seqs as [|seq seqs IH]; [by split; [constructor |] |].
    rewrite filter_cons, Forall_cons. case_decide; cbn [length]; [| tauto].
    split; [lia | tauto]. }
  rewrite <- Hcount. lia.
Qed.

(** C10. For every list of lists with an empty sequence in it, and for
    the empty list (which is wrapped into a list holding one empty
    sequence), [make_transcript_fst] returns nothing: it fails the
    assertion of line 180, the precomputed end node being smaller than the
    counter of allocated nodes. *)
Theorem transcript_raises_on_empty_sequence (fmt_float : float → string)
    (seqs : list (list string)) (kw : kwargs) :
  [] ∈ seqs ∨ seqs = [] →
  ∃ expected actual,
    (expected < actual)%Z
    ∧ Transcript.make_transcript_fst fmt_float (Nested seqs) kw
      = Transcript.AssertionError (fmt_Z expected ++ " vs " ++ fmt_Z actual).
Proof.
  intros Hempty.
  assert (Hin : [] ∈ normalize (Nested seqs)).
  { destruct Hempty as [Hin | ->]; [| rewrite normalize_nested_nil; left].
    destruct seqs; [by apply elem_of_nil in Hin | by rewrite normalize_nested_cons]. }
  exists (Transcript.end_node_id_of (normalize (Nested seqs))),
         (Transcript.next_available_node_id (Transcript.run kw (normalize (Nested seqs)))).
  assert (Hlt : (Transcript.end_node_id_of (normalize (Nested seqs))
                 < Transcript.next_available_node_id
                     (Transcript.run kw (normalize (Nested seqs))))%Z).
  { rewrite run_next_available, end_node_id_of_count.
    assert (0 < length (filter (λ seq : list string, seq = []) (normalize (Nested seqs)))).
    { assert (Hf : [] ∈ filter (λ seq : list string, seq = [])
                               (normalize (Nested seqs)))
        by by apply list_elem_of_filter.
      destruct (filter _ _); [by apply elem_of_nil in Hf | cbn; lia]. }
    lia. }
  split; [done |].
  unfold Transcript.make_transcript_fst. cbn zeta.
  rewrite bool_decide_eq_false_2 by lia. done.
Qed.

Lemma transcript_raises_on_empty_sequence_witness :
  ∃ expected actual,
    (expected < actual)%Z
    ∧ Transcript.make_transcript_fst (λ _, "w") (Nested [["a"; "b"]; []]) no_kwargs
      = Transcript.AssertionError (fmt_Z expected ++ " vs " ++ fmt_Z actual).
Proof.
  apply (transcript_raises_on_empty_sequence (λ _, "w") [["a"; "b"]; []] no_kwargs).
  left. right. left.
Defined.

(** The same call on the flat empty list *)
Lemma transcript_raises_on_flat_empty (fmt_float : float → string) (kw : kwargs) :
  Transcript.make_transcript_fst fmt_float (Flat []) kw
  = Transcript.AssertionError "0 vs 1".
Proof. reflexivity. Qed.

(** C5, at the input that breaks it: the empty list of sequences has no
    empty sequence in it, and yet the assertion fires on it with
    ["0 vs 1"]: the list is first wrapped into [[[]]], and line 122 counts
    the empty sequence as -1. *)
Theorem transcript_empty_input_fails_assertion (fmt_float : float → string)
    (kw : kwargs) :
  Forall (λ seq : list string, seq ≠ []) []
  ∧ Transcript.make_transcript_fst fmt_float (Nested []) kw
    = Transcript.AssertionError "0 vs 1".
Proof. split; [constructor | reflexivity]. Qed.

(** For a list of sequences that is not empty and has no empty sequence
    in it, the number of freshly allocated nodes is the precomputed end
    node minus one, the assertion holds and the call returns. *)
Lemma transcript_returns_without_empty_sequences (fmt_float : float → string)
    (seqs : list (list string)) (kw : kwargs) :
  seqs ≠ [] → Forall (λ seq, seq ≠ []) seqs →
  (Transcript.next_available_node_id (Transcript.run kw seqs) - 1
   = Transcript.end_node_id_of seqs - 1)%Z
  ∧ Transcript.make_transcript_fst fmt_float (Nested seqs) kw
    = Transcript.Returned
        (Transcript.render fmt_float
           (Transcript.sort_edges (Transcript.output (Transcript.run kw seqs)))
           (Transcript.end_node_id_of seqs)).
Proof.
  intros Hne Hall. apply (assertion_iff kw) in Hall. split; [lia |].
  destruct seqs as [|seq seqs]; [done |].
  unfold Transcript.make_transcript_fst. rewrite normalize_nested_cons. cbn zeta.
  by rewrite bool_decide_eq_true_2.
Qed.

Lemma transcript_returns_without_empty_sequences_witness :
  (Transcript.next_available_node_id
     (Transcript.run no_kwargs [["a"; "b"]; ["a"; "c"]]) - 1
   = Transcript.end_node_id_of [["a"; "b"]; ["a"; "c"]] - 1)%Z
  ∧ Transcript.make_transcript_fst (λ _, "w") (Nested [["a"; "b"]; ["a"; "c"]]) no_kwargs
    = Transcript.Returned
        (Transcript.render (λ _, "w")
           (Transcript.sort_edges
              (Transcript.output (Transcript.run no_kwargs [["a"; "b"]; ["a"; "c"]])))
           (Transcript.end_node_id_of [["a"; "b"]; ["a"; "c"]])).
Proof.
  apply (transcript_returns_without_empty_sequences (λ _, "w")
           [["a"; "b"]; ["a"; "c"]] no_kwargs).
  - discriminate.
  - repeat constructor; discriminate.
Defined.

(** C4, at an input that breaks it: for [[[], ["a"]]] line 122 computes
    the end node 0, where the clamped sum of the specification is 1. *)
Theorem end_node_id_counts_empty_sequence_as_minus_one :
  Transcript.end_node_id_of [[]; ["a"]] = 0%Z ∧ Spec.end_node_id [[]; ["a"]] = 1%Z.
Proof. split; reflexivity. Qed.

(** When no sequence is empty, line 122 computes the clamped sum. *)
Lemma end_node_id_of_nonempty (seqs : list (list string)) :
  Forall (λ seq, seq ≠ []) seqs →
  Transcript.end_node_id_of seqs = Spec.end_node_id seqs.
Proof.
  intros Hall. rewrite <- (run_next_available no_kwargs). by apply assertion_iff.
Qed.

Lemma end_node_id_of_nonempty_witness :
  Transcript.end_node_id_of [["a"; "b"]; ["c"]] = Spec.end_node_id [["a"; "b"]; ["c"]].
Proof.
  apply (end_node_id_of_nonempty [["a"; "b"]; ["c"]]).
  repeat constructor; discriminate.
Defined.

(** C3, at an input that breaks it: with an empty sequence in the set the
    transcript builder fails its assertion, where without the empty
    sequence it returns the two arcs of the word. *)
Theorem transcript_does_not_skip_empty_sequence (fmt_float : float → string) :
  Transcript.make_transcript_fst fmt_float (Nested [[]; ["a"]]) no_kwargs
  = Transcript.AssertionError "0 vs 1"
  ∧ Transcript.make_transcript_fst fmt_float (Nested [["a"]]) no_kwargs
    = Transcript.Returned
        (Transcript.render fmt_float
           [ (0%Z, 1%Z, OOV_TERM, OOV_TERM, 0%float); (0%Z, 1%Z, "a", "a", 2%float) ]
           1).
Proof. split; reflexivity. Qed.

(** ** The transcript builder: the arcs of a word *)

Lemma self_loops_fillers (kw : kwargs) (n : Z) :
  Forall (is_filler kw) (Transcript.self_loops kw n).
Proof.
  unfold Transcript.self_loops. apply Forall_app. split.
  - destruct (disfluency kw); [| constructor].
    apply Forall_forall. intros x Hx.
    apply list_elem_of_In, in_map_iff in Hx as (dis & <- & Hdis).
    exists n, dis. split; [done |]. right. by apply list_elem_of_In.
  - destruct (conservative kw); repeat constructor.
    exists n, OOV_TERM. split; [done | left].
Qed.

Lemma self_loops_plain (kw : kwargs) (n : Z) :
  conservative kw = false → disfluency kw = false → Transcript.self_loops kw n = [].
Proof. unfold Transcript.self_loops. by intros -> ->. Qed.

Lemma chain_arcs_cons (hop : Z * Z) (hops : list (Z * Z)) (word : string)
    (ws : list string) :
  chain_arcs (hop :: hops) (word :: ws)
  = (Transcript.word_arcs hop.1 hop.2 word ++ chain_arcs hops ws)%list.
Proof. done. Qed.

(** The inner loop writes, for each word, the two arcs of lines 149-150
    along a path from the current node to the end node, and filler loops
    besides. *)
Lemma walk_output (kw : kwargs) (e len : Z) (ws : list string) :
  ∀ i st, ws ≠ [] → (Z.of_nat (length ws) + i = len)%Z →
  (length ws = 1 → Transcript.next_node_id st = e) →
  ∃ hops fillers,
    length hops = length ws
    ∧ is_path (Transcript.cur_node_id st) hops e
    ∧ Transcript.output (Transcript.walk kw e len i ws st)
      ≡ₚ (Transcript.output st ++ chain_arcs hops ws ++ fillers)%list
    ∧ Forall (is_filler kw) fillers
    ∧ (conservative kw = false → disfluency kw = false → fillers = []).
Proof.
  induction ws as [|word rest IH]; intros i st Hne Hlen Hone; [done |].
  cbn [Transcript.walk]. case_bool_decide as Hlast.
  - destruct rest as [|w2 rest]; [| cbn [length] in Hlen; lia].
    exists [(Transcript.cur_node_id st, Transcript.next_node_id st)], [].
    split_and!; [done | | | constructor | done].
    + cbn. split; [done |]. by apply Hone.
    + cbn. by rewrite ?app_nil_r.
  - destruct rest as [|w2 rest]; [cbn [length] in Hlen; lia |].
    set (st1 := Transcript.append _ st).
    set (st2 := if bool_decide (i = len - 2)%Z
                then Transcript.step_to_end e st1 else Transcript.step_to_fresh st1).
    assert (Hcur2 : Transcript.cur_node_id st2 = Transcript.next_node_id st)
      by (subst st2; by case_bool_decide).
    assert (Hout2 : Transcript.output st2
                    = (Transcript.output st
                       ++ Transcript.word_arcs (Transcript.cur_node_id st)
                            (Transcript.next_node_id st) word)%list)
      by (subst st2; by case_bool_decide).
    destruct (IH (i + 1)%Z
                (Transcript.append (Transcript.self_loops kw (Transcript.cur_node_id st2)) st2))
      as (hops & fillers & Hl & Hpath & Hperm & Hfill & Hplain).
    + done.
    + cbn [length] in *. lia.
    + intros Hrest. subst st2. rewrite bool_decide_eq_true_2; [done |].
      cbn [length] in *. lia.
    + exists ((Transcript.cur_node_id st, Transcript.next_node_id st) :: hops),
             (Transcript.self_loops kw (Transcript.cur_node_id st2) ++ fillers)%list.
      split_and!.
      * cbn [length]. by rewrite Hl.
      * cbn [is_path fst snd]. split; [done |]. by rewrite <- Hcur2.
      * rewrite Hperm, chain_arcs_cons. cbn [Transcript.append Transcript.output fst snd].
        rewrite Hout2. rewrite <- !app_assoc. do 2 f_equiv.
        rewrite !app_assoc. f_equiv. apply Permutation_app_comm.
      * apply Forall_app. split; [apply self_loops_fillers | done].
      * intros Hc Hd. by rewrite self_loops_plain, Hplain.
Qed.

Lemma step_sequence_output (kw : kwargs) (e : Z) (st : Transcript.state)
    (seq : list string) :
  ∃ hops fillers,
    length hops = length seq
    ∧ (seq ≠ [] → is_path 0 hops e)
    ∧ Transcript.output (Transcript.step_sequence kw e st seq)
      ≡ₚ (Transcript.output st ++ chain_arcs hops seq ++ fillers)%list
    ∧ Forall (is_filler kw) fillers
    ∧ (conservative kw = false → disfluency kw = false → fillers = []).
Proof.
  destruct seq as [|w ws].
  - exists [], []. split_and!; [done | done | | constructor | done].
    cbn. by rewrite app_nil_r.
  - unfold Transcript.step_sequence.
    set (st0 := Transcript.enter_start kw st).
    set (st1 := Transcript.first_target e (w :: ws) st0).
    assert (∃ f0, Transcript.output st0 = (Transcript.output st ++ f0)%list
                  ∧ Forall (is_filler kw) f0
                  ∧ (conservative kw = false → disfluency kw = false → f0 = []))
      as (f0 & Hout0 & Hf0 & Hp0).
    { subst st0. unfold Transcript.enter_start.
      destruct (Transcript.start_node_flag st); cbn [Transcript.output].
      - eexists. split_and!; [done | apply self_loops_fillers | apply self_loops_plain].
      - exists []. split_and!; [by rewrite app_nil_r | constructor | done]. }
    assert (Hcur1 : Transcript.cur_node_id st1 = 0%Z).
    { subst st1 st0. unfold Transcript.first_target, Transcript.enter_start.
      case_bool_decide; by destruct (Transcript.start_node_flag st). }
    assert (Hout1 : Transcript.output st1 = Transcript.output st0).
    { subst st1. unfold Transcript.first_target. by case_bool_decide. }
    destruct (walk_output kw e (Z.of_nat (length (w :: ws))) (w :: ws) 0 st1)
      as (hops & fillers & Hl & Hpath & Hperm & Hfill & Hplain); [done | lia | |].
    { intros Hone. subst st1. unfold Transcript.first_target.
      by rewrite bool_decide_eq_true_2. }
    set (st2 := Transcript.walk _ _ _ _ _ _) in *.
    assert (∃ f2, Transcript.output (Transcript.leave_end kw e st2)
                  = (Transcript.output st2 ++ f2)%list
                  ∧ Forall (is_filler kw) f2
                  ∧ (conservative kw = false → disfluency kw = false → f2 = []))
      as (f2 & -> & Hf2 & Hp2).
    { unfold Transcript.leave_end.
      destruct (Transcript.end_node_flag st2); cbn [Transcript.output].
      - eexists. split_and!; [done | apply self_loops_fillers | apply self_loops_plain].
      - exists []. split_and!; [by rewrite app_nil_r | constructor | done]. }
    exists hops, (f0 ++ fillers ++ f2)%list. split_and!.
    + done.
    + intros _. by rewrite <- Hcur1.
    + rewrite Hperm, Hout1, Hout0. rewrite <- !app_assoc. f_equiv.
      rewrite !app_assoc. do 2 f_equiv. apply Permutation_app_comm.
    + by rewrite !Forall_app.
    + intros Hc Hd. by rewrite Hp0, Hplain, Hp2.
Qed.

Lemma run_output (kw : kwargs) (e : Z) (seqs : list (list string)) :
  ∀ st, ∃ hopss fillers,
    Forall2 (λ hops seq, length hops = length seq ∧ (seq ≠ [] → is_path 0 hops e))
            hopss seqs
    ∧ Transcript.output (foldl (Transcript.step_sequence kw e) st seqs)
      ≡ₚ (Transcript.output st ++ concat (zip_with chain_arcs hopss seqs)
          ++ fillers)%list
    ∧ Forall (is_filler kw) fillers
    ∧ (conservative kw = false → disfluency kw = false → fillers = []).
Proof.
  induction seqs as [|seq seqs IH]; intros st; cbn [foldl].
  - exists [], []. split_and!; [constructor | | constructor | done].
    cbn. by rewrite app_nil_r.
  - destruct (step_sequence_output kw e st seq)
      as (hops & f1 & Hl & Hpath & Hperm1 & Hf1 & Hp1).
    destruct (IH (Transcript.step_sequence kw e st seq))
      as (hopss & f2 & Hall & Hperm2 & Hf2 & Hp2).
    exists (hops :: hopss), (f1 ++ f2)%list. split_and!.
    + by constructor.
    + rewrite Hperm2, Hperm1. cbn [zip_with concat]. rewrite <- !app_assoc.
      do 2 f_equiv. rewrite !app_assoc. f_equiv. apply Permutation_app_comm.
    + by rewrite Forall_app.
    + intros Hc Hd. by rewrite Hp1, Hp2.
Qed.

Lemma sort_edges_perm (es : list Transcript.edge) : Transcript.sort_edges es ≡ₚ es.
Proof. apply merge_sort_Permutation. Qed.

(** Before the assertion of line 180: whatever the input and the options,
    the arcs the loop has appended are, for each sequence and each
    word position of it, one arc for the word at weight 2.0 and one for the
    OOV token at weight 0.0, both from the same node to the same node; the
    positions of a sequence form a path from node 0 to the end node.  All
    the other arcs are filler loops of weight 0.0, and without the
    conservative and disfluency options there are none. *)
Lemma appended_arcs_two_per_word (a : word_sequences) (kw : kwargs) :
  ∃ hopss fillers,
    Forall2 (λ hops seq,
               length hops = length seq
               ∧ (seq ≠ [] →
                  is_path 0 hops (Transcript.end_node_id_of (normalize a))))
            hopss (normalize a)
    ∧ Transcript.sort_edges (Transcript.output (Transcript.run kw (normalize a)))
      ≡ₚ (concat (zip_with chain_arcs hopss (normalize a)) ++ fillers)%list
    ∧ (∀ hop word, chain_arcs [hop] [word]
                   = [ (hop.1, hop.2, word, word, 2%float);
                       (hop.1, hop.2, OOV_TERM, OOV_TERM, 0%float) ])
    ∧ Forall (is_filler kw) fillers
    ∧ (conservative kw = false → disfluency kw = false → fillers = []).
Proof.
  destruct (run_output kw (Transcript.end_node_id_of (normalize a)) (normalize a)
              Transcript.init) as (hopss & fillers & Hall & Hperm & Hfill & Hplain).
  exists hopss, fillers. split_and!; [done | | done | done | done].
  by rewrite sort_edges_perm.
Qed.

(** ** Input shapes *)

Lemma make_bigram_lm_fst_returns (fmt_f : weight → string) (a : word_sequences)
    (kw : kwargs) :
  ∃ bytes, make_bigram_lm_fst fmt_f a kw = Some bytes.
Proof.
  unfold make_bigram_lm_fst.
  destruct (bigram_fst_spec a kw) as (b & ids & _ & _ & _ & _ & ->). by eexists.
Qed.

(** C8. For every flat list of words and every choice of the keyword
    arguments, each builder does on the flat list what it does on the list
    that holds it as its one sequence: the bigram builder returns the same
    bytes, the transcript builder returns the same bytes when the list has
    a word, and fails the same assertion when it has none. *)
Theorem flat_sequence_is_one_element_set (fmt_f : weight → string)
    (fmt_float : float → string) (ws : list string) (kw : kwargs) :
  (∃ bytes, make_bigram_lm_fst fmt_f (Flat ws) kw = Some bytes
            ∧ make_bigram_lm_fst fmt_f (Nested [ws]) kw = Some bytes)
  ∧ Transcript.make_transcript_fst fmt_float (Flat ws) kw
    = Transcript.make_transcript_fst fmt_float (Nested [ws]) kw
  ∧ (ws ≠ [] →
     ∃ bytes, Transcript.make_transcript_fst fmt_float (Flat ws) kw
              = Transcript.Returned bytes
              ∧ Transcript.make_transcript_fst fmt_float (Nested [ws]) kw
                = Transcript.Returned bytes).
Proof.
  assert (Hnorm : normalize (Flat ws) = normalize (Nested [ws]))
    by by rewrite normalize_flat, normalize_nested_cons.
  assert (Hb : make_bigram_lm_fst fmt_f (Flat ws) kw
               = make_bigram_lm_fst fmt_f (Nested [ws]) kw)
    by (unfold make_bigram_lm_fst, bigram_fst; by rewrite Hnorm).
  assert (Ht : Transcript.make_transcript_fst fmt_float (Flat ws) kw
               = Transcript.make_transcript_fst fmt_float (Nested [ws]) kw)
    by (unfold Transcript.make_transcript_fst; by rewrite Hnorm).
  split_and!.
  - destruct (make_bigram_lm_fst_returns fmt_f (Flat ws) kw) as [bytes Hbytes].
    exists bytes. by rewrite <- Hb.
  - done.
  - intros Hne. rewrite <- Ht. unfold Transcript.make_transcript_fst.
    rewrite normalize_flat. cbn zeta. rewrite bool_decide_eq_true_2; [by eexists |].
    apply assertion_iff. by repeat constructor.
Qed.

Lemma for_each_skip {A St : Type} (body : A → St → option St) (x : A)
    (xs1 xs2 : list A) (st : St) :
  (∀ st0, body x st0 = Some st0) →
  for_each body (xs1 ++ x :: xs2) st = for_each body (xs1 ++ xs2) st.
Proof.
  intros Hskip. revert st. induction xs1 as [|y xs1 IH]; intros st; cbn [for_each app].
  - by rewrite Hskip.
  - destruct (body y st); [apply IH | done].
Qed.

(** The bigram builder skips an empty sequence: the set with it and the
    set without it give the same bytes. *)
Lemma bigram_skips_empty_sequence (fmt_f : weight → string)
    (seqs1 seqs2 : list (list string)) (kw : kwargs) :
  make_bigram_lm_fst fmt_f (Nested (seqs1 ++ [] :: seqs2)) kw
  = make_bigram_lm_fst fmt_f (Nested (seqs1 ++ seqs2)) kw.
Proof.
  unfold make_bigram_lm_fst, bigram_fst.
  assert (build_bigrams kw (normalize (Nested (seqs1 ++ [] :: seqs2)))
          = build_bigrams kw (normalize (Nested (seqs1 ++ seqs2)))) as ->; [| done].
  unfold build_bigrams.
  assert (normalize (Nested (seqs1 ++ [] :: seqs2)) = (seqs1 ++ [] :: seqs2)%list) as ->
    by by destruct seqs1.
  rewrite for_each_skip by done.
  destruct (seqs1 ++ seqs2)%list as [|seq seqs] eqn:Heq; [| done].
  by rewrite normalize_nested_nil.
Qed.

(** ** The driver of the graph compiler *)

Section DriverFacts.

Variable mkgraph : string → string → string → Driver.M unit.
Variables txt_fst_name hclg_filename proto_langdir : string.

(** On a failure of the compiler, a failure to remove the output file is
    swallowed. *)
Lemma handler_reraises (e : Driver.exn) (w : Driver.world) :
  ∃ w', Driver.bind
          (Driver.try_except (Driver.os_unlink hclg_filename) (λ _, Driver.ret tt))
          (λ _, Driver.raise (A := unit) e) w = (inr e, w')
        ∧ Driver.undeletable w' = Driver.undeletable w
        ∧ ∀ p, p ≠ hclg_filename → Driver.files w' !! p = Driver.files w !! p.
Proof.
  unfold Driver.bind, Driver.try_except, Driver.os_unlink, Driver.ret, Driver.raise.
  destruct (Driver.files w !! hclg_filename); [case_bool_decide |]; cbn.
  - by exists w.
  - eexists. split_and!; [done | done |]. intros p Hp. cbn.
    by rewrite lookup_delete_ne.
  - by exists w.
Qed.

(** When the compiler fails and the temporary input file can be removed,
    the file is removed and the failure of the compiler is the one that
    reaches the caller. *)
Lemma compile_graph_failure (e : Driver.exn) (w w1 : Driver.world) :
  txt_fst_name ≠ hclg_filename →
  mkgraph proto_langdir txt_fst_name hclg_filename w = (inr e, w1) →
  is_Some (Driver.files w1 !! txt_fst_name) →
  txt_fst_name ∉ Driver.undeletable w1 →
  ∃ w2, Driver.compile_graph mkgraph txt_fst_name hclg_filename proto_langdir w
        = (inr e, w2)
        ∧ Driver.files w2 !! txt_fst_name = None.
Proof.
  intros Hne Hrun [data Hdata] Hdel.
  unfold Driver.compile_graph, Driver.try_finally.
  unfold Driver.try_except at 1. rewrite Hrun.
  destruct (handler_reraises e w1) as (w' & -> & Hund & Hfiles).
  unfold Driver.os_unlink. rewrite Hfiles, Hdata by done.
  rewrite bool_decide_eq_false_2 by by rewrite Hund.
  eexists. split; [done |]. cbn. apply lookup_delete_eq.
Qed.

(** When the compiler fails and the temporary input file cannot be
    removed, the caller gets the failure of the removal. *)
Lemma compile_graph_cleanup_failure (e : Driver.exn) (w w1 : Driver.world) :
  txt_fst_name ≠ hclg_filename →
  mkgraph proto_langdir txt_fst_name hclg_filename w = (inr e, w1) →
  is_Some (Driver.files w1 !! txt_fst_name) →
  txt_fst_name ∈ Driver.undeletable w1 →
  ∃ w2, Driver.compile_graph mkgraph txt_fst_name hclg_filename proto_langdir w
        = (inr (Driver.PermissionError txt_fst_name), w2)
        ∧ is_Some (Driver.files w2 !! txt_fst_name).
Proof.
  intros Hne Hrun [data Hdata] Hdel.
  unfold Driver.compile_graph, Driver.try_finally.
  unfold Driver.try_except at 1. rewrite Hrun.
  destruct (handler_reraises e w1) as (w' & -> & Hund & Hfiles).
  unfold Driver.os_unlink. rewrite Hfiles, Hdata by done.
  rewrite bool_decide_eq_true_2 by by rewrite Hund.
  eexists. split; [done |]. rewrite Hfiles by done. by eexists.
Qed.

End DriverFacts.

(** C9, at a world that breaks it: the compiler exits with status 1 and
    the temporary input file cannot be removed (its directory has become
    read-only).  The caller does not get the [CalledProcessError] of the
    compiler but the [PermissionError] of the [os.unlink] of line 227, and
    the temporary file stays. *)
Theorem cleanup_failure_replaces_compiler_failure (fmt_f : weight → string) :
  ∃ w, Driver.make_bigram_language_model fmt_f
         (λ _ _ _, Driver.raise (Driver.CalledProcessError 1))
         "/tmp/tmpa1b2c3" "/tmp/tmpd4e5f6_HCLG.fst"
         (Flat ["a"]) "proto" no_kwargs
         (Driver.World ∅ {[ "/tmp/tmpa1b2c3" ]})
       = (inr (Driver.PermissionError "/tmp/tmpa1b2c3"), w)
     ∧ is_Some (Driver.files w !! "/tmp/tmpa1b2c3").
Proof.
  unfold Driver.make_bigram_language_model.
  destruct (make_bigram_lm_fst_returns fmt_f (Flat ["a"]) no_kwargs) as [bytes ->].
  unfold Driver.bind at 1. cbn [Driver.write_temp].
  unfold Driver.bind at 1.
  set (w0 := Driver.World (<["/tmp/tmpa1b2c3" := bytes]> ∅) {[ "/tmp/tmpa1b2c3" ]}).
  destruct (compile_graph_cleanup_failure
              (λ _ _ _, Driver.raise (Driver.CalledProcessError 1))
              "/tmp/tmpa1b2c3" "/tmp/tmpd4e5f6_HCLG.fst" "proto"
              (Driver.CalledProcessError 1) w0 w0) as (w2 & Hrun & Hfile).
  - done.
  - reflexivity.
  - cbn [w0 Driver.files]. rewrite lookup_insert_eq. by eexists.
  - cbn [w0 Driver.undeletable]. set_solver.
  - cbn [Driver.files Driver.undeletable]. fold w0. rewrite Hrun. by exists w2.
Qed.

(** When the compiler fails and the temporary input file can be removed,
    [make_bigram_language_model] removes it and raises the failure of the
    compiler, also when the removal of the output file fails. *)
Lemma compiler_failure_reaches_caller (fmt_f : weight → string)
    (mkgraph : string → string → string → Driver.M unit)
    (txt_fst_name hclg_filename proto_langdir : string)
    (kaldi_seq : word_sequences) (kw : kwargs) (e : Driver.exn)
    (w w1 : Driver.world) (bytes : string) :
  txt_fst_name ≠ hclg_filename →
  make_bigram_lm_fst fmt_f kaldi_seq kw = Some bytes →
  mkgraph proto_langdir txt_fst_name hclg_filename
    (Driver.World (<[txt_fst_name := bytes]> (Driver.files w)) (Driver.undeletable w))
  = (inr e, w1) →
  is_Some (Driver.files w1 !! txt_fst_name) →
  txt_fst_name ∉ Driver.undeletable w1 →
  ∃ w2, Driver.make_bigram_language_model fmt_f mkgraph txt_fst_name hclg_filename
          kaldi_seq proto_langdir kw w = (inr e, w2)
        ∧ Driver.files w2 !! txt_fst_name = None.
Proof.
  intros Hne Hbytes Hrun Hfile Hdel.
  unfold Driver.make_bigram_language_model. rewrite Hbytes.
  unfold Driver.bind at 1. cbn [Driver.write_temp].
  unfold Driver.bind at 1.
  destruct (compile_graph_failure mkgraph txt_fst_name hclg_filename proto_langdir
              e _ w1 Hne Hrun Hfile Hdel) as (w2 & -> & Hgone).
  by exists w2.
Qed.

Lemma compiler_failure_reaches_caller_witness :
  ∃ w2, Driver.make_bigram_language_model (λ _, "0.000000")
          (λ _ _ _, Driver.raise (Driver.CalledProcessError 1))
          "/tmp/tmpa1b2c3" "/tmp/tmpd4e5f6_HCLG.fst"
          (Flat ["a"]) "proto" no_kwargs (Driver.World ∅ ∅)
        = (inr (Driver.CalledProcessError 1), w2)
        ∧ Driver.files w2 !! "/tmp/tmpa1b2c3" = None.
Proof.
  eapply (compiler_failure_reaches_caller (λ _, "0.000000")
            (λ _ _ _, Driver.raise (Driver.CalledProcessError 1))
            "/tmp/tmpa1b2c3" "/tmp/tmpd4e5f6_HCLG.fst" "proto" (Flat ["a"]) no_kwargs
            (Driver.CalledProcessError 1) (Driver.World ∅ ∅)).
  - done.
  - vm_compute. reflexivity.
  - reflexivity.
  - cbn [Driver.files]. rewrite lookup_insert_eq. by eexists.
  - cbn [Driver.undeletable]. set_solver.
Defined.

(** ** The bigram dict under the options *)

Lemma getitem_add_Some (k v : string) (b b' : gmap string (gset string)) :
  getitem_add k v b = Some b' → b' = add_succs k {[v]} b.
Proof.
  unfold getitem_add, add_succs, successors_of.
  destruct (b !! k); [by intros [= <-] | done].
Qed.

Lemma getitem_update_Some (k : string) (vs : list string)
    (b b' : gmap string (gset string)) :
  getitem_update k vs b = Some b' → b' = add_succs k (list_to_set vs) b.
Proof.
  unfold getitem_update, add_succs, successors_of.
  destruct (b !! k); [by intros [= <-] | done].
Qed.

Lemma word_dis_loop_rel (word : string) (ds : list string) :
  ∀ b b', for_each (λ dis, getitem_add dis word) ds b = Some b' →
  ∀ w1 w2, succ_in b' w1 w2 ↔ succ_in b w1 w2 ∨ (w1 ∈ ds ∧ w2 = word).
Proof.
  induction ds as [|d ds IH]; intros b b'; cbn [for_each].
  - intros [= <-] w1 w2. split; [by left |]. by intros [?|[?%elem_of_nil _]].
  - destruct (getitem_add d word b) as [b1|] eqn:Hb1; [| done].
    apply getitem_add_Some in Hb1 as ->. intros Hrest w1 w2.
    rewrite (IH _ _ Hrest), succ_in_add_succs, elem_of_singleton, elem_of_cons.
    naive_solver.
Qed.

Lemma start_dis_loop_rel (first : string) (ds : list string) :
  ∀ b b', for_each (start_dis first) ds b = Some b' →
  ∀ w1 w2, succ_in b' w1 w2
           ↔ succ_in b w1 w2 ∨ (w1 ∈ ds ∧ (w2 = first ∨ w2 = OOV_TERM)).
Proof.
  induction ds as [|d ds IH]; intros b b'; cbn [for_each].
  - intros [= <-] w1 w2. split; [by left |]. by intros [?|[?%elem_of_nil _]].
  - unfold start_dis at 1.
    destruct (getitem_add d OOV_TERM (setdefault_add d first b)) as [b1|] eqn:Hb1;
      [| done].
    apply getitem_add_Some in Hb1 as ->. intros Hrest w1 w2.
    rewrite (IH _ _ Hrest), setdefault_add_add_succs, !succ_in_add_succs,
      !elem_of_singleton, elem_of_cons.
    naive_solver.
Qed.

Lemma step_word_rel (kw : kwargs) (word prev : string)
    (b : gmap string (gset string)) (st : gmap string (gset string) * string) :
  step_word kw word (b, prev) = Some st →
  st.2 = word
  ∧ ∀ w1 w2, succ_in st.1 w1 w2
             ↔ succ_in b w1 w2 ∨ pair_successor kw prev word w1 w2.
Proof.
  unfold step_word, pair_successor; cbn [fst snd].
  rewrite setdefault_add_add_succs.
  destruct (conservative kw) eqn:Hc.
  - destruct (getitem_add prev OOV_TERM (add_succs prev {[word]} b)) as [b2|] eqn:Hb2;
      [| done].
    apply getitem_add_Some in Hb2 as ->.
    destruct (disfluency kw) eqn:Hd.
    + destruct (getitem_update prev (disfluencies kw) _) as [b3|] eqn:Hb3; [| done].
      apply getitem_update_Some in Hb3 as ->.
      destruct (for_each _ (disfluencies kw) _) as [b4|] eqn:Hb4; [| done].
      intros [= <-]. split; [done |]. intros w1 w2. cbn [fst].
      rewrite (word_dis_loop_rel _ _ _ _ Hb4), !succ_in_add_succs,
        !elem_of_singleton, elem_of_list_to_set.
      naive_solver.
    + intros [= <-]. split; [done |]. intros w1 w2. cbn [fst].
      rewrite !succ_in_add_succs, !elem_of_singleton. naive_solver.
  - destruct (disfluency kw) eqn:Hd.
    + destruct (getitem_update prev (disfluencies kw) _) as [b3|] eqn:Hb3; [| done].
      apply getitem_update_Some in Hb3 as ->.
      destruct (for_each _ (disfluencies kw) _) as [b4|] eqn:Hb4; [| done].
      intros [= <-]. split; [done |]. intros w1 w2. cbn [fst].
      rewrite (word_dis_loop_rel _ _ _ _ Hb4), !succ_in_add_succs,
        !elem_of_singleton, elem_of_list_to_set.
      naive_solver.
    + intros [= <-]. split; [done |]. intros w1 w2. cbn [fst].
      rewrite !succ_in_add_succs, !elem_of_singleton. naive_solver.
Qed.

Lemma walk_words_rel (kw : kwargs) (rest : list string) :
  ∀ prev b st, for_each (step_word kw) rest (b, prev) = Some st →
  st.2 = default prev (last rest)
  ∧ ∀ w1 w2, succ_in st.1 w1 w2
      ↔ succ_in b w1 w2
        ∨ ∃ i p w, (prev :: rest) !! i = Some p ∧ (prev :: rest) !! S i = Some w
                   ∧ pair_successor kw p w w1 w2.
Proof.
  induction rest as [|word rest IH]; intros prev b st; cbn [for_each].
  - intros [= <-]. split; [done |]. intros w1 w2. split; [by left |].
    intros [?|(i & p & w & _ & Hw & _)]; [done |]. by destruct i.
  - destruct (step_word kw word (b, prev)) as [[b1 p1]|] eqn:Hstep; [| done].
    apply step_word_rel in Hstep as [Hp1 Hrel1]. cbn [fst snd] in *. subst p1.
    intros Hrest. apply IH in Hrest as [Hlast Hrel]. split.
    + rewrite Hlast, last_cons. by destruct (last rest).
    + intros w1 w2. rewrite Hrel, Hrel1. split.
      * intros [[?|?]|(i & p & w & Hp & Hw & ?)]; [by left | |].
        -- right. by exists 0, prev, word.
        -- right. by exists (S i), p, w.
      * intros [?|(i & p & w & Hp & Hw & ?)]; [by left; left |].
        destruct i as [|i]; simplify_eq/=; [by left; right |].
        right. by exists i, p, w.
Qed.

Lemma lookup_pred_is_Some {A : Type} (l : list A) (i : nat) :
  is_Some (l !! S i) → is_Some (l !! i).
Proof. rewrite !lookup_lt_is_Some. lia. Qed.

Lemma step_sequence_rel (kw : kwargs) (seq : list string)
    (b b' : gmap string (gset string)) :
  step_sequence kw seq b = Some b' →
  ∀ w1 w2, succ_in b' w1 w2 ↔ succ_in b w1 w2 ∨ seq_successor_opts kw seq w1 w2.
Proof.
  destruct seq as [|first rest]; cbn [step_sequence].
  { intros [= <-] w1 w2. split; [by left |]. intros [?|Hopts]; [done |].
    unfold seq_successor_opts, seq_successor in Hopts. naive_solver. }
  destruct (getitem_add OOV_TERM first b) as [b1|] eqn:Hb1; [| done].
  apply getitem_add_Some in Hb1 as ->.
  set (b1 := add_succs OOV_TERM {[first]} b).
  assert (Hstart : ∀ b3,
    (if disfluency kw
     then match getitem_update OOV_TERM (disfluencies kw) b1 with
          | Some b2 => for_each (start_dis first) (disfluencies kw) b2
          | None => None
          end
     else Some b1) = Some b3 →
    ∀ w1 w2, succ_in b3 w1 w2
      ↔ succ_in b w1 w2 ∨ (w1 = OOV_TERM ∧ w2 = first)
        ∨ (disfluency kw = true
           ∧ ((w1 = OOV_TERM ∧ w2 ∈ disfluencies kw)
              ∨ (w1 ∈ disfluencies kw ∧ (w2 = first ∨ w2 = OOV_TERM))))).
  { intros b3. destruct (disfluency kw).
    - destruct (getitem_update OOV_TERM (disfluencies kw) b1) as [b2|] eqn:Hb2; [| done].
      apply getitem_update_Some in Hb2 as ->. intros Hloop w1 w2.
      rewrite (start_dis_loop_rel _ _ _ _ Hloop). subst b1.
      rewrite !succ_in_add_succs, elem_of_singleton, elem_of_list_to_set.
      naive_solver.
    - intros [= <-] w1 w2. subst b1. rewrite succ_in_add_succs, elem_of_singleton.
      naive_solver. }
  destruct (if disfluency kw then _ else _) as [b3|] eqn:Hb3; [| done].
  specialize (Hstart b3 eq_refl).
  destruct (for_each (step_word kw) rest (b3, first)) as [st|] eqn:Hwalk; [| done].
  apply walk_words_rel in Hwalk as [Hlast Hrel].
  intros [= <-] w1 w2.
  assert (Hl : last (first :: rest) = Some (default first (last rest))).
  { rewrite last_cons. by destruct (last rest). }
  rewrite setdefault_add_add_succs, succ_in_add_succs, elem_of_singleton,
    Hrel, Hstart, Hlast.
  unfold seq_successor_opts, seq_successor, pair_successor. rewrite Hl.
  cbn [head]. split.
  - intros [[[?|[[-> ->]|(Hd & [[-> ?]|[? [->| ->]]])]]
            |(i & p & w & Hp & Hw & Hpair)]|[-> ->]].
    + by left.
    + right. left. by left.
    + right. right. right. split_and!; [done | done |]. by left.
    + right. right. right. split_and!; [done | done |].
      right. left. split; [done |]. right. left.
    + right. right. right. split_and!; [done | done |].
      right. left. split; [done |]. by left.
    + destruct Hpair as [[-> ->]|[(Hc & -> & ->)|[(Hd & -> & ?)|(Hd & ? & ->)]]].
      * right. left. right. left. by exists i.
      * right. right. left. split_and!; [done | done |]. exists i. by rewrite Hw.
      * right. right. right. split_and!; [done | done |].
        right. right. split; [done |]. exists i. by rewrite Hw.
      * right. right. right. split_and!; [done | done |].
        right. left. split; [done |]. right. by eapply list_elem_of_lookup_2.
    + right. left. right. by right.
  - intros [?|[[[-> [= ->]]|[(i & Hp & Hw)|[[= ->] ->]]]
              |[(Hc & -> & i & Hp & [w Hw])
               |(Hd & _ & [[-> ?]|[[? [->|Hin]]|[? (i & Hp & [w Hw])]]])]]].
    + by left; left; left.
    + left. left. right. by left.
    + left. right. exists i, w1, w2. split_and!; [done | done |]. by left.
    + by right.
    + left. right. exists i, w1, w. split_and!; [done | done |]. right. by left.
    + left. left. right. right. split; [done |]. by left.
    + left. left. right. right. split; [done |]. right. split; [done |]. by right.
    + apply list_elem_of_lookup in Hin as [[|j] Hj].
      * simplify_eq/=. left. left. right. right. split; [done |]. right.
        split; [done |]. by left.
      * destruct (lookup_pred_is_Some (first :: rest) j) as [p Hp]; [by eexists |].
        left. right. exists j, p, w2. split_and!; [done | done |].
        right. right. right. done.
    + left. right. exists i, w1, w. split_and!; [done | done |].
      right. right. left. done.
Qed.

Lemma build_rel (kw : kwargs) (seqs : list (list string)) :
  ∀ b b', for_each (step_sequence kw) seqs b = Some b' →
  ∀ w1 w2, succ_in b' w1 w2
           ↔ succ_in b w1 w2 ∨ ∃ seq, seq ∈ seqs ∧ seq_successor_opts kw seq w1 w2.
Proof.
  induction seqs as [|seq seqs IH]; intros b b'; cbn [for_each].
  - intros [= <-] w1 w2. split; [by left |].
    intros [?|(? & ?%elem_of_nil & _)]; done.
  - destruct (step_sequence kw seq b) as [b1|] eqn:Hb1; [| done].
    intros Hrest w1 w2.
    rewrite (IH _ _ Hrest), (step_sequence_rel _ _ _ _ Hb1). split.
    + intros [[?|?]|(seq' & ? & ?)]; [by left | |].
      * right. exists seq. split; [left | done].
      * right. exists seq'. split; [by right | done].
    + intros [?|(seq' & [->|?]%elem_of_cons & ?)]; eauto.
Qed.

Lemma succ_in_seed (w1 w2 : string) :
  succ_in {[ OOV_TERM := {[ OOV_TERM ]} ]} w1 w2 ↔ w1 = OOV_TERM ∧ w2 = OOV_TERM.
Proof.
  unfold succ_in. split.
  - intros (s & [<- <-]%lookup_singleton_Some & ?). set_solver.
  - intros [-> ->]. exists {[OOV_TERM]}. rewrite lookup_singleton_eq. set_solver.
Qed.

(** Whatever the input shape and the options, the builder returns, and
    the arcs it writes, read back as pairs of words, are the seed OOV to
    OOV and what each sequence contributes under the options; no pair is
    written twice. *)
Theorem bigram_adjacency_under_options (a : word_sequences) (kw : kwargs) :
  ∃ t, bigram_fst a kw = Some t
    ∧ NoDup (parse_adjacency t)
    ∧ length (parse_adjacency t) = length (arcs t)
    ∧ ∀ w1 w2, (w1, w2) ∈ parse_adjacency t
        ↔ (w1 = OOV_TERM ∧ w2 = OOV_TERM)
          ∨ ∃ seq, seq ∈ normalize a ∧ seq_successor_opts kw seq w1 w2.
Proof.
  destruct (bigram_fst_spec a kw) as (b & ids & Hb & Hok & Hids & Hdom & ->).
  eexists. split; [done |].
  rewrite parse_adjacency_emit by done. cbn [arcs]. split_and!.
  - apply NoDup_adjacency_of.
  - unfold adjacency_of, block. apply length_bind_map.
  - intros w1 w2. rewrite elem_of_adjacency_of.
    unfold build_bigrams in Hb. by rewrite (build_rel _ _ _ _ Hb), succ_in_seed.
Qed.

(** A closed dict is determined by its successor relation. *)
Lemma bigrams_ok_ext (b b' : gmap string (gset string)) :
  bigrams_ok ∅ b → bigrams_ok ∅ b' →
  (∀ w1 w2, succ_in b w1 w2 ↔ succ_in b' w1 w2) →
  b = b'.
Proof.
  intros Hok Hok' Hrel.
  assert (Hle : ∀ b1 b2 : gmap string (gset string),
            bigrams_ok ∅ b1 →
            (∀ w1 w2, succ_in b1 w1 w2 ↔ succ_in b2 w1 w2) →
            ∀ k s, b1 !! k = Some s →
            ∃ s', b2 !! k = Some s' ∧ ∀ w, w ∈ s → w ∈ s').
  { intros b1 b2 Hok1 Hrel12 k s Hs.
    assert (∃ w, w ∈ s) as [w Hw].
    { apply set_choose_L. by eapply ok_nonempty. }
    destruct (proj1 (Hrel12 k w)) as (s' & Hs' & _); [by exists s |].
    exists s'. split; [done |]. intros w' Hw'.
    destruct (proj1 (Hrel12 k w')) as (s'' & Hs'' & ?); [by exists s |]. congruence. }
  apply map_eq. intros k.
  destruct (b !! k) as [s|] eqn:Hs, (b' !! k) as [s'|] eqn:Hs'.
  - f_equal. apply set_eq. intros w.
    destruct (Hle b b' Hok Hrel k s Hs) as (s1 & Hs1 & Hsub).
    destruct (Hle b' b Hok' (λ w1 w2, symmetry (Hrel w1 w2)) k s' Hs')
      as (s2 & Hs2 & Hsub').
    simplify_eq. split; auto.
  - destruct (Hle b b' Hok Hrel k s Hs) as (s1 & Hs1 & _). congruence.
  - destruct (Hle b' b Hok' (λ w1 w2, symmetry (Hrel w1 w2)) k s' Hs')
      as (s2 & Hs2 & _). congruence.
  - done.
Qed.

Lemma seq_successor_opts_nil (kw : kwargs) (w1 w2 : string) :
  ¬ seq_successor_opts kw [] w1 w2.
Proof. unfold seq_successor_opts, seq_successor. naive_solver. Qed.

Lemma contributes_normalize (kw : kwargs) (seqs : list (list string)) (w1 w2 : string) :
  (∃ seq, seq ∈ normalize (Nested seqs) ∧ seq_successor_opts kw seq w1 w2)
  ↔ ∃ seq, seq ∈ seqs ∧ seq_successor_opts kw seq w1 w2.
Proof.
  destruct seqs as [|s0 seqs]; [| done].
  change (normalize (Nested [])) with [[] : list string]. split.
  - intros (seq & ->%list_elem_of_singleton & []%seq_successor_opts_nil).
  - intros (? & ?%elem_of_nil & _). done.
Qed.

(** The bigram builder looks at the sequences as a set: two lists with the
    same sequences, in any order and any number of times, give the same
    bytes, whatever the options. *)
Theorem bigram_ignores_order_and_repetition (fmt_f : weight → string)
    (seqs seqs' : list (list string)) (kw : kwargs) :
  (∀ seq, seq ∈ seqs ↔ seq ∈ seqs') →
  make_bigram_lm_fst fmt_f (Nested seqs) kw = make_bigram_lm_fst fmt_f (Nested seqs') kw.
Proof.
  intros Hsame. unfold make_bigram_lm_fst, bigram_fst.
  destruct (build_bigrams_ok kw (normalize (Nested seqs))) as (b & Hb & Hok).
  destruct (build_bigrams_ok kw (normalize (Nested seqs'))) as (b' & Hb' & Hok').
  rewrite Hb, Hb'. do 3 f_equal. apply bigrams_ok_ext; [done | done |].
  intros w1 w2. unfold build_bigrams in Hb, Hb'.
  rewrite (build_rel _ _ _ _ Hb), (build_rel _ _ _ _ Hb'), !contributes_normalize.
  by setoid_rewrite Hsame.
Qed.

Lemma bigram_ignores_order_and_repetition_witness :
  make_bigram_lm_fst (λ _, "w") (Nested [["a"; "b"]; ["c"]; ["a"; "b"]]) no_kwargs
  = make_bigram_lm_fst (λ _, "w") (Nested [["c"]; ["a"; "b"]]) no_kwargs.
Proof.
  apply (bigram_ignores_order_and_repetition (λ _, "w")
           [["a"; "b"]; ["c"]; ["a"; "b"]] [["c"]; ["a"; "b"]] no_kwargs).
  intros seq. rewrite !elem_of_cons, !elem_of_nil. tauto.
Defined.

(** In what the bigram builder returns a node is a word: the ids of every
    arc lie between 1 and the node of the final line, the two labels of an
    arc are equal, two arcs enter the same node exactly when they carry the
    same label, every node is entered by an arc, and the node of the final
    line is the number of distinct labels. *)
Theorem bigram_nodes_are_words (a : word_sequences) (kw : kwargs) :
  ∃ t, bigram_fst a kw = Some t
    ∧ (∀ l, l ∈ arcs t →
         1 ≤ from_id l ≤ final_node t ∧ 1 ≤ to_id l ≤ final_node t
         ∧ olabel l = ilabel l)
    ∧ (∀ l1 l2, l1 ∈ arcs t → l2 ∈ arcs t →
         (to_id l1 = to_id l2 ↔ ilabel l1 = ilabel l2))
    ∧ (∀ n, 1 ≤ n ≤ final_node t → ∃ l, l ∈ arcs t ∧ to_id l = n)
    ∧ final_node t = size (list_to_set (ilabel <$> arcs t) : gset string).
Proof.
  destruct (bigram_fst_spec a kw) as (b & ids & _ & Hok & Hids & Hdom & ->).
  eexists. split; [done |]. cbn [arcs final_node].
  assert (Hsucc : ∀ k t, succ_in b k t → k ∈ dom ids ∧ t ∈ dom ids).
  { intros k t (s & Hs & Ht). rewrite Hdom. split; [by eapply elem_of_dom_2 |].
    apply (ok_closed _ _ Hok) in Hs. set_solver. }
  assert (Hnode : ∀ w, w ∈ dom ids → 1 ≤ node ids w ≤ size ids).
  { intros w [n Hn]%elem_of_dom. rewrite (node_lookup _ _ _ Hn).
    by eapply ids_range. }
  split_and!.
  - intros l (k & t & Hkt & ->)%elem_of_arcs. cbn.
    destruct (Hsucc _ _ Hkt). split_and!; [by apply Hnode .. | done].
  - intros l1 l2 (k1 & t1 & Hkt1 & ->)%elem_of_arcs (k2 & t2 & Hkt2 & ->)%elem_of_arcs.
    cbn. destruct (Hsucc _ _ Hkt1), (Hsucc _ _ Hkt2). split; [| by intros ->].
    by apply node_inj.
  - intros n Hn. destruct (ids_onto _ Hids n Hn) as [w Hw].
    destruct (ok_reached _ _ Hok w) as [k Hk].
    { rewrite <- Hdom. apply elem_of_union_l. by eapply elem_of_dom_2. }
    eexists. split; [apply elem_of_arcs; eauto |]. cbn. by apply node_lookup.
  - rewrite <- (size_dom (D := gset string) ids), Hdom. f_equal.
    apply set_eq. intros w. rewrite elem_of_list_to_set, list_elem_of_fmap. split.
    + intros Hw. destruct (ok_reached _ _ Hok w ltac:(set_solver)) as [k Hk].
      eexists. split; [| apply elem_of_arcs; eauto]. done.
    + intros (l & -> & (k & t & Hkt & ->)%elem_of_arcs). cbn.
      rewrite <- Hdom. by apply (Hsucc k).
Qed.

(** ** The transcript builder: which nodes the arcs join *)

Lemma walk_exact (kw : kwargs) (e len : Z) (ws : list string) :
  ∀ i st, ws ≠ [] → (Z.of_nat (length ws) + i = len)%Z →
  (length ws = 1 → Transcript.next_node_id st = e) →
  (1 < length ws →
   Transcript.next_available_node_id st = (Transcript.next_node_id st + 1)%Z) →
  Transcript.output (Transcript.walk kw e len i ws st)
  ≡ₚ (Transcript.output st
      ++ chain_arcs (chain_from e (Transcript.cur_node_id st)
                       (Transcript.next_node_id st) (length ws - 1)) ws
      ++ loops_at kw (Transcript.next_node_id st) (Z.of_nat (length ws) - 1))%list
  ∧ Transcript.start_node_flag (Transcript.walk kw e len i ws st)
    = Transcript.start_node_flag st
  ∧ Transcript.end_node_flag (Transcript.walk kw e len i ws st)
    = Transcript.end_node_flag st.
Proof.
  induction ws as [|word rest IH]; intros i st Hne Hlen Hone Hmore; [done |].
  cbn [Transcript.walk]. case_bool_decide as Hlast.
  - destruct rest as [|w2 rest]; [| cbn [length] in Hlen; lia].
    split_and!; [| done | done]. cbn. by rewrite ?app_nil_r.
  - destruct rest as [|w2 rest]; [cbn [length] in Hlen; lia |].
    set (st1 := Transcript.append _ st).
    set (st2 := if bool_decide (i = len - 2)%Z
                then Transcript.step_to_end e st1 else Transcript.step_to_fresh st1).
    set (st3 := Transcript.append (Transcript.self_loops kw (Transcript.cur_node_id st2)) st2).
    assert (Hcur3 : Transcript.cur_node_id st3 = Transcript.next_node_id st)
      by (subst st3 st2; by case_bool_decide).
    assert (Hnext3 : Transcript.next_node_id st3
                     = match length rest with
                       | 0 => e
                       | S _ => (Transcript.next_node_id st + 1)%Z
                       end).
    { subst st3 st2. specialize (Hmore ltac:(cbn [length]; lia)).
      case_bool_decide as Hpen; destruct rest; cbn [length] in *; try lia; cbn.
      - done.
      - done. }
    assert (Hna3 : 1 < length (w2 :: rest) →
                   Transcript.next_available_node_id st3
                   = (Transcript.next_node_id st3 + 1)%Z).
    { intros Hlong. rewrite Hnext3. specialize (Hmore ltac:(cbn [length]; lia)).
      subst st3 st2. destruct rest; cbn [length] in *; [lia |].
      rewrite bool_decide_eq_false_2 by lia. cbn. lia. }
    assert (Hout3 : Transcript.output st3
                    = (Transcript.output st
                       ++ Transcript.word_arcs (Transcript.cur_node_id st)
                            (Transcript.next_node_id st) word
                       ++ Transcript.self_loops kw (Transcript.next_node_id st))%list).
    { subst st3 st2. case_bool_decide; cbn; by rewrite <- app_assoc. }
    assert (Hflags3 : Transcript.start_node_flag st3 = Transcript.start_node_flag st
                      ∧ Transcript.end_node_flag st3 = Transcript.end_node_flag st)
      by (subst st3 st2; by case_bool_decide).
    destruct (IH (i + 1)%Z st3) as (Hperm & Hsf & Hef).
    + done.
    + cbn [length] in *. lia.
    + intros Hrest. rewrite Hnext3. by destruct rest.
    + done.
    + split_and!; [| by rewrite Hsf, (proj1 Hflags3) | by rewrite Hef, (proj2 Hflags3)].
      rewrite Hperm, Hout3, Hcur3, Hnext3.
      change (length (word :: w2 :: rest) - 1) with (S (length rest)).
      replace (length (w2 :: rest) - 1) with (length rest) by (cbn [length]; lia).
      cbn [chain_from]. rewrite chain_arcs_cons. cbn [fst snd].
      unfold loops_at.
      replace (Z.of_nat (length (word :: w2 :: rest)) - 1)%Z
        with (Z.succ (Z.of_nat (length rest))) by (cbn [length]; lia).
      rewrite (seqZ_cons (Transcript.next_node_id st)) by lia. cbn [map concat].
      replace (Z.pred (Z.succ (Z.of_nat (length rest))))
        with (Z.of_nat (length (w2 :: rest)) - 1)%Z by (cbn [length]; lia).
      replace (Z.succ (Transcript.next_node_id st))
        with (Transcript.next_node_id st + 1)%Z by lia.
      assert (Hloops : concat (map (Transcript.self_loops kw)
                         (seqZ (match length rest with
                                | 0 => e
                                | S _ => (Transcript.next_node_id st + 1)%Z
                                end) (Z.of_nat (length (w2 :: rest)) - 1)))
                       = concat (map (Transcript.self_loops kw)
                           (seqZ (Transcript.next_node_id st + 1)
                              (Z.of_nat (length (w2 :: rest)) - 1)))).
      { destruct rest; [done | done]. }
      rewrite Hloops. solve_Permutation.
Qed.

Lemma loops_at_app (kw : kwargs) (a n1 n2 : Z) :
  (0 ≤ n1)%Z → (0 ≤ n2)%Z →
  loops_at kw a (n1 + n2) = (loops_at kw a n1 ++ loops_at kw (a + n1) n2)%list.
Proof.
  intros H1 H2. unfold loops_at. by rewrite seqZ_app, map_app, concat_app.
Qed.

Lemma loops_at_0 (kw : kwargs) (a : Z) : loops_at kw a 0 = [].
Proof. done. Qed.

Lemma step_sequence_exact (kw : kwargs) (e : Z) (st : Transcript.state)
    (seq : list string) :
  Transcript.output (Transcript.step_sequence kw e st seq)
  ≡ₚ (Transcript.output st
      ++ chain_arcs (chain_of e (Transcript.next_available_node_id st) (length seq)) seq
      ++ loops_at kw (Transcript.next_available_node_id st)
           (Z.max (Z.of_nat (length seq) - 1) 0)
      ++ (if Transcript.start_node_flag st && bool_decide (seq ≠ [])
          then Transcript.self_loops kw 0 else [])
      ++ (if Transcript.end_node_flag st && bool_decide (seq ≠ [])
          then Transcript.self_loops kw e else []))%list
  ∧ Transcript.start_node_flag (Transcript.step_sequence kw e st seq)
    = Transcript.start_node_flag st && bool_decide (seq = [])
  ∧ Transcript.end_node_flag (Transcript.step_sequence kw e st seq)
    = Transcript.end_node_flag st && bool_decide (seq = []).
Proof.
  destruct seq as [|w ws].
  { cbn. rewrite !andb_false_r, !andb_true_r. cbn. by rewrite app_nil_r. }
  unfold Transcript.step_sequence.
  rewrite (bool_decide_eq_true_2 (w :: ws ≠ [])) by done.
  rewrite (bool_decide_eq_false_2 (w :: ws = [])) by done.
  rewrite !andb_true_r, !andb_false_r.
  set (st0 := Transcript.enter_start kw st).
  set (st1 := Transcript.first_target e (w :: ws) st0).
  set (a := Transcript.next_available_node_id st).
  assert (Hout1 : Transcript.output st1
                  = (Transcript.output st
                     ++ (if Transcript.start_node_flag st
                         then Transcript.self_loops kw 0 else []))%list).
  { subst st1 st0. unfold Transcript.first_target, Transcript.enter_start.
    case_bool_decide; destruct (Transcript.start_node_flag st); cbn;
      by rewrite ?app_nil_r. }
  assert (Hcur1 : Transcript.cur_node_id st1 = 0%Z).
  { subst st1 st0. unfold Transcript.first_target, Transcript.enter_start.
    case_bool_decide; by destruct (Transcript.start_node_flag st). }
  assert (Hnext1 : Transcript.next_node_id st1 = match ws with [] => e | _ => a end).
  { subst st1 st0 a. unfold Transcript.first_target, Transcript.enter_start.
    destruct ws; cbn [length]; [rewrite bool_decide_eq_true_2 by done
                               | rewrite bool_decide_eq_false_2 by lia];
      by destruct (Transcript.start_node_flag st). }
  assert (Hna1 : 1 < length (w :: ws) →
                 Transcript.next_available_node_id st1
                 = (Transcript.next_node_id st1 + 1)%Z).
  { intros Hlong. rewrite Hnext1. subst st1 st0 a.
    unfold Transcript.first_target, Transcript.enter_start.
    destruct ws; cbn [length] in *; [lia |].
    rewrite bool_decide_eq_false_2 by lia.
    by destruct (Transcript.start_node_flag st). }
  assert (Hflags1 : Transcript.start_node_flag st1 = false
                    ∧ Transcript.end_node_flag st1 = Transcript.end_node_flag st).
  { subst st1 st0. unfold Transcript.first_target, Transcript.enter_start.
    case_bool_decide; by destruct (Transcript.start_node_flag st) eqn:Hsf. }
  destruct (walk_exact kw e (Z.of_nat (length (w :: ws))) (w :: ws) 0 st1)
    as (Hperm & Hsf & Hef); [done | lia | | done |].
  { intros Hone. rewrite Hnext1. by destruct ws. }
  set (st2 := Transcript.walk _ _ _ _ _ _) in *.
  destruct Hflags1 as [Hsf1 Hef1]. rewrite Hsf1 in Hsf. rewrite Hef1 in Hef.
  assert (Hchain : chain_from e (Transcript.cur_node_id st1) (Transcript.next_node_id st1)
                     (length (w :: ws) - 1)
                   = chain_of e a (length (w :: ws))).
  { rewrite Hcur1, Hnext1. by destruct ws. }
  assert (Hloops : loops_at kw (Transcript.next_node_id st1)
                     (Z.of_nat (length (w :: ws)) - 1)
                   = loops_at kw a (Z.max (Z.of_nat (length (w :: ws)) - 1) 0)).
  { rewrite Hnext1. destruct ws; [done |]. f_equal. cbn [length]. lia. }
  rewrite Hchain, Hloops, Hout1 in Hperm.
  unfold Transcript.leave_end. rewrite Hef.
  destruct (Transcript.end_node_flag st); cbn [Transcript.output
    Transcript.start_node_flag Transcript.end_node_flag].
  - split_and!; [| done | done]. rewrite Hperm. solve_Permutation.
  - split_and!; [| done | done]. rewrite Hperm. solve_Permutation.
Qed.

Lemma any_word_cons (seq : list string) (seqs : list (list string)) :
  any_word (seq :: seqs) = bool_decide (seq ≠ []) || any_word seqs.
Proof.
  unfold any_word. rewrite <- bool_decide_or. apply bool_decide_ext.
  by rewrite Exists_cons.
Qed.

(** What the loop over the sequences writes, up to order: the word arcs
    along the chains, the filler loops of every fresh node, and the filler
    loops of the start node and of the end node once, if a sequence has a
    word. *)
Lemma run_exact (kw : kwargs) (e : Z) (seqs : list (list string)) :
  ∀ st,
    Transcript.output (foldl (Transcript.step_sequence kw e) st seqs)
    ≡ₚ (Transcript.output st
        ++ chains e (Transcript.next_available_node_id st) seqs
        ++ loops_at kw (Transcript.next_available_node_id st) (Spec.end_node_id seqs - 1)
        ++ (if Transcript.start_node_flag st && any_word seqs
            then Transcript.self_loops kw 0 else [])
        ++ (if Transcript.end_node_flag st && any_word seqs
            then Transcript.self_loops kw e else []))%list.
Proof.
  induction seqs as [|seq seqs IH]; intros st; cbn [foldl chains].
  { unfold any_word. rewrite bool_decide_eq_false_2 by (by intros ?%Exists_nil).
    rewrite !andb_false_r. change (Spec.end_node_id [] - 1)%Z with 0%Z.
    rewrite loops_at_0. by rewrite !app_nil_r. }
  destruct (step_sequence_exact kw e st seq) as (Hperm & Hsf & Hef).
  rewrite IH, Hperm, Hsf, Hef, step_sequence_next_available, any_word_cons.
  assert (Htotal : (Spec.end_node_id (seq :: seqs) - 1
                    = Z.max (Z.of_nat (length seq) - 1) 0 + (Spec.end_node_id seqs - 1))%Z)
    by (unfold Spec.end_node_id; cbn [map foldr]; lia).
  assert (Hpos : (0 ≤ Spec.end_node_id seqs - 1)%Z).
  { unfold Spec.end_node_id. clear. induction seqs; cbn [map foldr]; lia. }
  rewrite Htotal, loops_at_app by lia.
  destruct seq as [|w ws].
  - rewrite (bool_decide_eq_false_2 ([] ≠ [])) by naive_solver.
    rewrite (bool_decide_eq_true_2 ([] = [])) by done.
    rewrite !andb_true_r, !andb_false_r. cbn [orb].
    cbn [length chain_of chain_arcs zip_with concat].
    change (Z.max (Z.of_nat 0 - 1) 0) with 0%Z. rewrite loops_at_0, Z.add_0_r.
    solve_Permutation.
  - rewrite (bool_decide_eq_true_2 (w :: ws ≠ [])) by done.
    rewrite (bool_decide_eq_false_2 (w :: ws = [])) by done.
    rewrite !andb_true_r, !andb_false_r. cbn [orb andb].
    destruct (Transcript.start_node_flag st), (Transcript.end_node_flag st);
      solve_Permutation.
Qed.

Lemma chain_from_bounds (e : Z) (rest : nat) :
  ∀ cur next, (0 ≤ cur < next)%Z →
  match rest with
  | 0 => (next ≤ e)%Z
  | S _ => (next + Z.of_nat rest ≤ e)%Z
  end →
  Forall (λ hop : Z * Z, (0 ≤ hop.1 < hop.2 ∧ hop.2 ≤ e)%Z) (chain_from e cur next rest).
Proof.
  induction rest as [|r IH]; intros cur next Hcur Hnext; cbn [chain_from].
  - repeat constructor; cbn; lia.
  - constructor; [cbn; lia |]. apply IH; destruct r; lia.
Qed.

Lemma chain_of_bounds (e a : Z) (n : nat) :
  (1 ≤ a)%Z → (a + Z.max (Z.of_nat n - 1) 0 ≤ e)%Z →
  Forall (λ hop : Z * Z, (0 ≤ hop.1 < hop.2 ∧ hop.2 ≤ e)%Z) (chain_of e a n).
Proof.
  intros Ha He. destruct n as [|[|m]]; cbn [chain_of].
  - constructor.
  - apply chain_from_bounds; lia.
  - apply chain_from_bounds; lia.
Qed.

Lemma chain_arcs_Forall (P : Z * Z → Prop) (hops : list (Z * Z)) :
  Forall P hops →
  ∀ ws, Forall (λ arc, P (edge_src arc, edge_tgt arc)) (chain_arcs hops ws).
Proof.
  induction 1 as [|[s t] hops Hhop _ IH]; intros ws; [constructor |].
  destruct ws as [|w ws]; [constructor |].
  rewrite chain_arcs_cons. apply Forall_app. split; [| apply IH].
  repeat constructor; done.
Qed.

Lemma end_node_id_ge_1 (seqs : list (list string)) : (1 ≤ Spec.end_node_id seqs)%Z.
Proof. unfold Spec.end_node_id. induction seqs; cbn [map foldr]; lia. Qed.

Lemma chains_bounds (e : Z) (seqs : list (list string)) :
  ∀ a, (1 ≤ a)%Z → (a + (Spec.end_node_id seqs - 1) ≤ e)%Z →
  Forall (λ arc, (0 ≤ edge_src arc < edge_tgt arc ∧ edge_tgt arc ≤ e)%Z)
         (chains e a seqs).
Proof.
  induction seqs as [|seq seqs IH]; intros a Ha He; cbn [chains]; [constructor |].
  assert (Htotal : (Spec.end_node_id (seq :: seqs) - 1
                    = Z.max (Z.of_nat (length seq) - 1) 0 + (Spec.end_node_id seqs - 1))%Z)
    by (unfold Spec.end_node_id; cbn [map foldr]; lia).
  pose proof (end_node_id_ge_1 seqs).
  apply Forall_app. split.
  - apply (chain_arcs_Forall (λ hop, (0 ≤ hop.1 < hop.2 ∧ hop.2 ≤ e)%Z)).
    apply chain_of_bounds; lia.
  - apply IH; lia.
Qed.

Lemma self_loops_ends (kw : kwargs) (m : Z) :
  Forall (λ arc, edge_src arc = m ∧ edge_tgt arc = m) (Transcript.self_loops kw m).
Proof.
  unfold Transcript.self_loops. apply Forall_app. split.
  - destruct (disfluency kw); [| constructor].
    induction (disfluencies kw); constructor; done.
  - destruct (conservative kw); repeat constructor.
Qed.

Lemma loops_at_loops (kw : kwargs) (a n : Z) :
  Forall (λ arc, is_filler kw arc ∧ edge_src arc = edge_tgt arc
                 ∧ (a ≤ edge_src arc < a + n)%Z) (loops_at kw a n).
Proof.
  unfold loops_at. apply Forall_concat, Forall_forall.
  intros l Hl. apply list_elem_of_In, in_map_iff in Hl as (m & <- & Hm).
  apply list_elem_of_In, elem_of_seqZ in Hm.
  pose proof (self_loops_fillers kw m) as Hfill.
  pose proof (self_loops_ends kw m) as Hends.
  rewrite Forall_forall in Hfill, Hends. apply Forall_forall. intros arc Harc.
  destruct (Hends arc Harc) as [-> Ht]. rewrite Ht. split_and!; [by apply Hfill | done | lia | lia].
Qed.

(** For a list of sequences that is not empty and has no empty sequence,
    the arcs the transcript builder returns are, up to order, the word
    arcs of the chains (sequence after sequence, each chain through fresh
    nodes of its own, numbered from 1 in the order of the sequences) and
    the filler loops of each node from 0 to the end node, once per node.
    Every word arc goes from a node to a node with a greater id, between 0
    and the end node. *)
Theorem transcript_arcs_along_chains (fmt_float : float → string)
    (seqs : list (list string)) (kw : kwargs) :
  seqs ≠ [] → Forall (λ seq, seq ≠ []) seqs →
  ∃ arcs,
    Transcript.make_transcript_fst fmt_float (Nested seqs) kw
    = Transcript.Returned
        (Transcript.render fmt_float arcs (Transcript.end_node_id_of seqs))
    ∧ arcs ≡ₚ (chains (Transcript.end_node_id_of seqs) 1 seqs
               ++ loops_at kw 0 (Transcript.end_node_id_of seqs + 1))%list
    ∧ Forall (λ arc, (0 ≤ edge_src arc < edge_tgt arc
                      ∧ edge_tgt arc ≤ Transcript.end_node_id_of seqs)%Z)
             (chains (Transcript.end_node_id_of seqs) 1 seqs)
    ∧ Forall (λ arc, is_filler kw arc ∧ edge_src arc = edge_tgt arc
                     ∧ (0 ≤ edge_src arc < 0 + (Transcript.end_node_id_of seqs + 1))%Z)
             (loops_at kw 0 (Transcript.end_node_id_of seqs + 1)).
Proof.
  intros Hne Hall.
  assert (He : Transcript.end_node_id_of seqs = Spec.end_node_id seqs).
  { rewrite <- (run_next_available kw). by apply assertion_iff. }
  pose proof (end_node_id_ge_1 seqs) as Hge.
  exists (Transcript.sort_edges (Transcript.output (Transcript.run kw seqs))).
  split_and!.
  - destruct seqs as [|seq seqs]; [done |].
    unfold Transcript.make_transcript_fst. rewrite normalize_nested_cons. cbn zeta.
    rewrite bool_decide_eq_true_2; [done |]. by apply assertion_iff.
  - rewrite sort_edges_perm. unfold Transcript.run.
    rewrite run_exact. cbn [Transcript.init Transcript.output
      Transcript.next_available_node_id Transcript.start_node_flag
      Transcript.end_node_flag].
    assert (Hany : any_word seqs = true).
    { unfold any_word. apply bool_decide_eq_true_2.
      destruct Hall as [|seq seqs Hseq _]; [done |]. by left. }
    rewrite Hany. cbn [andb app].
    replace (Transcript.end_node_id_of seqs + 1)%Z
      with (1 + ((Spec.end_node_id seqs - 1) + 1))%Z by lia.
    rewrite !loops_at_app by lia.
    replace (0 + 1)%Z with 1%Z by lia.
    replace (1 + (Spec.end_node_id seqs - 1))%Z
      with (Transcript.end_node_id_of seqs) by lia.
    assert (Hone : ∀ m, loops_at kw m 1 = Transcript.self_loops kw m).
    { intros m. unfold loops_at. rewrite (seqZ_cons m) by lia. cbn. by rewrite app_nil_r. }
    rewrite !Hone. solve_Permutation.
  - apply chains_bounds; lia.
  - apply loops_at_loops.
Qed.

Lemma transcript_arcs_along_chains_witness :
  ∃ arcs,
    Transcript.make_transcript_fst (λ _, "w") (Nested [["a"; "b"; "c"]; ["d"]])
      (Kwargs (Some true) None None)
    = Transcript.Returned
        (Transcript.render (λ _, "w") arcs
           (Transcript.end_node_id_of [["a"; "b"; "c"]; ["d"]]))
    ∧ arcs ≡ₚ (chains (Transcript.end_node_id_of [["a"; "b"; "c"]; ["d"]]) 1
                 [["a"; "b"; "c"]; ["d"]]
               ++ loops_at (Kwargs (Some true) None None) 0
                    (Transcript.end_node_id_of [["a"; "b"; "c"]; ["d"]] + 1))%list
    ∧ Forall (λ arc, (0 ≤ edge_src arc < edge_tgt arc
                      ∧ edge_tgt arc
                        ≤ Transcript.end_node_id_of [["a"; "b"; "c"]; ["d"]])%Z)
             (chains (Transcript.end_node_id_of [["a"; "b"; "c"]; ["d"]]) 1
                [["a"; "b"; "c"]; ["d"]])
    ∧ Forall (λ arc, is_filler (Kwargs (Some true) None None) arc
                     ∧ edge_src arc = edge_tgt arc
                     ∧ (0 ≤ edge_src arc
                        < 0 + (Transcript.end_node_id_of [["a"; "b"; "c"]; ["d"]] + 1))%Z)
             (loops_at (Kwargs (Some true) None None) 0
                (Transcript.end_node_id_of [["a"; "b"; "c"]; ["d"]] + 1)).
Proof.
  apply (transcript_arcs_along_chains (λ _, "w") [["a"; "b"; "c"]; ["d"]]
           (Kwargs (Some true) None None)).
  - discriminate.
  - repeat constructor; discriminate.
Defined.

(** ** The driver: what is left on the disk *)

Section DriverFiles.

Variable mkgraph : string → string → string → Driver.M unit.
Variables txt_fst_name hclg_filename proto_langdir : string.
Hypothesis Hnames : txt_fst_name ≠ hclg_filename.

(** The cleanup after a failure removes the output file when it is there
    and may be removed, and nothing else. *)
Lemma handler_removes_output (e : Driver.exn) (w : Driver.world) :
  ∃ w', Driver.bind
          (Driver.try_except (Driver.os_unlink hclg_filename) (λ _, Driver.ret tt))
          (λ _, Driver.raise (A := unit) e) w = (inr e, w')
        ∧ Driver.undeletable w' = Driver.undeletable w
        ∧ (∀ p, p ≠ hclg_filename → Driver.files w' !! p = Driver.files w !! p)
        ∧ (hclg_filename ∉ Driver.undeletable w →
           Driver.files w' !! hclg_filename = None).
Proof.
  unfold Driver.bind, Driver.try_except, Driver.os_unlink, Driver.ret, Driver.raise.
  destruct (Driver.files w !! hclg_filename) eqn:Hfile; [case_bool_decide |]; cbn.
  - exists w. split_and!; done.
  - eexists. split_and!; [done | done | |].
    + intros p Hp. cbn. by rewrite lookup_delete_ne.
    + intros _. cbn. apply lookup_delete_eq.
  - exists w. split_and!; done.
Qed.

Lemma compile_graph_failure_files (e : Driver.exn) (w w1 : Driver.world) :
  mkgraph proto_langdir txt_fst_name hclg_filename w = (inr e, w1) →
  is_Some (Driver.files w1 !! txt_fst_name) →
  txt_fst_name ∉ Driver.undeletable w1 →
  hclg_filename ∉ Driver.undeletable w1 →
  ∃ w2, Driver.compile_graph mkgraph txt_fst_name hclg_filename proto_langdir w
        = (inr e, w2)
        ∧ Driver.files w2 = delete txt_fst_name (delete hclg_filename (Driver.files w1)).
Proof.
  intros Hrun [data Hdata] Hdel Hdel'.
  unfold Driver.compile_graph, Driver.try_finally.
  unfold Driver.try_except at 1. rewrite Hrun.
  destruct (handler_removes_output e w1) as (w' & -> & Hund & Hfiles & Hgone).
  unfold Driver.os_unlink. rewrite Hfiles, Hdata by done.
  rewrite bool_decide_eq_false_2 by by rewrite Hund.
  eexists. split; [done |]. cbn. apply map_eq. intros p.
  destruct (decide (p = txt_fst_name)) as [->|Hp1].
  { by rewrite !lookup_delete_eq. }
  rewrite !(lookup_delete_ne _ txt_fst_name) by done.
  destruct (decide (p = hclg_filename)) as [->|Hp2].
  - rewrite lookup_delete_eq. by apply Hgone.
  - rewrite lookup_delete_ne by done. by apply Hfiles.
Qed.

Lemma compile_graph_success (w w1 : Driver.world) :
  mkgraph proto_langdir txt_fst_name hclg_filename w = (inl tt, w1) →
  is_Some (Driver.files w1 !! txt_fst_name) →
  txt_fst_name ∉ Driver.undeletable w1 →
  Driver.compile_graph mkgraph txt_fst_name hclg_filename proto_langdir w
  = (inl tt, Driver.World (delete txt_fst_name (Driver.files w1)) (Driver.undeletable w1)).
Proof.
  intros Hrun [data Hdata] Hdel.
  unfold Driver.compile_graph, Driver.try_finally.
  unfold Driver.try_except at 1. rewrite Hrun.
  unfold Driver.os_unlink. rewrite Hdata.
  by rewrite bool_decide_eq_false_2.
Qed.

End DriverFiles.

(** When the compiler succeeds and the temporary input file can be
    removed, [make_bigram_language_model] returns the name of the graph
    file; the input file is removed and every other file, the graph file
    among them, is left as the compiler left it. *)
Theorem compiler_success_returns_graph_path (fmt_f : weight → string)
    (mkgraph : string → string → string → Driver.M unit)
    (txt_fst_name hclg_filename proto_langdir : string)
    (kaldi_seq : word_sequences) (kw : kwargs)
    (w w1 : Driver.world) (bytes : string) :
  make_bigram_lm_fst fmt_f kaldi_seq kw = Some bytes →
  mkgraph proto_langdir txt_fst_name hclg_filename
    (Driver.World (<[txt_fst_name := bytes]> (Driver.files w)) (Driver.undeletable w))
  = (inl tt, w1) →
  is_Some (Driver.files w1 !! txt_fst_name) →
  txt_fst_name ∉ Driver.undeletable w1 →
  ∃ w2, Driver.make_bigram_language_model fmt_f mkgraph txt_fst_name hclg_filename
          kaldi_seq proto_langdir kw w = (inl hclg_filename, w2)
        ∧ Driver.files w2 !! txt_fst_name = None
        ∧ ∀ p, p ≠ txt_fst_name → Driver.files w2 !! p = Driver.files w1 !! p.
Proof.
  intros Hbytes Hrun Hfile Hdel.
  unfold Driver.make_bigram_language_model. rewrite Hbytes.
  unfold Driver.bind at 1. cbn [Driver.write_temp].
  unfold Driver.bind at 1.
  rewrite (compile_graph_success mkgraph txt_fst_name hclg_filename proto_langdir
             _ w1 Hrun Hfile Hdel).
  eexists. split_and!; [done | |]; cbn [Driver.files].
  - apply lookup_delete_eq.
  - intros p Hp. by rewrite lookup_delete_ne.
Qed.

Lemma compiler_success_returns_graph_path_witness :
  ∃ w2, Driver.make_bigram_language_model (λ _, "0.000000")
          (λ _ _ hclg, Driver.write_temp hclg "graph")
          "/tmp/tmpa1b2c3" "/tmp/tmpd4e5f6_HCLG.fst"
          (Flat ["a"]) "proto" no_kwargs (Driver.World ∅ ∅)
        = (inl "/tmp/tmpd4e5f6_HCLG.fst", w2)
        ∧ Driver.files w2 !! "/tmp/tmpa1b2c3" = None
        ∧ ∀ p, p ≠ "/tmp/tmpa1b2c3" →
            Driver.files w2 !! p
            = Driver.files
                (Driver.World
                   (<["/tmp/tmpd4e5f6_HCLG.fst" := "graph"]>
                      (<["/tmp/tmpa1b2c3" :=
                           default "" (make_bigram_lm_fst (λ _, "0.000000")
                                         (Flat ["a"]) no_kwargs)]> ∅)) ∅) !! p.
Proof.
  eapply (compiler_success_returns_graph_path (λ _, "0.000000")
            (λ _ _ hclg, Driver.write_temp hclg "graph")
            "/tmp/tmpa1b2c3" "/tmp/tmpd4e5f6_HCLG.fst" "proto" (Flat ["a"]) no_kwargs
            (Driver.World ∅ ∅)).
  - vm_compute. reflexivity.
  - vm_compute. reflexivity.
  - vm_compute. by eexists.
  - cbn [Driver.undeletable]. set_solver.
Defined.

(** When the compiler fails and both temporary files may be removed,
    [make_bigram_language_model] raises the failure of the compiler and
    leaves neither the input file nor a partly written graph file. *)
Theorem compiler_failure_leaves_no_files (fmt_f : weight → string)
    (mkgraph : string → string → string → Driver.M unit)
    (txt_fst_name hclg_filename proto_langdir : string)
    (kaldi_seq : word_sequences) (kw : kwargs) (e : Driver.exn)
    (w w1 : Driver.world) (bytes : string) :
  txt_fst_name ≠ hclg_filename →
  make_bigram_lm_fst fmt_f kaldi_seq kw = Some bytes →
  mkgraph proto_langdir txt_fst_name hclg_filename
    (Driver.World (<[txt_fst_name := bytes]> (Driver.files w)) (Driver.undeletable w))
  = (inr e, w1) →
  is_Some (Driver.files w1 !! txt_fst_name) →
  txt_fst_name ∉ Driver.undeletable w1 →
  hclg_filename ∉ Driver.undeletable w1 →
  ∃ w2, Driver.make_bigram_language_model fmt_f mkgraph txt_fst_name hclg_filename
          kaldi_seq proto_langdir kw w = (inr e, w2)
        ∧ Driver.files w2 !! txt_fst_name = None
        ∧ Driver.files w2 !! hclg_filename = None
        ∧ ∀ p, p ≠ txt_fst_name → p ≠ hclg_filename →
            Driver.files w2 !! p = Driver.files w1 !! p.
Proof.
  intros Hne Hbytes Hrun Hfile Hdel Hdel'.
  unfold Driver.make_bigram_language_model. rewrite Hbytes.
  unfold Driver.bind at 1. cbn [Driver.write_temp].
  unfold Driver.bind at 1.
  destruct (compile_graph_failure_files mkgraph txt_fst_name hclg_filename
              proto_langdir Hne e _ w1 Hrun Hfile Hdel Hdel') as (w2 & -> & Hfiles).
  exists w2. rewrite Hfiles. split_and!; [done | | |].
  - apply lookup_delete_eq.
  - rewrite lookup_delete_ne by done. apply lookup_delete_eq.
  - intros p Hp1 Hp2. by rewrite !lookup_delete_ne.
Qed.

Lemma compiler_failure_leaves_no_files_witness :
  ∃ w2, Driver.make_bigram_language_model (λ _, "0.000000")
          (λ _ _ hclg, Driver.bind (Driver.write_temp hclg "half a graph")
                         (λ _, Driver.raise (Driver.CalledProcessError 1)))
          "/tmp/tmpa1b2c3" "/tmp/tmpd4e5f6_HCLG.fst"
          (Flat ["a"]) "proto" no_kwargs (Driver.World ∅ ∅)
        = (inr (Driver.CalledProcessError 1), w2)
        ∧ Driver.files w2 !! "/tmp/tmpa1b2c3" = None
        ∧ Driver.files w2 !! "/tmp/tmpd4e5f6_HCLG.fst" = None
        ∧ ∀ p, p ≠ "/tmp/tmpa1b2c3" → p ≠ "/tmp/tmpd4e5f6_HCLG.fst" →
            Driver.files w2 !! p
            = Driver.files
                (Driver.World
                   (<["/tmp/tmpd4e5f6_HCLG.fst" := "half a graph"]>
                      (<["/tmp/tmpa1b2c3" :=
                           default "" (make_bigram_lm_fst (λ _, "0.000000")
                                         (Flat ["a"]) no_kwargs)]> ∅)) ∅) !! p.
Proof.
  eapply (compiler_failure_leaves_no_files (λ _, "0.000000")
            (λ _ _ hclg, Driver.bind (Driver.write_temp hclg "half a graph")
                           (λ _, Driver.raise (Driver.CalledProcessError 1)))
            "/tmp/tmpa1b2c3" "/tmp/tmpd4e5f6_HCLG.fst" "proto" (Flat ["a"]) no_kwargs
            (Driver.CalledProcessError 1) (Driver.World ∅ ∅)).
  - done.
  - vm_compute. reflexivity.
  - vm_compute. reflexivity.
  - vm_compute. by eexists.
  - cbn [Driver.undeletable]. set_solver.
  - cbn [Driver.undeletable]. set_solver.
Defined.

(** ** The shards of [align_cuts.py] *)

Lemma cuts_of_job_spec (job_id total_jobs : Z) (icuts : list nat) :
  total_jobs ≠ 0%Z →
  ∃ mine, AlignCuts.cuts_of_job job_id total_jobs icuts = Some mine
    ∧ mine = filter (λ icut, (Z.of_nat icut `mod` total_jobs + 1 = job_id)%Z) icuts.
Proof.
  intros Hne. induction icuts as [|icut rest (mine & IH & ->)]; [by exists [] |].
  cbn [AlignCuts.cuts_of_job]. unfold AlignCuts.other_job.
  rewrite bool_decide_eq_false_2 by done. rewrite IH. eexists. split; [done |].
  rewrite filter_cons. by case_bool_decide; case_decide.
Qed.

(** With [total_jobs] jobs, numbered from 1, every cut gets past the test
    of line 63 in exactly one job, and the number of that job lies between
    1 and [total_jobs]: a job with another number skips every cut. *)
Theorem shards_partition_the_cuts (total_jobs : Z) (n : nat) (icut : nat) :
  (0 < total_jobs)%Z → icut < n →
  ∃ job_id, (1 ≤ job_id ≤ total_jobs)%Z
    ∧ ∀ j, (∃ mine, AlignCuts.cuts_of_job j total_jobs (seq 0 n) = Some mine
                    ∧ icut ∈ mine)
           ↔ j = job_id.
Proof.
  intros Hpos Hlt. exists (Z.of_nat icut `mod` total_jobs + 1)%Z. split.
  - pose proof (Z.mod_pos_bound (Z.of_nat icut) total_jobs Hpos). lia.
  - intros j. destruct (cuts_of_job_spec j total_jobs (seq 0 n)) as (mine & Hmine & ->);
      [lia |].
    rewrite Hmine. split.
    + intros (mine & [= <-] & Hin). by apply list_elem_of_filter in Hin as [<- _].
    + intros ->. eexists. split; [done |]. apply list_elem_of_filter. split; [done |].
      apply list_elem_of_In, in_seq. lia.
Qed.

Lemma shards_partition_the_cuts_witness :
  ∃ job_id, (1 ≤ job_id ≤ 4)%Z
    ∧ ∀ j, (∃ mine, AlignCuts.cuts_of_job j 4 (seq 0 10) = Some mine ∧ 6 ∈ mine)
           ↔ j = job_id.
Proof. apply (shards_partition_the_cuts 4 10 6); lia. Defined.

(** ** The order of the lines of the bigram builder *)

Lemma string_compare_le_trans (a b c : string) :
  String.compare a b ≠ Gt → String.compare b c ≠ Gt → String.compare a c ≠ Gt.
Proof.
  revert b c. induction a as [|x a IH]; intros [|y b] [|z c]; cbn; try done.
  unfold Ascii.compare.
  destruct (N.compare_spec (Ascii.N_of_ascii x) (Ascii.N_of_ascii y)) as [Hxy|Hxy|Hxy],
           (N.compare_spec (Ascii.N_of_ascii y) (Ascii.N_of_ascii z)) as [Hyz|Hyz|Hyz],
           (N.compare_spec (Ascii.N_of_ascii x) (Ascii.N_of_ascii z)) as [Hxz|Hxz|Hxz];
    try done; try lia.
  apply IH.
Qed.

#[global] Instance str_le_trans : Transitive str_le.
Proof.
  intros a b c. unfold str_le, String.leb. intros Hab Hbc.
  pose proof (string_compare_le_trans a b c) as Htrans.
  destruct (String.compare a b), (String.compare b c), (String.compare a c);
    try done; exfalso; by apply Htrans.
Qed.

#[global] Instance str_le_total : Total str_le.
Proof. intros a b. apply String.leb_total. Qed.

#[global] Instance str_le_antisym : AntiSymm eq str_le.
Proof. intros a b. apply String.leb_antisym. Qed.

Lemma StronglySorted_sorted (xs : list string) : StronglySorted str_le (sorted xs).
Proof. apply StronglySorted_merge_sort; apply _. Qed.

Lemma map_pair_sorted (k : string) (l : list string) :
  StronglySorted str_le l → StronglySorted pair_le (map (pair k) l).
Proof.
  induction 1 as [|x l _ IH Hx]; cbn [map]; constructor; [done |].
  clear IH. induction Hx as [|y l Hy _ IH]; cbn [map]; constructor; [| done].
  by right.
Qed.

Lemma adjacency_of_sorted (b : gmap string (gset string)) :
  StronglySorted pair_le (adjacency_of b).
Proof.
  unfold adjacency_of.
  assert (Hss : StronglySorted str_le (sorted (elements (dom b))))
    by apply StronglySorted_sorted.
  assert (Hnd : NoDup (sorted (elements (dom b))))
    by apply NoDup_sorted, NoDup_elements.
  induction Hss as [|k keys _ IH Hk]; [constructor |].
  apply NoDup_cons in Hnd as [Hnotin Hnd]. rewrite bind_cons.
  apply StronglySorted_app_2; [| apply map_pair_sorted, StronglySorted_sorted | by apply IH].
  intros [k1 t1] [k2 t2] H1 H2.
  apply list_elem_of_In, in_map_iff in H1 as (t & [= <- <-] & _).
  apply list_elem_of_bind in H2 as (k' & H2 & Hk').
  apply list_elem_of_In, in_map_iff in H2 as (t' & [= <- <-] & _).
  left. cbn. split.
  - intros ->. done.
  - rewrite Forall_forall in Hk. by apply Hk.
Qed.

(** The first source word of [emit] is node 1. *)
Lemma emit_nodes_first (b : gmap string (gset string)) (k : string) (ks : list string)
    (ls : list line) (ids' : gmap string nat) :
  emit_nodes b (k :: ks) ∅ = (ls, ids') → ids' !! k = Some 1.
Proof.
  cbn [emit_nodes].
  destruct (get_node_id k ∅) as [n ids1] eqn:Hg. cbn [fst snd].
  destruct (emit_successors n _ _ ids1) as [ls1 ids2] eqn:He. cbn [fst snd].
  destruct (emit_nodes b ks ids2) as [ls3 ids3] eqn:Hn. cbn [fst snd].
  intros [= <- <-].
  destruct (get_node_id_spec _ _ _ _ Hg ids_ok_empty) as (Hok1 & _ & Hl1 & _).
  destruct (emit_successors_spec _ _ _ _ _ _ He Hok1) as (Hok2 & Hsub2 & _ & _).
  destruct (emit_nodes_spec _ _ _ _ _ Hn Hok2) as (_ & Hsub3 & _ & _).
  assert (n = 1) as -> by (unfold get_node_id in Hg; by simplify_eq).
  eapply lookup_weaken; [| done]. by eapply lookup_weaken.
Qed.

(** The lines of the bigram builder come in the order of the words: by
    source word, then by target word, each pair once.  The first line
    leaves node 1, and node 1 is the OOV token exactly when no source word
    sorts before ["<unk>"]. *)
Theorem bigram_lines_in_word_order (a : word_sequences) (kw : kwargs) :
  ∃ t, bigram_fst a kw = Some t
    ∧ StronglySorted pair_le (parse_adjacency t)
    ∧ (∃ l, head (arcs t) = Some l ∧ from_id l = 1)
    ∧ (label_of (arcs t) 1 = Some OOV_TERM
       ↔ ∀ p, p ∈ parse_adjacency t → str_le OOV_TERM p.1).
Proof.
  destruct (build_bigrams_ok kw (normalize a)) as (b & Hb & Hok).
  unfold bigram_fst. rewrite Hb. eexists. split; [done |].
  unfold emit.
  destruct (emit_nodes b (sorted (elements (dom b))) ∅) as [ls ids] eqn:He.
  destruct (emit_nodes_spec _ _ _ _ _ He ids_ok_empty) as (Hids & _ & Hd & ->).
  assert (Hdom : dom ids = dom b).
  { apply set_eq. intros x. rewrite Hd, dom_empty_L.
    setoid_rewrite elem_of_sorted. setoid_rewrite elem_of_elements. split.
    - intros [[]%not_elem_of_empty|[?|(k & _ & Hk)]]; [done |].
      unfold successors_of in Hk. destruct (b !! k) as [s|] eqn:Hs; [| set_solver].
      apply (ok_closed _ _ Hok) in Hs. set_solver.
    - intros ?. by right; left. }
  cbn [fst snd]. rewrite parse_adjacency_emit by done. cbn [arcs].
  destruct (sorted (elements (dom b))) as [|k0 keys] eqn:Hkeys.
  { pose proof (ok_oov _ _ Hok) as Hoov.
    apply elem_of_elements, elem_of_sorted in Hoov. rewrite Hkeys in Hoov.
    by apply elem_of_nil in Hoov. }
  assert (Hk0 : k0 ∈ dom b).
  { apply elem_of_elements, elem_of_sorted. rewrite Hkeys. left. }
  assert (Hnode : node ids k0 = 1).
  { apply node_lookup. by eapply emit_nodes_first. }
  assert (Hmin : ∀ k, k ∈ dom b → str_le k0 k).
  { intros k Hk%elem_of_elements%elem_of_sorted. rewrite Hkeys in Hk.
    pose proof (StronglySorted_sorted (elements (dom b))) as Hss.
    rewrite Hkeys in Hss. apply StronglySorted_cons in Hss as [Hall _].
    apply elem_of_cons in Hk as [->|Hk].
    - destruct (total str_le k0 k0); done.
    - rewrite Forall_forall in Hall. by apply Hall. }
  split_and!.
  - apply adjacency_of_sorted.
  - rewrite bind_cons. unfold block at 1.
    apply elem_of_dom in Hk0 as [s Hs].
    destruct (sorted (elements (successors_of b k0))) as [|t0 ts] eqn:Hts.
    + exfalso. apply (ok_nonempty _ _ Hok) in Hs as Hne. apply Hne.
      apply leibniz_equiv, elements_empty_iff, length_zero_iff_nil.
      assert (Hsucc : successors_of b k0 = s) by (unfold successors_of; by rewrite Hs).
      rewrite <- Hsucc, <- length_sorted, Hts. done.
    + cbn. eexists. split; [done |]. done.
  - rewrite <- Hnode, <- Hkeys, label_of_node by done. split.
    + intros [= ->] [w1 w2] Hp. apply elem_of_adjacency_of in Hp as (s & Hs & _).
      apply Hmin. by eapply elem_of_dom_2.
    + intros Hall. f_equal. apply (anti_symm str_le).
      * apply Hmin, (ok_oov _ _ Hok).
      * apply elem_of_dom in Hk0 as [s Hs].
        assert (∃ w, w ∈ s) as [w Hw] by (apply set_choose_L; by eapply ok_nonempty).
        apply (Hall (k0, w)). apply elem_of_adjacency_of. by exists s.
Qed.

(** ** The options *)

Lemma seq_successor_opts_plain (kw : kwargs) (seq : list string) (w1 w2 : string) :
  conservative kw = false → disfluency kw = false →
  seq_successor_opts kw seq w1 w2 ↔ seq_successor seq w1 w2.
Proof.
  intros Hc Hd. unfold seq_successor_opts. rewrite Hc, Hd. naive_solver.
Qed.

(** The options only add arcs: every pair of words the bigram builder
    writes without keyword arguments, it also writes under any options. *)
Theorem options_only_add_arcs (a : word_sequences) (kw : kwargs) :
  ∃ t0 t, bigram_fst a no_kwargs = Some t0 ∧ bigram_fst a kw = Some t
    ∧ ∀ p, p ∈ parse_adjacency t0 → p ∈ parse_adjacency t.
Proof.
  destruct (bigram_fst_spec a no_kwargs) as (b0 & ids0 & Hb0 & Hok0 & Hids0 & Hdom0 & ->).
  destruct (bigram_fst_spec a kw) as (b & ids & Hb & Hok & Hids & Hdom & ->).
  do 2 eexists. split_and!; [done | done |].
  rewrite !parse_adjacency_emit by done. intros [w1 w2].
  rewrite !elem_of_adjacency_of. unfold build_bigrams in Hb0, Hb.
  rewrite (build_rel _ _ _ _ Hb0), (build_rel _ _ _ _ Hb).
  intros [?|(seq & Hin & Hseq)]; [by left |]. right. exists seq. split; [done |].
  apply seq_successor_opts_plain in Hseq; [| done | done]. by left.
Qed.

Lemma walk_ext (kw kw' : kwargs) (e len : Z) (ws : list string) :
  (∀ n, Transcript.self_loops kw n = Transcript.self_loops kw' n) →
  ∀ i st, Transcript.walk kw e len i ws st = Transcript.walk kw' e len i ws st.
Proof.
  intros Hloops. induction ws as [|word rest IH]; intros i st; [done |].
  cbn [Transcript.walk]. case_bool_decide; [done |]. by rewrite Hloops, IH.
Qed.

Lemma run_ext (kw kw' : kwargs) (seqs : list (list string)) :
  (∀ n, Transcript.self_loops kw n = Transcript.self_loops kw' n) →
  Transcript.run kw seqs = Transcript.run kw' seqs.
Proof.
  intros Hloops. unfold Transcript.run.
  generalize (Transcript.end_node_id_of seqs) as e. intros e.
  generalize Transcript.init as st.
  induction seqs as [|seq seqs IH]; intros st; [done |]. cbn [foldl].
  rewrite <- IH. f_equal. destruct seq as [|w ws]; [done |].
  unfold Transcript.step_sequence, Transcript.leave_end, Transcript.enter_start.
  by rewrite !Hloops, (walk_ext kw kw' _ _ _ Hloops).
Qed.

(** Without the disfluency flag the [disfluencies] argument is not looked
    at: two calls that differ only in it return the same, from either
    builder. *)
Theorem disfluencies_unused_without_flag (fmt_f : weight → string)
    (fmt_float : float → string) (a : word_sequences) (kw kw' : kwargs) :
  conservative kw = conservative kw' →
  disfluency kw = false → disfluency kw' = false →
  make_bigram_lm_fst fmt_f a kw = make_bigram_lm_fst fmt_f a kw'
  ∧ Transcript.make_transcript_fst fmt_float a kw
    = Transcript.make_transcript_fst fmt_float a kw'.
Proof.
  intros Hc Hd Hd'. split.
  - unfold make_bigram_lm_fst, bigram_fst.
    destruct (build_bigrams_ok kw (normalize a)) as (b & Hb & Hok).
    destruct (build_bigrams_ok kw' (normalize a)) as (b' & Hb' & Hok').
    rewrite Hb, Hb'. do 3 f_equal. apply bigrams_ok_ext; [done | done |].
    intros w1 w2. unfold build_bigrams in Hb, Hb'.
    rewrite (build_rel _ _ _ _ Hb), (build_rel _ _ _ _ Hb').
    unfold seq_successor_opts. rewrite Hc, Hd, Hd'. naive_solver.
  - unfold Transcript.make_transcript_fst.
    rewrite (run_ext kw kw'); [done |].
    intros n. unfold Transcript.self_loops. by rewrite Hc, Hd, Hd'.
Qed.

Lemma disfluencies_unused_without_flag_witness :
  make_bigram_lm_fst (λ _, "w") (Flat ["a"; "b"])
    (Kwargs (Some true) None (Some ["uh"; "um"]))
  = make_bigram_lm_fst (λ _, "w") (Flat ["a"; "b"])
      (Kwargs (Some true) (Some false) None)
  ∧ Transcript.make_transcript_fst (λ _, "w") (Flat ["a"; "b"])
      (Kwargs (Some true) None (Some ["uh"; "um"]))
    = Transcript.make_transcript_fst (λ _, "w") (Flat ["a"; "b"])
        (Kwargs (Some true) (Some false) None).
Proof.
  apply (disfluencies_unused_without_flag (λ _, "w") (λ _, "w") (Flat ["a"; "b"])
           (Kwargs (Some true) None (Some ["uh"; "um"]))
           (Kwargs (Some true) (Some false) None)); reflexivity.
Defined.

(** ** The transcript builder: how many arcs *)

Lemma run_valid_perm (kw : kwargs) (seqs : list (list string)) :
  seqs ≠ [] → Forall (λ seq, seq ≠ []) seqs →
  Transcript.output (Transcript.run kw seqs)
  ≡ₚ (chains (Transcript.end_node_id_of seqs) 1 seqs
      ++ loops_at kw 0 (Transcript.end_node_id_of seqs + 1))%list.
Proof.
  intros Hne Hall.
  assert (He : Transcript.end_node_id_of seqs = Spec.end_node_id seqs).
  { rewrite <- (run_next_available kw). by apply assertion_iff. }
  pose proof (end_node_id_ge_1 seqs) as Hge.
  unfold Transcript.run. rewrite run_exact.
  cbn [Transcript.init Transcript.output Transcript.next_available_node_id
       Transcript.start_node_flag Transcript.end_node_flag].
  assert (Hany : any_word seqs = true).
  { unfold any_word. apply bool_decide_eq_true_2.
    destruct Hall as [|seq seqs' Hseq _]; [done |]. by left. }
  rewrite Hany. cbn [andb app].
  replace (Transcript.end_node_id_of seqs + 1)%Z
    with (1 + ((Spec.end_node_id seqs - 1) + 1))%Z by lia.
  rewrite !loops_at_app by lia.
  replace (0 + 1)%Z with 1%Z by lia.
  replace (1 + (Spec.end_node_id seqs - 1))%Z
    with (Transcript.end_node_id_of seqs) by lia.
  assert (Hone : ∀ m, loops_at kw m 1 = Transcript.self_loops kw m).
  { intros m. unfold loops_at. rewrite (seqZ_cons m) by lia. cbn. by rewrite app_nil_r. }
  rewrite !Hone. solve_Permutation.
Qed.

Lemma length_chain_from (e : Z) (rest : nat) :
  ∀ cur next, length (chain_from e cur next rest) = S rest.
Proof. induction rest as [|r IH]; intros cur next; cbn; [done | by rewrite IH]. Qed.

Lemma length_chain_of (e a : Z) (n : nat) : length (chain_of e a n) = n.
Proof.
  destruct n as [|[|m]]; cbn [chain_of]; [done | done |]. by rewrite length_chain_from.
Qed.

Lemma length_chain_arcs (hops : list (Z * Z)) :
  ∀ ws, length hops = length ws → length (chain_arcs hops ws) = 2 * length ws.
Proof.
  induction hops as [|hop hops IH]; intros [|w ws] Hlen; try done.
  rewrite chain_arcs_cons, length_app, IH by (cbn in Hlen; lia). cbn. lia.
Qed.

Lemma length_chains (e : Z) (seqs : list (list string)) :
  ∀ a, length (chains e a seqs) = 2 * length (concat seqs).
Proof.
  induction seqs as [|seq seqs IH]; intros a; cbn [chains concat]; [done |].
  rewrite !length_app, IH, length_chain_arcs by apply length_chain_of. lia.
Qed.

Lemma length_self_loops (kw : kwargs) (n : Z) :
  length (Transcript.self_loops kw n)
  = (if disfluency kw then length (disfluencies kw) else 0)
    + (if conservative kw then 1 else 0).
Proof.
  unfold Transcript.self_loops. rewrite length_app.
  destruct (disfluency kw), (conservative kw); by rewrite ?length_map.
Qed.

Lemma length_loops_at (kw : kwargs) (a n : Z) :
  (0 ≤ n)%Z →
  length (loops_at kw a n)
  = ((if disfluency kw then length (disfluencies kw) else 0)
     + (if conservative kw then 1 else 0)) * Z.to_nat n.
Proof.
  intros Hn. unfold loops_at.
  set (L := (if disfluency kw then length (disfluencies kw) else 0)
            + (if conservative kw then 1 else 0)).
  assert (Hgen : ∀ l : list Z,
            length (concat (map (Transcript.self_loops kw) l)) = L * length l).
  { induction l as [|m l IH]; cbn [map concat length]; [lia |].
    rewrite length_app, IH, length_self_loops. fold L. lia. }
  rewrite Hgen, length_seqZ. done.
Qed.

(** For a list of sequences that is not empty and has no empty sequence,
    the transcript builder returns two arcs for each word, and for each
    node from 0 to the end node one loop for the OOV token under the
    conservative flag and one loop for each disfluency under the
    disfluency flag. *)
Theorem transcript_number_of_arcs (fmt_float : float → string)
    (seqs : list (list string)) (kw : kwargs) :
  seqs ≠ [] → Forall (λ seq, seq ≠ []) seqs →
  ∃ arcs,
    Transcript.make_transcript_fst fmt_float (Nested seqs) kw
    = Transcript.Returned
        (Transcript.render fmt_float arcs (Transcript.end_node_id_of seqs))
    ∧ length arcs
      = 2 * length (concat seqs)
        + ((if disfluency kw then length (disfluencies kw) else 0)
           + (if conservative kw then 1 else 0))
          * Z.to_nat (Transcript.end_node_id_of seqs + 1).
Proof.
  intros Hne Hall.
  exists (Transcript.sort_edges (Transcript.output (Transcript.run kw seqs))).
  split.
  - destruct seqs as [|seq seqs]; [done |].
    unfold Transcript.make_transcript_fst. rewrite normalize_nested_cons. cbn zeta.
    rewrite bool_decide_eq_true_2; [done |]. by apply assertion_iff.
  - rewrite sort_edges_perm, run_valid_perm by done.
    rewrite length_app, length_chains, length_loops_at; [done |].
    assert (Transcript.end_node_id_of seqs = Spec.end_node_id seqs) as ->.
    { rewrite <- (run_next_available kw). by apply assertion_iff. }
    pose proof (end_node_id_ge_1 seqs). lia.
Qed.

Lemma transcript_number_of_arcs_witness :
  ∃ arcs,
    Transcript.make_transcript_fst (λ _, "w") (Nested [["a"; "b"]; ["c"]])
      (Kwargs (Some true) (Some true) (Some ["uh"; "um"]))
    = Transcript.Returned
        (Transcript.render (λ _, "w") arcs
           (Transcript.end_node_id_of [["a"; "b"]; ["c"]]))
    ∧ length arcs
      = 2 * length (concat [["a"; "b"]; ["c"]])
        + ((if disfluency (Kwargs (Some true) (Some true) (Some ["uh"; "um"]))
            then length (disfluencies
                           (Kwargs (Some true) (Some true) (Some ["uh"; "um"])))
            else 0)
           + (if conservative (Kwargs (Some true) (Some true) (Some ["uh"; "um"]))
              then 1 else 0))
          * Z.to_nat (Transcript.end_node_id_of [["a"; "b"]; ["c"]] + 1).
Proof.
  apply (transcript_number_of_arcs (λ _, "w") [["a"; "b"]; ["c"]]
           (Kwargs (Some true) (Some true) (Some ["uh"; "um"]))).
  - discriminate.
  - repeat constructor; discriminate.
Defined.

(** ** Reading the text of the bigram builder back *)

Lemma string_app_assoc (a b c : string) : (a ++ b) ++ c = a ++ (b ++ c).
Proof.
  induction a as [|x a IH]; [reflexivity |].
  change (String x ((a ++ b) ++ c) = String x (a ++ (b ++ c))). by rewrite IH.
Qed.

Lemma has_char_app (c : Ascii.ascii) (a b : string) :
  has_char c (a ++ b) = has_char c a || has_char c b.
Proof.
  induction a as [|x a IH]; [reflexivity |].
  change (String x a ++ b) with (String x (a ++ b)). cbn [has_char].
  by rewrite IH, orb_assoc.
Qed.

Lemma split_on_sep_cons (sep : Ascii.ascii) (s : string) :
  split_on sep (String sep s) = EmptyString :: split_on sep s.
Proof. cbn [split_on]. by rewrite Ascii.eqb_refl. Qed.

Lemma split_on_app_sep (sep : Ascii.ascii) (a b : string) :
  has_char sep a = false →
  split_on sep (a ++ String sep b) = a :: split_on sep b.
Proof.
  induction a as [|x a IH]; intros Ha.
  - change (EmptyString ++ String sep b) with (String sep b).
    apply split_on_sep_cons.
  - cbn [has_char] in Ha. apply orb_false_elim in Ha as [Hx Ha].
    change (String x a ++ String sep b) with (String x (a ++ String sep b)).
    cbn [split_on]. by rewrite Hx, IH.
Qed.

Lemma split_on_no_sep (sep : Ascii.ascii) (a : string) :
  has_char sep a = false → split_on sep a = [a].
Proof.
  induction a as [|x a IH]; intros Ha; [done |].
  cbn [has_char] in Ha. apply orb_false_elim in Ha as [Hx Ha].
  cbn [split_on]. by rewrite Hx, IH.
Qed.

Lemma is_token_inv (s : string) :
  is_token s = true →
  s ≠ EmptyString ∧ has_char space_char s = false ∧ has_char newline_char s = false.
Proof.
  unfold is_token. intros [[Hne Hsp%negb_true_iff]%andb_prop Hnl%negb_true_iff]%andb_prop.
  split_and!; [| done | done]. intros ->. done.
Qed.

Lemma text_fields_token (a : string) : is_token a = true → text_fields a = [a].
Proof.
  intros (Hne & Hsp & _)%is_token_inv. unfold text_fields.
  rewrite split_on_no_sep by done. by rewrite filter_cons_True.
Qed.

Lemma text_fields_app (a rest : string) :
  is_token a = true → text_fields (a ++ "    " ++ rest) = a :: text_fields rest.
Proof.
  intros (Hne & Hsp & _)%is_token_inv. unfold text_fields.
  change ("    " ++ rest)
    with (String space_char (String space_char (String space_char
            (String space_char rest)))).
  rewrite split_on_app_sep, !split_on_sep_cons by done.
  rewrite filter_cons_True by done. by rewrite !filter_cons_False by naive_solver.
Qed.

Lemma string_of_uint_no_char (c : Ascii.ascii) (d : Decimal.uint) :
  c = space_char ∨ c = newline_char →
  has_char c (NilEmpty.string_of_uint d) = false.
Proof.
  intros [-> | ->]; induction d; cbn [NilEmpty.string_of_uint has_char];
    by rewrite ?IHd.
Qed.

Lemma is_token_fmt_nat (n : nat) : is_token (fmt_nat n) = true.
Proof.
  unfold is_token, fmt_nat.
  rewrite !string_of_uint_no_char by auto. cbn [negb]. rewrite !andb_true_r.
  apply negb_true_iff, String.eqb_neq.
  assert (Hnil : Nat.to_uint n ≠ Decimal.Nil).
  { rewrite <- (DecimalNat.Unsigned.of_to n) at 1.
    rewrite DecimalNat.Unsigned.to_of. apply DecimalFacts.unorm_nonnil. }
  by destruct (Nat.to_uint n).
Qed.

Lemma parse_nat_fmt_nat (n : nat) : parse_nat (fmt_nat n) = Some n.
Proof.
  unfold parse_nat, fmt_nat. rewrite NilEmpty.usu. cbn [fmap option_fmap option_map].
  by rewrite DecimalNat.Unsigned.of_to.
Qed.

Lemma render_line_app (fmt_f : weight → string) (l : line) (acc : string) :
  render_line fmt_f l ++ acc = line_text fmt_f l ++ String newline_char acc.
Proof.
  unfold render_line, line_text. rewrite !string_app_assoc. reflexivity.
Qed.

Lemma line_text_no_newline (fmt_f : weight → string) (l : line) :
  line_ok fmt_f l → has_char newline_char (line_text fmt_f l) = false.
Proof.
  intros ((_ & _ & Hi)%is_token_inv & (_ & _ & Ho)%is_token_inv
          & (_ & _ & Hw)%is_token_inv).
  pose proof (is_token_inv _ (is_token_fmt_nat (from_id l))) as (_ & _ & Hf).
  pose proof (is_token_inv _ (is_token_fmt_nat (to_id l))) as (_ & _ & Ht).
  unfold line_text. rewrite !has_char_app, Hi, Ho, Hw, Hf, Ht. reflexivity.
Qed.

Lemma line_text_not_empty (fmt_f : weight → string) (l : line) :
  line_text fmt_f l ≠ EmptyString.
Proof.
  pose proof (is_token_inv _ (is_token_fmt_nat (from_id l))) as (Hne & _).
  unfold line_text. by destruct (fmt_nat (from_id l)).
Qed.

Lemma parse_line_line_text (fmt_f : weight → string) (l : line) :
  line_ok fmt_f l →
  parse_line (line_text fmt_f l)
  = Some (ArcLine (from_id l) (to_id l) (ilabel l)).
Proof.
  intros (Hi & Ho & Hw). unfold parse_line, line_text.
  rewrite !text_fields_app, text_fields_token by (done || apply is_token_fmt_nat).
  by rewrite !parse_nat_fmt_nat.
Qed.

Lemma parse_line_final (n : nat) :
  parse_line (fmt_nat n ++ "    0") = Some (FinalLine n).
Proof.
  unfold parse_line. change (fmt_nat n ++ "    0") with (fmt_nat n ++ "    " ++ "0").
  rewrite text_fields_app, text_fields_token by (done || apply is_token_fmt_nat).
  by rewrite parse_nat_fmt_nat.
Qed.

Lemma text_lines_render (fmt_f : weight → string) (ls : list line) (n : nat) :
  Forall (line_ok fmt_f) ls →
  text_lines (render fmt_f (FstText ls n))
  = (map (line_text fmt_f) ls ++ [(fmt_nat n ++ "    0")%string])%list.
Proof.
  unfold text_lines, render. cbn [arcs final_node].
  induction 1 as [|l ls Hl _ IH]; cbn [foldr map app].
  - rewrite <- string_app_assoc.
    change newline with (String newline_char EmptyString).
    rewrite split_on_app_sep.
    + cbn [split_on].
      rewrite filter_cons_True, filter_cons_False; [done | naive_solver |].
      pose proof (is_token_inv _ (is_token_fmt_nat n)) as (Hne & _).
      by destruct (fmt_nat n).
    + pose proof (is_token_inv _ (is_token_fmt_nat n)) as (_ & _ & Hnl).
      rewrite has_char_app, Hnl. reflexivity.
  - rewrite render_line_app, split_on_app_sep by by apply line_text_no_newline.
    rewrite filter_cons_True by apply line_text_not_empty. by rewrite IH.
Qed.

Lemma parse_lines_render (fmt_f : weight → string) (ls : list line) (n : nat) :
  Forall (line_ok fmt_f) ls →
  parse_lines (map (line_text fmt_f) ls ++ [(fmt_nat n ++ "    0")%string])%list
  = Some (map (λ l, ArcLine (from_id l) (to_id l) (ilabel l)) ls ++ [FinalLine n])%list.
Proof.
  induction 1 as [|l ls Hl _ IH]; cbn [map app parse_lines].
  - by rewrite parse_line_final.
  - by rewrite parse_line_line_text, IH.
Qed.

Lemma text_arcs_lines (ls : list line) (n : nat) :
  text_arcs (map (λ l, ArcLine (from_id l) (to_id l) (ilabel l)) ls ++ [FinalLine n])
  = map arc_of_line ls.
Proof.
  unfold text_arcs. induction ls as [|l ls IH]; [done |].
  cbn [map app omap list_omap]. by rewrite <- IH.
Qed.

Lemma list_find_arc_of_line (all : list line) (m : nat) :
  list_find (λ a : nat * nat * string, a.1.2 = m) (map arc_of_line all)
  = (λ r : nat * line, (r.1, arc_of_line r.2))
    <$> list_find (λ l : line, to_id l = m) all.
Proof.
  induction all as [|x all IH]; [done |].
  cbn [map list_find]. rewrite IH. cbn [arc_of_line fst snd].
  case_decide; [done |].
  by destruct (list_find (λ l : line, to_id l = m) all) as [[i l']|].
Qed.

Lemma adjacency_of_arcs_lines (ls : list line) (n : nat) :
  adjacency_of_arcs (map arc_of_line ls) = parse_adjacency (FstText ls n).
Proof.
  unfold adjacency_of_arcs, parse_adjacency, label_of. cbn [arcs].
  generalize ls at 1 3 as all. intros all.
  induction ls as [|l ls IH]; [done |].
  cbn [map omap list_omap]. rewrite IH.
  change ((arc_of_line l).1.1) with (from_id l).
  rewrite list_find_arc_of_line.
  by destruct (list_find (λ l0 : line, to_id l0 = from_id l) all) as [[i l']|].
Qed.

(** The text of a transducer whose labels and weights stand as fields is
    read back to the adjacency relation of its arcs. *)
Lemma text_adjacency_render (fmt_f : weight → string) (t : fst_text) :
  Forall (line_ok fmt_f) (arcs t) →
  text_adjacency (render fmt_f t) = Some (parse_adjacency t).
Proof.
  intros Hok. destruct t as [ls n]. cbn [arcs] in Hok. unfold text_adjacency.
  rewrite text_lines_render, parse_lines_render by done.
  cbn [fmap option_fmap option_map].
  by rewrite text_arcs_lines, (adjacency_of_arcs_lines ls n).
Qed.

Lemma successor_token (seqs : list (list string)) (w1 w2 : string) :
  Forall (Forall (λ word, is_token word = true)) seqs →
  Spec.successor seqs w1 w2 → is_token w2 = true.
Proof.
  intros Hall Hsucc. rewrite Forall_forall in Hall.
  assert (Hin : ∀ seq word, seq ∈ seqs → word ∈ seq → is_token word = true).
  { intros seq word Hseq Hword. specialize (Hall seq Hseq).
    rewrite Forall_forall in Hall. by apply Hall. }
  destruct Hsucc as [| seq word Hseq Hhead | seq i prev word Hseq _ Hword
                     | seq word Hseq _]; [done | | | done].
  - apply (Hin seq); [done |]. destruct seq; simplify_eq/=. left.
  - apply (Hin seq); [done |]. by eapply list_elem_of_lookup_2.
Qed.

(** C2. Without the conservative and disfluency options, for every set of
    word sequences (empty or not, with empty sequences or not) whose words
    stand as fields of a line (no word is empty or has a blank or a
    newline in it), and a rendering of the weights that does too, the text
    the bigram builder returns is read back, line by line and field by
    field, to exactly the successor relation of the design: the seed OOV
    to OOV, OOV to each first word, each word to the next, each last word
    to OOV.  No pair is read twice. *)
Theorem bigram_text_reads_back_successor_relation (fmt_f : weight → string)
    (seqs : list (list string)) (kw : kwargs) :
  conservative kw = false → disfluency kw = false →
  (∀ w, is_token (fmt_f w) = true) →
  Forall (Forall (λ word, is_token word = true)) seqs →
  ∃ bytes pairs,
    make_bigram_lm_fst fmt_f (Nested seqs) kw = Some bytes
    ∧ text_adjacency bytes = Some pairs
    ∧ NoDup pairs
    ∧ ∀ w1 w2, (w1, w2) ∈ pairs ↔ Spec.successor seqs w1 w2.
Proof.
  intros Hcons Hdis Hfmt Hwords. unfold make_bigram_lm_fst.
  destruct (bigram_fst_spec (Nested seqs) kw)
    as (b & ids & Hb & Hok & Hids & Hdom & ->).
  destruct (build_bigrams_plain kw Hcons Hdis seqs) as (b' & Hb' & Hrel).
  assert (b' = b) as -> by congruence.
  eexists _, _. split; [done |].
  rewrite text_adjacency_render.
  - split; [done |]. rewrite parse_adjacency_emit by done. split.
    + apply NoDup_adjacency_of.
    + intros w1 w2. by rewrite elem_of_adjacency_of.
  - cbn [arcs]. apply Forall_forall. intros l (k & t & Hkt & ->)%elem_of_arcs.
    apply Hrel, (successor_token _ _ _ Hwords) in Hkt.
    by split_and!; cbn [ilabel olabel arc_weight].
Qed.

Lemma bigram_text_reads_back_successor_relation_witness :
  ∃ bytes pairs,
    make_bigram_lm_fst (λ _, "0.000000") (Nested [["a"; "b"]; []; ["b"]]) no_kwargs
    = Some bytes
    ∧ text_adjacency bytes = Some pairs
    ∧ NoDup pairs
    ∧ ∀ w1 w2, (w1, w2) ∈ pairs ↔ Spec.successor [["a"; "b"]; []; ["b"]] w1 w2.
Proof.
  apply (bigram_text_reads_back_successor_relation (λ _, "0.000000")
           [["a"; "b"]; []; ["b"]] no_kwargs);
    [reflexivity | reflexivity | intros w; reflexivity | repeat constructor].
Defined.

(** A word with a blank in it: the builder writes it into its line as it
    is, the line has seven fields instead of five, and the text is not
    read back, while the word is a successor of the OOV token. *)
Lemma bigram_text_of_word_with_blank_is_not_read_back :
  conservative no_kwargs = false ∧ disfluency no_kwargs = false
  ∧ Spec.successor [["a b"]] OOV_TERM "a b"
  ∧ ∃ bytes,
      bytes = "1    1    <unk>    <unk>    0.000000" ++ newline
              ++ "1    2    a b    a b    0.000000" ++ newline
              ++ "2    1    <unk>    <unk>    0.000000" ++ newline
              ++ "2    0" ++ newline
      ∧ make_bigram_lm_fst (λ _, "0.000000") (Nested [["a b"]]) no_kwargs
        = Some bytes
      ∧ text_fields "1    2    a b    a b    0.000000"
        = ["1"; "2"; "a"; "b"; "a"; "b"; "0.000000"]
      ∧ text_adjacency bytes = None.
Proof.
  split_and!; [reflexivity | reflexivity | |].
  - apply (Spec.successor_first _ ["a b"]); [left | done].
  - eexists. split; [reflexivity |].
    split_and!; vm_compute; reflexivity.
Qed.

(** ** The transcript builder: the returned arcs, word by word *)

Lemma normalize_not_nil (a : word_sequences) : normalize a ≠ [].
Proof.
  destruct a as [ws | [|seq seqs]]; [by rewrite normalize_flat | done | done].
Qed.

Lemma chains_chain_hops (e : Z) (seqs : list (list string)) :
  ∀ a, chains e a seqs = concat (zip_with chain_arcs (chain_hops e a seqs) seqs).
Proof.
  induction seqs as [|seq seqs IH]; intros a; cbn [chains chain_hops zip_with concat];
    [done | by rewrite IH].
Qed.

Lemma chain_from_path (e : Z) (rest : nat) :
  ∀ cur next, (rest = 0 → next = e) → is_path cur (chain_from e cur next rest) e.
Proof.
  induction rest as [|r IH]; intros cur next Hnext; cbn [chain_from is_path].
  - split; [done |]. cbn. by apply Hnext.
  - split; [done |]. cbn [snd]. apply IH. by intros ->.
Qed.

Lemma chain_of_path (e a : Z) (n : nat) : n ≠ 0 → is_path 0 (chain_of e a n) e.
Proof.
  intros Hn. destruct n as [|[|m]]; [done | |]; cbn [chain_of];
    by apply chain_from_path.
Qed.

Lemma chain_hops_paths (e : Z) (seqs : list (list string)) :
  Forall (λ seq, seq ≠ []) seqs →
  ∀ a, (1 ≤ a)%Z → (a + (Spec.end_node_id seqs - 1) ≤ e)%Z →
  Forall2 (λ hops seq,
             length hops = length seq ∧ is_path 0 hops e
             ∧ Forall (λ hop : Z * Z, (0 ≤ hop.1 < hop.2 ∧ hop.2 ≤ e)%Z) hops)
          (chain_hops e a seqs) seqs.
Proof.
  induction 1 as [|seq seqs Hseq _ IH]; intros a Ha He; cbn [chain_hops];
    [constructor |].
  assert (Htotal : (Spec.end_node_id (seq :: seqs) - 1
                    = Z.max (Z.of_nat (length seq) - 1) 0 + (Spec.end_node_id seqs - 1))%Z)
    by (unfold Spec.end_node_id; cbn [map foldr]; lia).
  pose proof (end_node_id_ge_1 seqs).
  constructor; [split_and! | apply IH; lia].
  - apply length_chain_of.
  - apply chain_of_path. by destruct seq.
  - apply chain_of_bounds; lia.
Qed.

Lemma chain_arcs_two (hops : list (Z * Z)) :
  ∀ seq, chain_arcs hops seq
         = concat (zip_with (λ (hop : Z * Z) word,
                               [ (hop.1, hop.2, word, word, 2%float);
                                 (hop.1, hop.2, OOV_TERM, OOV_TERM, 0%float) ])
                            hops seq).
Proof. done. Qed.

Lemma loops_at_plain (kw : kwargs) (a n : Z) :
  conservative kw = false → disfluency kw = false → loops_at kw a n = [].
Proof.
  intros Hcons Hdis. unfold loops_at.
  induction (seqZ a n) as [|m ms IH]; cbn [map concat]; [done |].
  by rewrite self_loops_plain, IH.
Qed.

(** C7. For every input without an empty sequence and every choice of the
    options, the transcript builder returns the text of a list of arcs
    that holds, for each sequence and each word position of it, the two
    arcs of lines 149-150: one for the word at weight 2.0 and one for the
    OOV token at weight 0.0, both from the same node to the same node.
    The positions of a sequence go along a path from node 0 to the end
    node, each hop to a node with a greater id.  The only other arcs are
    filler loops from a node to itself at weight 0.0, and without the
    conservative and disfluency options there are none. *)
Theorem transcript_returns_two_parallel_arcs_per_word (fmt_float : float → string)
    (a : word_sequences) (kw : kwargs) :
  Forall (λ seq, seq ≠ []) (normalize a) →
  ∃ arcs hopss fillers,
    Transcript.make_transcript_fst fmt_float a kw
    = Transcript.Returned
        (Transcript.render fmt_float arcs (Transcript.end_node_id_of (normalize a)))
    ∧ arcs ≡ₚ (concat (zip_with chain_arcs hopss (normalize a)) ++ fillers)%list
    ∧ Forall2 (λ hops seq,
                 length hops = length seq
                 ∧ is_path 0 hops (Transcript.end_node_id_of (normalize a))
                 ∧ Forall (λ hop : Z * Z,
                             (0 ≤ hop.1 < hop.2
                              ∧ hop.2 ≤ Transcript.end_node_id_of (normalize a))%Z)
                          hops)
              hopss (normalize a)
    ∧ (∀ hops seq,
         chain_arcs hops seq
         = concat (zip_with (λ (hop : Z * Z) word,
                               [ (hop.1, hop.2, word, word, 2%float);
                                 (hop.1, hop.2, OOV_TERM, OOV_TERM, 0%float) ])
                            hops seq))
    ∧ Forall (λ arc, is_filler kw arc ∧ edge_src arc = edge_tgt arc) fillers
    ∧ (conservative kw = false → disfluency kw = false → fillers = []).
Proof.
  intros Hall.
  pose proof (normalize_not_nil a) as Hne.
  set (seqs := normalize a) in *.
  assert (He : Transcript.end_node_id_of seqs = Spec.end_node_id seqs).
  { rewrite <- (run_next_available kw). by apply assertion_iff. }
  exists (Transcript.sort_edges (Transcript.output (Transcript.run kw seqs))),
         (chain_hops (Transcript.end_node_id_of seqs) 1 seqs),
         (loops_at kw 0 (Transcript.end_node_id_of seqs + 1)).
  split_and!.
  - unfold Transcript.make_transcript_fst. cbn zeta. fold seqs.
    rewrite bool_decide_eq_true_2; [done |]. by apply assertion_iff.
  - by rewrite sort_edges_perm, run_valid_perm, chains_chain_hops.
  - apply chain_hops_paths; [done | lia | lia].
  - apply chain_arcs_two.
  - eapply Forall_impl; [apply loops_at_loops |]. cbn. tauto.
  - apply loops_at_plain.
Qed.

Lemma transcript_returns_two_parallel_arcs_per_word_witness :
  ∃ arcs hopss fillers,
    Transcript.make_transcript_fst (λ _, "w") (Nested [["a"; "b"; "c"]; ["d"]])
      (Kwargs (Some true) None None)
    = Transcript.Returned
        (Transcript.render (λ _, "w") arcs
           (Transcript.end_node_id_of (normalize (Nested [["a"; "b"; "c"]; ["d"]]))))
    ∧ arcs ≡ₚ (concat (zip_with chain_arcs hopss
                         (normalize (Nested [["a"; "b"; "c"]; ["d"]])))
               ++ fillers)%list
    ∧ Forall2 (λ hops seq,
                 length hops = length seq
                 ∧ is_path 0 hops
                     (Transcript.end_node_id_of
                        (normalize (Nested [["a"; "b"; "c"]; ["d"]])))
                 ∧ Forall (λ hop : Z * Z,
                             (0 ≤ hop.1 < hop.2
                              ∧ hop.2 ≤ Transcript.end_node_id_of
                                          (normalize (Nested [["a"; "b"; "c"]; ["d"]])))%Z)
                          hops)
              hopss (normalize (Nested [["a"; "b"; "c"]; ["d"]]))
    ∧ (∀ hops seq,
         chain_arcs hops seq
         = concat (zip_with (λ (hop : Z * Z) word,
                               [ (hop.1, hop.2, word, word, 2%float);
                                 (hop.1, hop.2, OOV_TERM, OOV_TERM, 0%float) ])
                            hops seq))
    ∧ Forall (λ arc, is_filler (Kwargs (Some true) None None) arc
                     ∧ edge_src arc = edge_tgt arc) fillers
    ∧ (conservative (Kwargs (Some true) None None) = false →
       disfluency (Kwargs (Some true) None None) = false → fillers = []).
Proof.
  apply (transcript_returns_two_parallel_arcs_per_word (λ _, "w")
           (Nested [["a"; "b"; "c"]; ["d"]]) (Kwargs (Some true) None None)).
  repeat constructor; done.
Defined.
